(** * camera_controller: ball-tracking camera controller

    A shallow embedding of [camera_controller.py] and the properties of
    its coordinate transform, zoom transform, tracking loop, calibration
    prompt and configuration persistence.

    Python [float] is IEEE 754 binary64; it is modelled by the Standard
    Library's [spec_float] with precision 53 and maximal exponent 1024,
    the executable specification of binary64 arithmetic.  Python [int] is
    unbounded and is modelled by [Z]. *)

From Stdlib Require Import ZArith Lia Bool List String Ascii.
From Stdlib Require Import Floats.SpecFloat.
From stdpp Require Import gmap strings fin_maps.

Local Open Scope Z_scope.

(** ** Python numbers and exceptions *)

Module Py.

(** The exceptions the arithmetic of the program can raise. *)
Inductive exn : Set :=
  | ZeroDivisionError
  | OverflowError
  | ValueError.

Inductive result (A : Type) : Type :=
  | Ok (a : A)
  | Raise (e : exn).
Arguments Ok {A} a.
Arguments Raise {A} e.

Definition bind {A B : Type} (r : result A) (k : A -> result B) : result B :=
  match r with
  | Ok a => k a
  | Raise e => Raise e
  end.

Definition returns {A : Type} (r : result A) : bool :=
  match r with Ok _ => true | Raise _ => false end.

(** *** binary64 *)

Definition prec : Z := 53.
Definition emax : Z := 1024.

Abbreviation float := spec_float.

Definition fmul : float -> float -> float := SFmul prec emax.
Definition fadd : float -> float -> float := SFadd prec emax.
Definition fsub : float -> float -> float := SFsub prec emax.
Definition fsqrt : float -> float := SFsqrt prec emax.
Definition wf (f : float) : bool := valid_binary prec emax f.

Definition is_zero (f : float) : bool :=
  match f with S754_zero _ => true | _ => false end.

Definition is_nan (f : float) : bool :=
  match f with S754_nan => true | _ => false end.

(** [a / b] on floats: Python raises instead of returning an infinity
    or a NaN when the divisor is a zero of either sign. *)
Definition fdiv (a b : float) : result float :=
  if is_zero b then Raise ZeroDivisionError else Ok (SFdiv prec emax a b).

(** Conversion of an [int] operand to [float] (round to nearest, ties to
    even); Python raises [OverflowError] when the integer is too large. *)
Definition float_of_int (z : Z) : result float :=
  match binary_normalize prec emax z 0 false with
  | S754_infinity _ => Raise OverflowError
  | f => Ok f
  end.

(** An integer literal in a float context.  Only used on literals that
    binary64 represents exactly. *)
Definition lit (z : Z) : float := binary_normalize prec emax z 0 false.

(** A decimal literal [n/d]: the binary64 value nearest to the quotient,
    which is what the correctly rounded division of two exactly
    represented integers yields. *)
Definition dec (n d : Z) : float := SFdiv prec emax (lit n) (lit d).

(** The signed integer mantissa of a finite float. *)
Definition smant (s : bool) (m : positive) : Z := cond_Zopp s (Zpos m).

(** [int(f)]: truncation toward zero. *)
Definition int_of_float (f : float) : result Z :=
  match f with
  | S754_nan => Raise ValueError
  | S754_infinity _ => Raise OverflowError
  | S754_zero _ => Ok 0
  | S754_finite s m e =>
      Ok (if 0 <=? e then smant s m * 2 ^ e
          else Z.quot (smant s m) (2 ^ (- e)))
  end.

(** Exact comparison of an integer with a float, as Python performs it
    for mixed operands (no rounding of the integer). *)
Definition Zcompare_float (z : Z) (f : float) : option comparison :=
  match f with
  | S754_nan => None
  | S754_infinity s => Some (if s then Gt else Lt)
  | S754_zero _ => Some (z ?= 0)
  | S754_finite s m e =>
      Some (if 0 <=? e then z ?= smant s m * 2 ^ e
            else z * 2 ^ (- e) ?= smant s m)
  end.

(** *** Values that are [int] or [float] *)

Inductive num : Set :=
  | Int (z : Z)
  | Float (f : float).

Definition option_opp (c : option comparison) : option comparison :=
  match c with Some c => Some (CompOpp c) | None => None end.

Definition num_compare (a b : num) : option comparison :=
  match a, b with
  | Int x, Int y => Some (x ?= y)
  | Float x, Float y => SFcompare x y
  | Int x, Float y => Zcompare_float x y
  | Float x, Int y => option_opp (Zcompare_float y x)
  end.

Definition lt (a b : num) : bool :=
  match num_compare a b with Some Lt => true | _ => false end.
Definition gt (a b : num) : bool :=
  match num_compare a b with Some Gt => true | _ => false end.
Definition le (a b : num) : bool :=
  match num_compare a b with Some (Lt | Eq) => true | _ => false end.
Definition ge (a b : num) : bool :=
  match num_compare a b with Some (Gt | Eq) => true | _ => false end.

(** [min(a, b)] and [max(a, b)] with two positional arguments: the first
    argument is kept unless the second compares strictly below (above). *)
Definition min (a b : num) : num := if lt b a then b else a.
Definition max (a b : num) : num := if gt b a then b else a.

(** [int(v)]. *)
Definition int (v : num) : result Z :=
  match v with
  | Int z => Ok z
  | Float f => int_of_float f
  end.

End Py.

Notation "x <- e ;; k" := (Py.bind e (fun x => k))
  (at level 100, e at next level, right associativity).

Import Py.

(** ** Configuration *)

(** [CameraConfig].  The fields annotated [float] hold binary64 values:
    the integer literals of their defaults (6000, 4000, 1000, 5000) are
    exactly representable, and every use of them (true division,
    arithmetic with a float, comparison with a float) behaves as on the
    converted value.  [min_zoom] and [max_zoom] are Python integers. *)
Record CameraConfig : Set := mkConfig {
  field_width : float;
  field_height : float;
  pan_scale : float;
  tilt_scale : float;
  min_zoom : Z;
  max_zoom : Z;
  min_distance : float;
  max_distance : float
}.

Definition default_config : CameraConfig :=
  {| field_width := lit 6000;
     field_height := lit 4000;
     pan_scale := lit 1;
     tilt_scale := lit 1;
     min_zoom := 0;
     max_zoom := 100;
     min_distance := lit 1000;
     max_distance := lit 5000 |}.

(** ** Coordinate transforms *)

Definition calculate_camera_angles (config : CameraConfig) (x y : float)
  : result (num * num) :=
  half_w <- fdiv (field_width config) (lit 2) ;;
  rel_x <- fdiv x half_w ;;
  half_h <- fdiv (field_height config) (lit 2) ;;
  rel_y <- fdiv y half_h ;;
  let pan_angle := fmul (fmul rel_x (lit 129)) (pan_scale config) in
  let tilt_angle := fmul (fmul rel_y (lit 59)) (tilt_scale config) in
  Ok (max (Int (-129)) (min (Int 129) (Float pan_angle)),
      max (Int (-59)) (min (Int 59) (Float tilt_angle))).

(** [math.sqrt]: a domain error on a negative argument. *)
Definition is_negative (f : float) : bool :=
  match f with
  | S754_finite true _ _ | S754_infinity true => true
  | _ => false
  end.

Definition math_sqrt (f : float) : result float :=
  if is_negative f then Raise ValueError else Ok (fsqrt f).

(** The interpolated zoom for a distance strictly between the two
    thresholds (the last three statements of [calculate_zoom]). *)
Definition interpolate_zoom (config : CameraConfig) (distance : float)
  : result Z :=
  let zoom_range := max_zoom config - min_zoom config in
  let distance_range := fsub (max_distance config) (min_distance config) in
  zoom_range_f <- float_of_int zoom_range ;;
  quotient <-
    fdiv (fmul zoom_range_f (fsub distance (min_distance config)))
         distance_range ;;
  max_zoom_f <- float_of_int (max_zoom config) ;;
  let zoom := fsub max_zoom_f quotient in
  int (max (Int (min_zoom config))
           (min (Int (max_zoom config)) (Float zoom))).

(** [calculate_zoom] after [distance] has been computed. *)
Definition zoom_of_distance (config : CameraConfig) (distance : float)
  : result Z :=
  if le (Float distance) (Float (min_distance config)) then
    Ok (max_zoom config)
  else if ge (Float distance) (Float (max_distance config)) then
    Ok (min_zoom config)
  else interpolate_zoom config distance.

Definition distance_of (x y : float) : result float :=
  math_sqrt (fadd (fmul x x) (fmul y y)).

Definition calculate_zoom (config : CameraConfig) (x y : float) : result Z :=
  distance <- distance_of x y ;;
  zoom_of_distance config distance.

(** ** The camera control sink *)

(** An OSC message: an address and its integer arguments. *)
Record osc_message : Set := mkMsg {
  address : string;
  arguments : list Z
}.

Definition set_gim_motor_degree (pan tilt : Z) : osc_message :=
  mkMsg "/OBSBOT/WebCam/General/SetGimMotorDegree" [90; pan; tilt].
Definition set_zoom (zoom : Z) : osc_message :=
  mkMsg "/OBSBOT/WebCam/General/SetZoom" [zoom].
Definition disconnected : osc_message :=
  mkMsg "/OBSBOT/WebCam/General/Disconnected" [1].

(** [move_camera]: the two messages it hands to the sink, in the order
    of its two calls of [send_message].  The argument list of the first
    message is built before the first call, so a failing [int] hands
    over nothing, and nothing is computed between the two calls.  What
    becomes of each call is the matter of [send_messages] below. *)
Definition move_camera (pan tilt : num) (zoom : Z)
  : result (list osc_message) :=
  p <- int pan ;;
  t <- int tilt ;;
  Ok [set_gim_motor_degree p t; set_zoom zoom].

(** ** The detection source *)

Record ball : Set := mkBall {
  ball_x : float;
  ball_y : float;
  ball_confidence : float
}.

(** What one call of [recvfrom] and the decoding of its datagram can do:
    deliver a frame, fail with an exception derived from [Exception], or
    be cut short by the operator's [KeyboardInterrupt]. *)
Inductive datagram : Set :=
  | Frame (balls : list ball)
  | Failure
  | Interrupt.

(** [max(frame.balls, key=lambda b: b.confidence)]: the first ball is
    kept until a later one has a strictly greater confidence. *)
Definition most_confident (first : ball) (others : list ball) : ball :=
  fold_left
    (fun best b =>
       if gt (Float (ball_confidence b)) (Float (ball_confidence best))
       then b else best)
    others first.

(** Lines written to the terminal. *)
Inductive line : Set :=
  | StartingBallTracking
  | ErrorReceivingFrame
  | StoppingBallTracking
  | CalibrationBanner
  | CalibrationSaved
  | UnknownCommand
  | CurrentScales (pan tilt : float)
  | CalibrationFileNotFound (filename : string).

Inductive output : Set :=
  | Sent (m : osc_message)
  | Printed (l : line).

(** [receive_ssl_frame] on a datagram that is not an interrupt: the
    lines printed and the position returned. *)
Definition receive_ssl_frame (d : datagram)
  : list output * option (float * float * float) :=
  match d with
  | Frame (b :: bs) =>
      let best := most_confident b bs in
      ([], Some (ball_x best, ball_y best, ball_confidence best))
  | Frame [] => ([], None)
  | Failure => ([Printed ErrorReceivingFrame], None)
  | Interrupt => ([], None)
  end.

(** ** The tracking loop *)

(** The confidence test of [run]: [confidence > 0.5]. *)
Definition should_track (confidence : float) : bool :=
  gt (Float confidence) (Float (dec 5 10)).

(** The body of the loop after the frame has been received: the
    messages handed to the sink in this tick. *)
Definition tick (config : CameraConfig)
    (ball_pos : option (float * float * float))
  : result (list osc_message) :=
  match ball_pos with
  | Some (x, y, confidence) =>
      if should_track confidence then
        angles <- calculate_camera_angles config x y ;;
        zoom <- calculate_zoom config x y ;;
        move_camera (fst angles) (snd angles) zoom
      else Ok []
  | None => Ok []
  end.

(** The loop in front of a sink that takes every message, with the
    operator's interrupt arriving at a reception; [tracking_loop_on]
    below is the loop in front of any sink, with the interrupt arriving
    anywhere.  How a run over a finite script of datagrams ends: the
    script is used up and the loop is still waiting, the operator
    interrupted it and [run] returned, or an exception left [run]. *)
Inductive status : Set :=
  | Waiting
  | Returned
  | Crashed (e : exn).

Fixpoint tracking_loop (config : CameraConfig) (script : list datagram)
  : list output * status :=
  match script with
  | [] => ([], Waiting)
  | Interrupt :: _ =>
      ([Printed StoppingBallTracking; Sent disconnected], Returned)
  | d :: rest =>
      let (printed, ball_pos) := receive_ssl_frame d in
      match tick config ball_pos with
      | Raise e => (printed, Crashed e)
      | Ok msgs =>
          let (out, st) := tracking_loop config rest in
          (printed ++ map Sent msgs ++ out, st)
      end
  end.

Definition run (config : CameraConfig) (script : list datagram)
  : list output * status :=
  let (out, st) := tracking_loop config script in
  (Printed StartingBallTracking :: out, st).

(** ** The sink and the operator *)

(** What a call of [send_message] does.  The message goes out and the
    call returns; or the call raises an exception derived from
    [Exception] (the message cannot be built, the socket refuses it) and
    nothing goes out; or the operator's [KeyboardInterrupt] arrives
    before the message goes out.  An interrupt that arrives once a
    message has gone out, between two calls, in the transforms or in the
    pause that ends a tick is seen as the interrupt of the next call or
    of the next reception: nothing is sent or printed in between. *)
Inductive delivery : Set :=
  | Delivered
  | Refused
  | Cut.

(** The sink and the operator as [run] meets them: what happens at each
    call of [send_message], by the number of calls made before it. *)
Definition sink : Set := nat -> delivery.

(** The sink that takes every message. *)
Definition accepting : sink := fun _ => Delivered.

(** How a sequence of calls ended. *)
Inductive sending : Set :=
  | AllSent
  | SendRefused
  | SendCut.

(** The calls of [send_message] on the messages in turn, from call
    number [n] on: the messages that went out, the number of calls made
    so far, and how the sequence ended.  The first call that does not
    deliver ends it. *)
Fixpoint send_messages (s : sink) (n : nat) (msgs : list osc_message)
  : list osc_message * nat * sending :=
  match msgs with
  | [] => ([], n, AllSent)
  | m :: rest =>
      match s n with
      | Delivered =>
          let '(out, n', how) := send_messages s (S n) rest in
          (m :: out, n', how)
      | Refused => ([], S n, SendRefused)
      | Cut => ([], S n, SendCut)
      end
  end.

(** How [run] ends over a finite script: the script is used up and the
    loop waits at the next reception; the interrupt was handled and
    [run] returned; an exception of the transforms, or of the sink, left
    [run]; or a second interrupt arrived in the handler and left
    [run]. *)
Inductive ending : Set :=
  | Receiving
  | Stopped
  | TransformError (e : exn)
  | SinkError
  | Interrupted.

(** The handler of [KeyboardInterrupt]: a line, then the disconnect
    notification through the same sink.  A second interrupt is taken at
    that call. *)
Definition stop (s : sink) (n : nat) : list output * ending :=
  match s n with
  | Delivered => ([Printed StoppingBallTracking; Sent disconnected], Stopped)
  | Refused => ([Printed StoppingBallTracking], SinkError)
  | Cut => ([Printed StoppingBallTracking], Interrupted)
  end.

(** The loop of [run] from call number [n] on.  The [try] block covers
    the whole tick and catches [KeyboardInterrupt] alone.  Printing is
    taken to succeed. *)
Fixpoint tracking_loop_on (s : sink) (n : nat) (config : CameraConfig)
    (script : list datagram) : list output * ending :=
  match script with
  | [] => ([], Receiving)
  | Interrupt :: _ => stop s n
  | d :: rest =>
      let (printed, ball_pos) := receive_ssl_frame d in
      match tick config ball_pos with
      | Raise e => (printed, TransformError e)
      | Ok msgs =>
          let '(out, n', how) := send_messages s n msgs in
          match how with
          | AllSent =>
              let (more, e) := tracking_loop_on s n' config rest in
              (printed ++ map Sent out ++ more, e)
          | SendRefused => (printed ++ map Sent out, SinkError)
          | SendCut =>
              let (more, e) := stop s n' in
              (printed ++ map Sent out ++ more, e)
          end
      end
  end.

Definition run_on (s : sink) (config : CameraConfig)
    (script : list datagram) : list output * ending :=
  let (out, e) := tracking_loop_on s 0 config script in
  (Printed StartingBallTracking :: out, e).

(** The endings of the loop in front of the sink that takes every
    message, among those of the loop in front of any sink. *)
Definition ending_of (st : status) : ending :=
  match st with
  | Waiting => Receiving
  | Returned => Stopped
  | Crashed e => TransformError e
  end.

(** ** Configuration persistence *)

(** A JSON number as [json.load] returns it. *)
Inductive jvalue : Set :=
  | JInt (z : Z)
  | JFloat (f : float).

(** [vars(self.config)]: the attribute dictionary of the configuration
    object, keyed by attribute name. *)
Definition vars (config : CameraConfig) : gmap string jvalue :=
  <["field_width" := JFloat (field_width config)]>
  (<["field_height" := JFloat (field_height config)]>
  (<["pan_scale" := JFloat (pan_scale config)]>
  (<["tilt_scale" := JFloat (tilt_scale config)]>
  (<["min_zoom" := JInt (min_zoom config)]>
  (<["max_zoom" := JInt (max_zoom config)]>
  (<["min_distance" := JFloat (min_distance config)]>
  (<["max_distance" := JFloat (max_distance config)]> ∅))))))).

(** Reading an attribute where the program uses a float: an integer is
    used through its conversion. *)
Definition as_float (v : jvalue) : option float :=
  match v with
  | JFloat f => Some f
  | JInt z => match float_of_int z with Ok f => Some f | Raise _ => None end
  end.

Definition as_int (v : jvalue) : option Z :=
  match v with
  | JInt z => Some z
  | JFloat _ => None
  end.

(** The typed reading of an attribute dictionary. *)
Definition config_of (attrs : gmap string jvalue) : option CameraConfig :=
  fw ← attrs !! "field_width" ≫= as_float;
  fh ← attrs !! "field_height" ≫= as_float;
  ps ← attrs !! "pan_scale" ≫= as_float;
  ts ← attrs !! "tilt_scale" ≫= as_float;
  zmin ← attrs !! "min_zoom" ≫= as_int;
  zmax ← attrs !! "max_zoom" ≫= as_int;
  dmin ← attrs !! "min_distance" ≫= as_float;
  dmax ← attrs !! "max_distance" ≫= as_float;
  Some (mkConfig fw fh ps ts zmin zmax dmin dmax).

(** The files: a name is bound to the JSON object stored under it.
    [json.dump] and [json.load] are taken to be inverse on objects of
    numbers. *)
Abbreviation files := (gmap string (gmap string jvalue)).

Definition default_filename : string := "camera_config.json".

Definition save_calibration (attrs : gmap string jvalue) (filename : string)
    (fs : files) : files :=
  <[filename := attrs]> fs.

(** [load_calibration]: [setattr] for every item of the stored object;
    a missing file is reported and changes nothing. *)
Definition load_calibration (fs : files) (filename : string)
    (attrs : gmap string jvalue) : gmap string jvalue * list output :=
  match fs !! filename with
  | Some config_data =>
      (map_fold (fun key value obj => <[key := value]> obj) attrs config_data,
       [])
  | None => (attrs, [Printed (CalibrationFileNotFound filename)])
  end.

(** ** Calibration mode *)

Definition lower_ascii (c : ascii) : ascii :=
  let n := nat_of_ascii c in
  if ((65 <=? n) && (n <=? 90))%nat then ascii_of_nat (n + 32) else c.

Fixpoint lower (s : string) : string :=
  match s with
  | EmptyString => EmptyString
  | String c s' => String (lower_ascii c) (lower s')
  end.

Definition set_pan_scale (config : CameraConfig) (v : float) : CameraConfig :=
  mkConfig (field_width config) (field_height config) v (tilt_scale config)
           (min_zoom config) (max_zoom config)
           (min_distance config) (max_distance config).

Definition set_tilt_scale (config : CameraConfig) (v : float) : CameraConfig :=
  mkConfig (field_width config) (field_height config) (pan_scale config) v
           (min_zoom config) (max_zoom config)
           (min_distance config) (max_distance config).

(** One command other than [exit]: the new configuration, the new files
    and what the branch prints. *)
Definition calibration_command (config : CameraConfig) (fs : files)
    (cmd : string) : CameraConfig * files * list output :=
  if String.eqb cmd "pan+" then
    (set_pan_scale config (fmul (pan_scale config) (dec 11 10)), fs, [])
  else if String.eqb cmd "pan-" then
    (set_pan_scale config (fmul (pan_scale config) (dec 9 10)), fs, [])
  else if String.eqb cmd "tilt+" then
    (set_tilt_scale config (fmul (tilt_scale config) (dec 11 10)), fs, [])
  else if String.eqb cmd "tilt-" then
    (set_tilt_scale config (fmul (tilt_scale config) (dec 9 10)), fs, [])
  else if String.eqb cmd "save" then
    (config, save_calibration (vars config) default_filename fs,
     [Printed CalibrationSaved])
  else
    (config, fs, [Printed UnknownCommand]).

(** The prompt loop over the lines the operator types; the boolean tells
    whether [exit] was reached. *)
Fixpoint calibration_loop (config : CameraConfig) (fs : files)
    (inputs : list string) : CameraConfig * files * list output * bool :=
  match inputs with
  | [] => (config, fs, [], false)
  | raw :: rest =>
      let cmd := lower raw in
      if String.eqb cmd "exit" then (config, fs, [], true)
      else
        let '(config1, fs1, printed) := calibration_command config fs cmd in
        let '(config2, fs2, out, exited) :=
          calibration_loop config1 fs1 rest in
        (config2, fs2,
         printed
           ++ Printed (CurrentScales (pan_scale config1) (tilt_scale config1))
           :: out,
         exited)
  end.

Definition calibration_mode (config : CameraConfig) (fs : files)
    (inputs : list string) : CameraConfig * files * list output * bool :=
  let '(config', fs', out, exited) := calibration_loop config fs inputs in
  (config', fs', Printed CalibrationBanner :: out, exited).

(** ** Conditions on a configuration *)

(** Half of a field extent, as [calculate_camera_angles] computes it. *)
Definition half_extent (extent : float) : float :=
  SFdiv prec emax extent (lit 2).

(** Neither half extent is a zero: the two normalising divisions of
    [calculate_camera_angles] have a nonzero divisor. *)
Definition nondegenerate_field (config : CameraConfig) : bool :=
  negb (is_zero (half_extent (field_width config)))
  && negb (is_zero (half_extent (field_height config))).

(** The arithmetic of the interpolation raises nothing: both integers
    convert to [float] and the distance range is not a zero. *)
Definition zoom_defined (config : CameraConfig) : bool :=
  returns (float_of_int (max_zoom config - min_zoom config))
  && returns (float_of_int (max_zoom config))
  && negb (is_zero (fsub (max_distance config) (min_distance config))).

Definition transforms_defined (config : CameraConfig) : bool :=
  nondegenerate_field config && zoom_defined config.

(** The pan (tilt) angle before clamping. *)
Definition raw_angle (pos extent limit scale : float) : float :=
  fmul (fmul (SFdiv prec emax pos (half_extent extent)) limit) scale.

(** Clamping to integer bounds, as the program writes it. *)
Definition clamp (lo hi : Z) (v : num) : num :=
  max (Int lo) (min (Int hi) v).

(** Truncation toward zero of the exact value [mant * 2 ^ e], stated on
    integers: [z] has the sign of the value and [|z| <= |value| < |z| + 1]. *)
Definition truncates (z : Z) (f : float) : Prop :=
  match f with
  | S754_zero _ => z = 0
  | S754_finite s m e =>
      if 0 <=? e then z = smant s m * 2 ^ e
      else 0 <= z * smant s m
           /\ Z.abs z * 2 ^ (- e) <= Zpos m < (Z.abs z + 1) * 2 ^ (- e)
  | _ => False
  end.

(** A configuration whose field width is zero; everything else is the
    default. *)
Definition zero_width_config : CameraConfig :=
  mkConfig (lit 0) (lit 4000) (lit 1) (lit 1) 0 100 (lit 1000) (lit 5000).



(** The sink that delivers every call but number [k], where it does
    [what]. *)
Definition failing_at (k : nat) (what : delivery) : sink :=
  fun n => if Nat.eqb n k then what else Delivered.

(** The configuration after the operator typed the given lines. *)
Definition calibrated (config : CameraConfig) (inputs : list string)
  : CameraConfig :=
  fst (fst (fst (calibration_mode config ∅ inputs))).

(** The commands the prompt recognises besides [exit]. *)
Definition known_commands : list string :=
  ["pan+"; "pan-"; "tilt+"; "tilt-"; "save"].

(** ** Rounding to binary64, in closed form *)

(** The location of the rational [N / D] between the integers [N / D]
    and [N / D + 1]: exact, or below, at, or above the midpoint. *)
Definition loc_of (N D : Z) : location :=
  if N mod D =? 0 then loc_Exact else loc_Inexact (2 * (N mod D) ?= D).

(** A shift record holds the quotient and the location of [N / D]. *)
Definition represents (mrs : shr_record) (N D : Z) : Prop :=
  shr_m mrs = N / D /\ loc_of_shr_record mrs = loc_of N D.

(** The integer nearest to [N / D], ties to even. *)
Definition rne (N D : Z) : Z := round_nearest_even (N / D) (loc_of N D).

(** The float with integer mantissa [m <= 2 ^ 53] at exponent [e]. *)
Definition normal_form (s : bool) (m e : Z) : float :=
  if m <=? 0 then S754_zero s
  else if m <? 2 ^ 53 then
    if e <=? 971 then S754_finite s (Z.to_pos m) e else S754_infinity s
  else
    if e + 1 <=? 971 then S754_finite s (Z.to_pos (2 ^ 52)) (e + 1)
    else S754_infinity s.

(** An exponent below that of every exact result the program rounds:
    values are written [N / D * 2 ^ E0]. *)
Definition E0 : Z := -2200.

(** The exponent of the binary64 neighbours of [N / D * 2 ^ E0]. *)
Definition rexp (N D : Z) : Z := fexp prec emax (Zdigits2 (N / D) + E0).

(** Rounding [N / D * 2 ^ E0] to nearest, ties to even. *)
Definition RND (s : bool) (N D : Z) : float :=
  normal_form s (rne N (D * 2 ^ (rexp N D - E0))) (rexp N D).

(** ** Exact values of floats *)

(** The value of a finite float in units of [2 ^ -1074], the smallest
    positive binary64 number; every well-formed finite float is an
    integer number of these units. *)
Definition Zof (f : float) : Z :=
  match f with
  | S754_finite s m e => cond_Zopp s (Zpos m * 2 ^ (e + 1074))
  | _ => 0
  end.

(** A bound above every finite value, standing for the infinities. *)
Definition BIG : Z := 2 ^ 2200.

(** The value extended to the infinities. *)
Definition Vof (f : float) : Z :=
  match f with
  | S754_infinity false => BIG
  | S754_infinity true => - BIG
  | _ => Zof f
  end.

(** Rounding of the signed value [N / D * 2 ^ E0]. *)
Definition RNDq (N D : Z) : float :=
  if 0 <=? N then RND false N D else RND true (- N) D.

(** Floats whose sign bit is clear, NaN apart. *)
Definition nonneg (f : float) : bool :=
  match f with
  | S754_zero false | S754_finite false _ _ | S754_infinity false => true
  | _ => false
  end.

(** Floats that are a zero or finite. *)
Definition finite_or_zero (f : float) : bool :=
  match f with
  | S754_zero _ | S754_finite _ _ _ => true
  | _ => false
  end.

(** ** Valid configurations *)

(** A well-formed, finite, strictly positive float. *)
Definition is_positive (f : float) : bool :=
  match f with
  | S754_finite false _ _ => wf f
  | _ => false
  end.

(** The constraints of the data model on the zoom parameters:
    [0 < min_distance < max_distance] and [min_zoom <= max_zoom]. *)
Definition valid_zoom_config (config : CameraConfig) : bool :=
  is_positive (min_distance config)
  && is_positive (max_distance config)
  && lt (Float (min_distance config)) (Float (max_distance config))
  && (min_zoom config <=? max_zoom config).

(** The constraints of the data model on a configuration: positive
    field extents and scale factors, [0 <= min_zoom <= max_zoom] and
    [0 < min_distance < max_distance]. *)
Definition valid_config (config : CameraConfig) : bool :=
  is_positive (field_width config)
  && is_positive (field_height config)
  && is_positive (pan_scale config)
  && is_positive (tilt_scale config)
  && (0 <=? min_zoom config)
  && valid_zoom_config config.

(** The interpolated zoom before clamping, where the integer operands
    have been converted. *)
Definition raw_zoom (config : CameraConfig) (zoom_range_f max_zoom_f : float)
    (distance : float) : float :=
  fsub max_zoom_f
    (SFdiv prec emax
       (fmul zoom_range_f (fsub distance (min_distance config)))
       (fsub (max_distance config) (min_distance config))).

(** A configuration whose zoom bounds are swapped. *)
Definition swapped_zoom_config : CameraConfig :=
  mkConfig (lit 6000) (lit 4000) (lit 1) (lit 1) 100 0 (lit 1000) (lit 5000).

(** A configuration whose maximal zoom does not convert to float. *)
Definition huge_zoom_config : CameraConfig :=
  mkConfig (lit 6000) (lit 4000) (lit 1) (lit 1) 0 (2 ^ 1024)
           (lit 1000) (lit 5000).

(** ** The messages of a run *)

(** The OSC messages among the outputs, in the order they were sent. *)
Fixpoint sent (out : list output) : list osc_message :=
  match out with
  | [] => []
  | Sent m :: rest => m :: sent rest
  | Printed _ :: rest => sent rest
  end.

(** The two messages of one camera command (pan, tilt, zoom). *)
Definition command_messages (c : Z * Z * Z) : list osc_message :=
  let '(p, t, z) := c in [set_gim_motor_degree p t; set_zoom z].

(** The number of datagrams of a script that deliver a frame with at
    least one ball. *)
Fixpoint ball_frames (script : list datagram) : nat :=
  match script with
  | [] => 0%nat
  | Frame (_ :: _) :: rest => S (ball_frames rest)
  | _ :: rest => ball_frames rest
  end.

(** A message of the tracking loop whose arguments are within the
    limits of the camera: the fixed speed 90 with a pan in [-129, 129]
    and a tilt in [-59, 59], or a zoom between the two zoom bounds. *)
Definition within_limits (config : CameraConfig) (m : osc_message) : Prop :=
  (exists p t,
     m = set_gim_motor_degree p t /\ -129 <= p <= 129 /\ -59 <= t <= 59)
  \/ (exists z,
        m = set_zoom z
        /\ Z.min (min_zoom config) (max_zoom config) <= z
           <= Z.max (min_zoom config) (max_zoom config)).

(** ** Reading the calibration prompt *)

(** The commands the prompt loop acts on: the lines typed before the
    first [exit], in lower case. *)
Fixpoint before_exit (inputs : list string) : list string :=
  match inputs with
  | [] => []
  | raw :: rest =>
      if String.eqb (lower raw) "exit" then []
      else lower raw :: before_exit rest
  end.

(** The factor a command multiplies the pan (tilt) scale by, if any. *)
Definition pan_factor (cmd : string) : option float :=
  if String.eqb cmd "pan+" then Some (dec 11 10)
  else if String.eqb cmd "pan-" then Some (dec 9 10)
  else None.

Definition tilt_factor (cmd : string) : option float :=
  if String.eqb cmd "tilt+" then Some (dec 11 10)
  else if String.eqb cmd "tilt-" then Some (dec 9 10)
  else None.

(** The scale after the factors have been applied in the order typed. *)
Definition scaled (scale : float) (factors : list float) : float :=
  fold_left fmul factors scale.

(** A scale factor above zero: positive and finite, or plus infinity. *)
Definition positive_scale (f : float) : bool :=
  match f with
  | S754_finite false _ _ => wf f
  | S754_infinity false => true
  | _ => false
  end.

(** The reports of the current scales among the lines printed. *)
Definition is_scale_report (o : output) : bool :=
  match o with
  | Printed (CurrentScales _ _) => true
  | _ => false
  end.

(** ** Start-up *)

Definition connected : osc_message :=
  mkMsg "/OBSBOT/WebCam/General/Connected" [1].
Definition select_device : osc_message :=
  mkMsg "/OBSBOT/WebCam/General/SelectDevice" [0].
Definition reset_gimbal : osc_message :=
  mkMsg "/OBSBOT/WebCam/General/ResetGimbal" [1].

(** [initialize_camera], called by the constructor: connect, select the
    first device, reset the gimbal. *)
Definition initialize_camera : list osc_message :=
  [connected; select_device; reset_gimbal].

(** The mode test of [main]:
    [len(sys.argv) > 1 and sys.argv[1] == "--calibrate"]. *)
Definition calibrate_requested (argv : list string) : bool :=
  match argv with
  | _ :: arg :: _ => String.eqb arg "--calibrate"
  | _ => false
  end.

(** How the mode that [main] entered ended. *)
Inductive session : Set :=
  | Tracked (st : status)
  | Calibrated (exited : bool).

#[global] Instance spec_float_eq_dec : EqDecision spec_float.
Proof. solve_decision. Defined.

#[global] Instance jvalue_eq_dec : EqDecision jvalue.
Proof. solve_decision. Defined.

(** [main]: construct the camera on the default configuration, load the
    calibration file, then enter the mode the command line asks for.
    The result is the files left, everything sent and printed, and how
    the mode ended.  The configuration object is read after the load as
    a [CameraConfig]; [None] stands for a stored record that names an
    attribute that is not a field or gives a field a number of the other
    kind, which this development does not follow further. *)
Definition main (argv : list string) (fs : files) (inputs : list string)
    (script : list datagram) : option (files * list output * session) :=
  let '(attrs, notice) :=
    load_calibration fs default_filename (vars default_config) in
  match config_of attrs with
  | Some config =>
      if bool_decide (vars config = attrs) then
        if calibrate_requested argv then
          let '(_, fs', out, exited) := calibration_mode config fs inputs in
          Some (fs', map Sent initialize_camera ++ notice ++ out,
                Calibrated exited)
        else
          let '(out, st) := run config script in
          Some (fs, map Sent initialize_camera ++ notice ++ out, Tracked st)
      else None
  | None => None
  end.

(** ** Whole-millimetre positions *)

(** The integers from [lo] to [hi]. *)
Definition millimetres (lo hi : Z) : list Z :=
  map (fun k => lo + Z.of_nat k) (seq 0 (Z.to_nat (hi - lo + 1))).

(** The integer sent for a clamped angle is the truncated exact
    quotient [limit * pos / half]. *)
Definition angle_is_exact (extent limit scale : float) (bound limit_z half : Z)
    (pos : Z) : bool :=
  match int (clamp (- bound) bound
               (Float (raw_angle (lit pos) extent limit scale))) with
  | Ok z => z =? Z.quot (limit_z * pos) half
  | Raise _ => false
  end.

(** A datagram that delivers a frame whose most confident ball passes
    the gate. *)
Definition passes (d : datagram) : bool :=
  match d with
  | Frame (b :: bs) => should_track (ball_confidence (most_confident b bs))
  | _ => false
  end.

(** * Properties *)

(** ** Comparisons *)

Lemma SFcompare_antisym (a b : float) :
  SFcompare b a = option_opp (SFcompare a b).
Proof.
  destruct a as [sa|sa| |sa ma ea], b as [sb|sb| |sb mb eb]; simpl;
    try reflexivity;
    try (destruct sa; reflexivity); try (destruct sb; reflexivity);
    try (destruct sa, sb; reflexivity).
  destruct sa, sb; simpl; try reflexivity;
    rewrite (Z.compare_antisym ea eb);
    destruct (ea ?= eb); simpl; try reflexivity;
    fold (Pos.compare ma mb); fold (Pos.compare mb ma);
    rewrite (Pos.compare_antisym ma mb);
    destruct (Pos.compare ma mb); reflexivity.
Qed.

Lemma num_compare_antisym (a b : num) :
  num_compare b a = option_opp (num_compare a b).
Proof.
  destruct a as [x|x], b as [y|y]; simpl.
  - now rewrite (Z.compare_antisym x y).
  - reflexivity.
  - destruct (Zcompare_float y x) as [[]|]; reflexivity.
  - apply SFcompare_antisym.
Qed.

Lemma gt_lt (a b : num) : gt a b = lt b a.
Proof.
  unfold gt, lt. rewrite (num_compare_antisym a b).
  destruct (num_compare a b) as [[]|]; reflexivity.
Qed.

Lemma lt_le (a b : num) : lt a b = true -> le a b = true.
Proof.
  unfold lt, le. destruct (num_compare a b) as [[]|]; congruence.
Qed.

Lemma le_Int (x y : Z) : le (Int x) (Int y) = true <-> x <= y.
Proof.
  unfold le; simpl. destruct (Z.compare_spec x y); split; intros; try lia; congruence.
Qed.

(** ** Clamping *)

(** The three outcomes of [clamp]. *)
Lemma clamp_cases (lo hi : Z) (v : num) :
  (clamp lo hi v = v /\ lt v (Int hi) = true /\ gt v (Int lo) = true)
  \/ clamp lo hi v = Int lo
  \/ clamp lo hi v = Int hi.
Proof.
  unfold clamp, max, min.
  destruct (lt v (Int hi)) eqn:Hlt.
  - destruct (gt v (Int lo)) eqn:Hgt; auto.
  - destruct (gt (Int hi) (Int lo)); auto.
Qed.

Lemma clamp_in_range (lo hi : Z) (v : num) :
  lo <= hi ->
  le (Int lo) (clamp lo hi v) = true /\ le (clamp lo hi v) (Int hi) = true.
Proof.
  intros Hle.
  destruct (clamp_cases lo hi v) as [(-> & Hlt & Hgt)|[-> | ->]].
  - split; [|now apply lt_le]. apply lt_le. now rewrite <- gt_lt.
  - split; apply le_Int; lia.
  - split; apply le_Int; lia.
Qed.

(** ** Truncation *)

Lemma int_of_float_truncates (f : float) (z : Z) :
  int_of_float f = Ok z -> truncates z f.
Proof.
  destruct f as [s|s| |s m e]; simpl; try discriminate.
  - now intros [= <-].
  - intros [= <-]. destruct (0 <=? e) eqn:He; [reflexivity|].
    apply Z.leb_gt in He.
    assert (Hp : 0 < 2 ^ (- e)) by (apply Z.pow_pos_nonneg; lia).
    set (k := 2 ^ (- e)) in *.
    destruct s; unfold smant; simpl.
    + change (Z.neg m) with (- Z.pos m). rewrite Z.quot_opp_l by lia.
      pose proof (Z.quot_rem' (Z.pos m) k) as Hqr.
      pose proof (Z.rem_bound_pos (Z.pos m) k ltac:(lia) Hp) as Hr.
      assert (0 <= Z.pos m ÷ k) by (apply Z.quot_pos; lia).
      rewrite Z.abs_opp, Z.abs_eq by lia. nia.
    + pose proof (Z.quot_rem' (Z.pos m) k) as Hqr.
      pose proof (Z.rem_bound_pos (Z.pos m) k ltac:(lia) Hp) as Hr.
      assert (0 <= Z.pos m ÷ k) by (apply Z.quot_pos; lia).
      rewrite Z.abs_eq by lia. nia.
Qed.

(** A float strictly between two integers converts to an integer
    between them. *)
Lemma int_of_float_between (lo hi : Z) (f : float) :
  gt (Float f) (Int lo) = true -> lt (Float f) (Int hi) = true ->
  exists z, int_of_float f = Ok z /\ lo <= z <= hi.
Proof.
  unfold gt, lt; simpl.
  destruct f as [s|s| |s m e]; simpl; try discriminate.
  - intros Hlo Hhi. exists 0. split; [reflexivity|].
    rewrite (Z.compare_antisym 0 lo) in Hlo. rewrite (Z.compare_antisym 0 hi) in Hhi.
    destruct (Z.compare_spec 0 lo), (Z.compare_spec 0 hi); simpl in *; try discriminate; lia.
  - destruct s; discriminate.
  - intros Hlo Hhi. eexists; split; [reflexivity|].
    destruct (0 <=? e) eqn:He.
    + destruct (Z.compare_spec lo (smant s m * 2 ^ e)),
               (Z.compare_spec hi (smant s m * 2 ^ e)); simpl in *; try discriminate; lia.
    + apply Z.leb_gt in He.
      assert (Hp : 0 < 2 ^ (- e)) by (apply Z.pow_pos_nonneg; lia).
      set (k := 2 ^ (- e)) in *.
      assert (Hlo' : lo * k < smant s m)
        by (destruct (Z.compare_spec (lo * k) (smant s m)); simpl in *; try discriminate; lia).
      assert (Hhi' : smant s m < hi * k)
        by (destruct (Z.compare_spec (hi * k) (smant s m)); simpl in *; try discriminate; lia).
      pose proof (Z.quot_rem' (smant s m) k) as Hqr.
      pose proof (Z.rem_bound_abs (smant s m) k ltac:(lia)) as Hr.
      rewrite (Z.abs_eq k) in Hr by lia.
      split; nia.
Qed.

(** [int] of a clamped value raises nothing, and the integer lies
    between the bounds when they are ordered. *)
Lemma int_clamp (lo hi : Z) (v : num) :
  exists z, int (clamp lo hi v) = Ok z /\ (lo <= hi -> lo <= z <= hi).
Proof.
  destruct (clamp_cases lo hi v) as [(-> & Hlt & Hgt)|[-> | ->]].
  - destruct v as [z|f].
    + exists z. split; [reflexivity|].
      unfold lt, gt in *; simpl in *.
      destruct (Z.compare_spec z hi), (Z.compare_spec z lo); try discriminate; lia.
    + destruct (int_of_float_between lo hi f Hgt Hlt) as (z & Hz & Hb).
      exists z. now split.
  - exists lo. split; [reflexivity|lia].
  - exists hi. split; [reflexivity|lia].
Qed.

(** ** The square root never sees a negative argument *)

Lemma binary_round_aux_not_negative (m e : Z) (l : location) :
  is_negative (binary_round_aux prec emax false m e l) = false.
Proof.
  unfold binary_round_aux.
  destruct (shr_fexp prec emax m e l) as [mrs e'].
  destruct (shr_fexp prec emax _ e' loc_Exact) as [mrs' e''].
  destruct (shr_m mrs'); try reflexivity.
  destruct (e'' <=? emax - prec); reflexivity.
Qed.

Lemma fmul_self_not_negative (x : float) : is_negative (fmul x x) = false.
Proof.
  destruct x as [s|s| |s m e]; simpl; try reflexivity;
    try (destruct s; reflexivity).
  replace (xorb s s) with false by (destruct s; reflexivity).
  apply binary_round_aux_not_negative.
Qed.

Lemma fadd_not_negative (a b : float) :
  is_negative a = false -> is_negative b = false ->
  is_negative (fadd a b) = false.
Proof.
  destruct a as [sa|sa| |sa ma ea], b as [sb|sb| |sb mb eb]; simpl;
    intros Ha Hb; try reflexivity; try assumption;
    try (destruct sa, sb; simpl in *; congruence).
  destruct sa; [discriminate|]. destruct sb; [discriminate|].
  simpl. unfold binary_round.
  destruct (shl_align _ _ _) as [mz ez].
  apply binary_round_aux_not_negative.
Qed.

Lemma distance_of_returns (x y : float) :
  distance_of x y = Ok (fsqrt (fadd (fmul x x) (fmul y y))).
Proof.
  unfold distance_of, math_sqrt.
  now rewrite fadd_not_negative by apply fmul_self_not_negative.
Qed.

(** ** Totality of the transforms *)

Lemma fdiv_two (f : float) : fdiv f (lit 2) = Ok (half_extent f).
Proof. reflexivity. Qed.

Lemma calculate_camera_angles_defined (config : CameraConfig) (x y : float) :
  nondegenerate_field config = true ->
  calculate_camera_angles config x y =
  Ok (clamp (-129) 129
        (Float (raw_angle x (field_width config) (lit 129) (pan_scale config))),
      clamp (-59) 59
        (Float (raw_angle y (field_height config) (lit 59) (tilt_scale config)))).
Proof.
  unfold nondegenerate_field. intros [Hw Hh]%andb_prop.
  apply negb_true_iff in Hw, Hh.
  unfold calculate_camera_angles. rewrite !fdiv_two. cbn [bind].
  unfold fdiv. rewrite Hw. cbn [bind]. rewrite Hh. reflexivity.
Qed.

Lemma interpolate_zoom_defined (config : CameraConfig) (d : float) :
  zoom_defined config = true ->
  exists z, interpolate_zoom config d = Ok z
            /\ (min_zoom config <= max_zoom config ->
                min_zoom config <= z <= max_zoom config).
Proof.
  unfold zoom_defined. intros [[Hr Hm]%andb_prop Hd]%andb_prop.
  apply negb_true_iff in Hd.
  unfold interpolate_zoom.
  destruct (float_of_int (max_zoom config - min_zoom config)) as [zr|]; [|discriminate].
  cbn [bind]. unfold fdiv at 1. rewrite Hd. cbn [bind].
  destruct (float_of_int (max_zoom config)) as [mz|]; [|discriminate].
  cbn [bind]. apply int_clamp.
Qed.

Lemma zoom_of_distance_defined (config : CameraConfig) (d : float) :
  zoom_defined config = true ->
  exists z, zoom_of_distance config d = Ok z
            /\ (min_zoom config <= max_zoom config ->
                min_zoom config <= z <= max_zoom config).
Proof.
  intros Hc. unfold zoom_of_distance.
  destruct (le _ _).
  - eexists; split; [reflexivity|lia].
  - destruct (ge _ _).
    + eexists; split; [reflexivity|lia].
    + now apply interpolate_zoom_defined.
Qed.

Lemma calculate_zoom_defined (config : CameraConfig) (x y : float) :
  zoom_defined config = true ->
  exists z, calculate_zoom config x y = Ok z
            /\ (min_zoom config <= max_zoom config ->
                min_zoom config <= z <= max_zoom config).
Proof.
  intros Hc. unfold calculate_zoom. rewrite distance_of_returns. cbn [bind].
  now apply zoom_of_distance_defined.
Qed.

(** The messages of a tick that tracks. *)
Lemma move_camera_clamped (lo1 hi1 lo2 hi2 : Z) (v1 v2 : num) (zoom : Z) :
  exists p t,
    int (clamp lo1 hi1 v1) = Ok p /\ int (clamp lo2 hi2 v2) = Ok t
    /\ move_camera (clamp lo1 hi1 v1) (clamp lo2 hi2 v2) zoom
       = Ok [set_gim_motor_degree p t; set_zoom zoom].
Proof.
  destruct (int_clamp lo1 hi1 v1) as (p & Hp & _).
  destruct (int_clamp lo2 hi2 v2) as (t & Ht & _).
  exists p, t. unfold move_camera. rewrite Hp, Ht. now repeat split.
Qed.

(** Whatever [calculate_camera_angles] returns is a pair of clamped
    values. *)
Lemma calculate_camera_angles_shape (config : CameraConfig) (x y : float)
    (pan tilt : num) :
  calculate_camera_angles config x y = Ok (pan, tilt) ->
  exists v w, pan = clamp (-129) 129 v /\ tilt = clamp (-59) 59 w.
Proof.
  unfold calculate_camera_angles.
  destruct (fdiv (field_width config) (lit 2)) as [hw|]; [|discriminate].
  cbn [bind]. destruct (fdiv x hw) as [rx|]; [|discriminate].
  cbn [bind]. destruct (fdiv (field_height config) (lit 2)) as [hh|]; [|discriminate].
  cbn [bind]. destruct (fdiv y hh) as [ry|]; [|discriminate].
  cbn [bind]. intros [= <- <-]. eauto.
Qed.

Lemma tick_tracks (config : CameraConfig) (x y confidence : float)
    (pan tilt : num) (zoom : Z) :
  should_track confidence = true ->
  calculate_camera_angles config x y = Ok (pan, tilt) ->
  calculate_zoom config x y = Ok zoom ->
  exists p t,
    int pan = Ok p /\ int tilt = Ok t
    /\ tick config (Some (x, y, confidence))
       = Ok [set_gim_motor_degree p t; set_zoom zoom].
Proof.
  intros Hc Ha Hz. unfold tick. rewrite Hc, Ha, Hz. cbn [bind fst snd].
  destruct (calculate_camera_angles_shape _ _ _ _ _ Ha) as (v & w & -> & ->).
  apply move_camera_clamped.
Qed.


(** A tick hands the sink nothing or the two messages of one command. *)
Lemma tick_messages (config : CameraConfig)
    (ball_pos : option (float * float * float)) (msgs : list osc_message) :
  tick config ball_pos = Ok msgs ->
  msgs = [] \/ exists p t z, msgs = [set_gim_motor_degree p t; set_zoom z].
Proof.
  destruct ball_pos as [[[x y] c]|]; simpl; [|intros [= <-]; now left].
  destruct (should_track c); [|intros [= <-]; now left].
  destruct (calculate_camera_angles config x y) as [[pan tilt]|]; [|discriminate].
  cbn [bind]. destruct (calculate_zoom config x y) as [z|]; [|discriminate].
  cbn [bind fst snd]. unfold move_camera.
  destruct (int pan) as [p|]; [|discriminate]. cbn [bind].
  destruct (int tilt) as [t|]; [|discriminate]. cbn [bind].
  intros [= <-]. right. eauto.
Qed.

(** Three inputs on which the float arithmetic shows: a NaN coordinate
    falls through both threshold tests and is clamped to [max_zoom]; a
    zoom bound beyond the float range raises in the interpolation; a
    field width so small that its half underflows to zero raises in the
    normalisation. *)
Example zoom_of_nan_position :
  calculate_zoom default_config S754_nan (lit 0) = Ok 100.
Proof. vm_compute. reflexivity. Qed.

Example zoom_bound_overflow :
  calculate_zoom huge_zoom_config (lit 3000) (lit 0) = Raise OverflowError.
Proof. vm_compute. reflexivity. Qed.

Example half_width_underflow :
  calculate_camera_angles
    (mkConfig (S754_finite false 1 (-1074)) (lit 4000) (lit 1) (lit 1)
              0 100 (lit 1000) (lit 5000))
    (lit 1) (lit 0)
  = Raise ZeroDivisionError.
Proof. vm_compute. reflexivity. Qed.

(** ** The tracking loop *)



(** One iteration on a datagram that is not the interrupt. *)
Lemma tracking_loop_step (config : CameraConfig) (d : datagram)
    (rest : list datagram) :
  d <> Interrupt ->
  tracking_loop config (d :: rest) =
  match tick config (snd (receive_ssl_frame d)) with
  | Raise e => (fst (receive_ssl_frame d), Crashed e)
  | Ok msgs =>
      (fst (receive_ssl_frame d) ++ map Sent msgs
         ++ fst (tracking_loop config rest),
       snd (tracking_loop config rest))
  end.
Proof.
  intros Hd. destruct d; try congruence; cbn [tracking_loop];
    destruct (receive_ssl_frame _) as [printed pos]; cbn [fst snd];
    destruct (tick config pos); try reflexivity;
    now destruct (tracking_loop config rest).
Qed.

(** *** In front of any sink *)

Lemma send_messages_unfold (s : sink) (n : nat) (m : osc_message)
    (rest : list osc_message) :
  send_messages s n (m :: rest)
  = match s n with
    | Delivered =>
        (m :: fst (fst (send_messages s (S n) rest)),
         snd (fst (send_messages s (S n) rest)),
         snd (send_messages s (S n) rest))
    | Refused => ([], S n, SendRefused)
    | Cut => ([], S n, SendCut)
    end.
Proof.
  cbn [send_messages]. destruct (s n); try reflexivity.
  now destruct (send_messages s (S n) rest) as [[out n'] how].
Qed.


Lemma send_messages_accepting (s : sink) (n : nat) (msgs : list osc_message) :
  (forall k, s k = Delivered) ->
  fst (fst (send_messages s n msgs)) = msgs
  /\ snd (send_messages s n msgs) = AllSent.
Proof.
  intros Hs. revert n. induction msgs as [|m rest IH]; intros n.
  - now split.
  - rewrite send_messages_unfold, Hs. cbn [fst snd].
    destruct (IH (S n)) as [-> ->]. now split.
Qed.

(** One iteration on a datagram that is not the interrupt. *)
Lemma tracking_loop_on_step (s : sink) (n : nat) (config : CameraConfig)
    (d : datagram) (rest : list datagram) :
  d <> Interrupt ->
  tracking_loop_on s n config (d :: rest) =
  match tick config (snd (receive_ssl_frame d)) with
  | Raise e => (fst (receive_ssl_frame d), TransformError e)
  | Ok msgs =>
      let calls := send_messages s n msgs in
      let went := fst (receive_ssl_frame d) ++ map Sent (fst (fst calls)) in
      match snd calls with
      | AllSent =>
          (went ++ fst (tracking_loop_on s (snd (fst calls)) config rest),
           snd (tracking_loop_on s (snd (fst calls)) config rest))
      | SendRefused => (went, SinkError)
      | SendCut =>
          (went ++ fst (stop s (snd (fst calls))),
           snd (stop s (snd (fst calls))))
      end
  end.
Proof.
  intros Hd. destruct d; try congruence; cbn [tracking_loop_on];
    destruct (receive_ssl_frame _) as [printed pos]; cbn [fst snd];
    destruct (tick config pos) as [msgs|e]; try reflexivity;
    destruct (send_messages s n msgs) as [[out n'] how]; cbn [fst snd];
    destruct how; try reflexivity;
    try (destruct (tracking_loop_on s n' config rest);
         now rewrite <- app_assoc);
    destruct (stop s n'); now rewrite <- app_assoc.
Qed.





Lemma run_on_unfold (s : sink) (config : CameraConfig)
    (script : list datagram) :
  run_on s config script
  = (Printed StartingBallTracking :: fst (tracking_loop_on s 0 config script),
     snd (tracking_loop_on s 0 config script)).
Proof. unfold run_on. now destruct (tracking_loop_on s 0 config script). Qed.

(** In front of a sink that takes every message the loop is
    [tracking_loop]. *)
Lemma tracking_loop_on_accepting (s : sink) (config : CameraConfig)
    (script : list datagram) (n : nat) :
  (forall k, s k = Delivered) ->
  tracking_loop_on s n config script
  = (fst (tracking_loop config script),
     ending_of (snd (tracking_loop config script))).
Proof.
  intros Hs. revert n. induction script as [|d rest IH]; intros n.
  - reflexivity.
  - assert (Hd : d = Interrupt \/ d <> Interrupt)
      by (destruct d; [right|right|left]; congruence).
    destruct Hd as [->|Hd].
    + cbn [tracking_loop_on tracking_loop]. unfold stop. now rewrite Hs.
    + rewrite (tracking_loop_on_step s n config d rest Hd).
      rewrite (tracking_loop_step config d rest Hd).
      destruct (tick config (snd (receive_ssl_frame d))) as [msgs|e];
        [|reflexivity].
      cbn zeta.
      destruct (send_messages_accepting s n msgs Hs) as [-> ->].
      rewrite IH. cbn [fst snd]. now rewrite <- app_assoc.
Qed.

Lemma run_unfold (config : CameraConfig) (script : list datagram) :
  run config script
  = (Printed StartingBallTracking :: fst (tracking_loop config script),
     snd (tracking_loop config script)).
Proof. unfold run. now destruct (tracking_loop config script). Qed.

Lemma run_on_accepting (config : CameraConfig) (script : list datagram) :
  run_on accepting config script
  = (fst (run config script), ending_of (snd (run config script))).
Proof.
  rewrite run_on_unfold, run_unfold.
  now rewrite (tracking_loop_on_accepting accepting) by reflexivity.
Qed.

(** ** Configuration persistence *)

Lemma load_calibration_found (fs : files) (filename : string)
    (attrs data : gmap string jvalue) :
  fs !! filename = Some data ->
  load_calibration fs filename attrs = (data ∪ attrs, []).
Proof.
  intros Hf. unfold load_calibration. rewrite Hf. f_equal.
  apply (map_fold_weak_ind (fun r m => r = m ∪ attrs)).
  - now rewrite (left_id_L ∅ (∪)).
  - intros i x m r _ ->. now rewrite insert_union_l.
Qed.

Lemma vars_lookup_None (config config' : CameraConfig) (key : string) :
  vars config !! key = None -> vars config' !! key = None.
Proof.
  unfold vars. rewrite !lookup_insert. repeat case_decide; congruence.
Qed.

Lemma vars_union (config config' : CameraConfig) :
  vars config ∪ vars config' = vars config.
Proof.
  apply map_eq. intros key. rewrite lookup_union.
  destruct (vars config !! key) eqn:Hk.
  - now destruct (vars config' !! key).
  - now rewrite (vars_lookup_None config config' key Hk).
Qed.

Lemma config_of_vars (config : CameraConfig) :
  config_of (vars config) = Some config.
Proof.
  unfold config_of, vars. simplify_map_eq. now destruct config.
Qed.

(** A stored record that names one attribute changes that attribute
    alone. *)
Example load_partial_record :
  let stored : gmap string jvalue := {[ "pan_scale" := JFloat (dec 121 100) ]} in
  let fs : files := {[ default_filename := stored ]} in
  config_of (fst (load_calibration fs default_filename (vars default_config)))
  = Some (set_pan_scale default_config (dec 121 100)).
Proof. vm_compute. reflexivity. Qed.

(** * Binary64 rounding *)

(** ** Digits and exponents *)

Lemma digits2_pos_log2 (m : positive) :
  Zpos (digits2_pos m) = Z.log2 (Zpos m) + 1.
Proof.
  assert (Hsize : forall p, digits2_pos p = Pos.size p)
    by (induction p; simpl; congruence).
  rewrite Hsize. destruct m; simpl; lia.
Qed.

Lemma digits2_pos_bounds (m : positive) :
  2 ^ (Zpos (digits2_pos m) - 1) <= Zpos m < 2 ^ Zpos (digits2_pos m).
Proof.
  rewrite digits2_pos_log2.
  replace (Z.log2 (Z.pos m) + 1 - 1) with (Z.log2 (Z.pos m)) by lia.
  apply Z.log2_spec. lia.
Qed.

Lemma Zdigits2_bounds (z : Z) :
  0 < z -> 2 ^ (Zdigits2 z - 1) <= z < 2 ^ Zdigits2 z.
Proof.
  destruct z as [|m|m]; try lia. intros _. apply digits2_pos_bounds.
Qed.

Lemma Zdigits2_pos (z : Z) : 0 < z -> 0 < Zdigits2 z.
Proof. destruct z; simpl; lia. Qed.

Lemma Zdigits2_unique (z d : Z) :
  2 ^ (d - 1) <= z < 2 ^ d -> 0 < z -> Zdigits2 z = d.
Proof.
  intros [Hlo Hhi] Hz.
  destruct (Zdigits2_bounds z Hz) as [Hlo' Hhi'].
  pose proof (Zdigits2_pos z Hz) as Hd.
  assert (0 < d).
  { destruct (Z_lt_le_dec 0 d) as [|Hn]; [assumption|].
    rewrite (Z.pow_neg_r 2 (d - 1)) in Hlo by lia.
    destruct (Z.eq_dec d 0) as [->|]; [simpl in Hhi; lia|].
    rewrite Z.pow_neg_r in Hhi by lia. lia. }
  assert (Zdigits2 z - 1 < d)
    by (apply (Z.pow_lt_mono_r_iff 2); lia).
  assert (d - 1 < Zdigits2 z)
    by (apply (Z.pow_lt_mono_r_iff 2); lia).
  lia.
Qed.

Lemma Zdigits2_mul_pow2 (z k : Z) :
  0 < z -> 0 <= k -> Zdigits2 (z * 2 ^ k) = Zdigits2 z + k.
Proof.
  intros Hz Hk. destruct (Zdigits2_bounds z Hz) as [Hlo Hhi].
  pose proof (Zdigits2_pos z Hz) as Hd.
  assert (Hp : 0 < 2 ^ k) by (apply Z.pow_pos_nonneg; lia).
  apply Zdigits2_unique; [|nia].
  replace (Zdigits2 z + k - 1) with (Zdigits2 z - 1 + k) by lia.
  rewrite !Z.pow_add_r by lia. nia.
Qed.

(** The exponent function of binary64. *)
Lemma fexp_eq (x : Z) : fexp prec emax x = Z.max (x - 53) (-1074).
Proof. reflexivity. Qed.


(** ** Shifting right with a location *)

Lemma represents_of_loc (N D : Z) :
  represents (shr_record_of_loc (N / D) (loc_of N D)) N D.
Proof.
  split; destruct (loc_of N D) as [|[]]; reflexivity.
Qed.

Lemma shr_1_represents (mrs : shr_record) (N D : Z) :
  0 <= N -> 0 < D -> represents mrs N D -> represents (shr_1 mrs) N (2 * D).
Proof.
  intros HN HD [Hm Hl].
  pose proof (Z.mod_pos_bound N D HD) as Hrem.
  assert (Hq : 0 <= N / D) by (apply Z.div_pos; lia).
  assert (Hdiv : N / (2 * D) = (N / D) / 2)
    by (rewrite (Z.mul_comm 2 D), Z.div_div; lia).
  assert (Hmod : N mod (2 * D) = N mod D + D * ((N / D) mod 2))
    by (rewrite (Z.mul_comm 2 D); apply Z.rem_mul_r; lia).
  unfold represents, loc_of in *. rewrite Hdiv, Hmod, <- Hm. clear Hdiv Hmod.
  rewrite <- Hm in Hq.
  destruct mrs as [m r s]. cbn [shr_m] in *.
  assert (Hl' : (r = false /\ s = false /\ N mod D = 0)
                \/ (r = false /\ s = true /\ 0 < 2 * (N mod D) < D)
                \/ (r = true /\ s = false /\ 2 * (N mod D) = D)
                \/ (r = true /\ s = true /\ D < 2 * (N mod D))).
  { destruct (Z.eqb_spec (N mod D) 0) as [H0|H0];
      [|destruct (Z.compare_spec (2 * (N mod D)) D)];
      destruct r, s; simpl in Hl; try discriminate Hl; intuition lia. }
  clear Hl.
  assert (Hshr : shr_1 (Build_shr_record m r s)
                 = Build_shr_record (m / 2) (Z.odd m) (r || s)).
  { destruct m as [|[p|p|]|p]; try lia; cbn [shr_1 Z.odd]; f_equal;
      try reflexivity.
    - apply (Z.div_unique (Z.pos p~1) 2 (Z.pos p) 1); lia.
    - apply (Z.div_unique (Z.pos p~0) 2 (Z.pos p) 0); lia. }
  rewrite Hshr. clear Hshr. cbn [shr_m loc_of_shr_record].
  split; [reflexivity|].
  pose proof (Z.mod_pos_bound m 2 ltac:(lia)) as Hm2.
  assert (Hodd : Z.odd m = negb (m mod 2 =? 0)).
  { rewrite Zmod_odd. destruct (Z.odd m); reflexivity. }
  rewrite Hodd.
  destruct (Z.eqb_spec (m mod 2) 0) as [He|He]; cbn [negb].
  - rewrite He, Z.mul_0_r, Z.add_0_r.
    destruct Hl' as [(-> & -> & H0)|[(-> & -> & H0)|[(-> & -> & H0)|(-> & -> & H0)]]];
      cbn [orb];
      (destruct (Z.eqb_spec (N mod D) 0); [try lia|]);
      try reflexivity;
      destruct (Z.compare_spec (2 * (N mod D)) (2 * D)); try lia; reflexivity.
  - assert (Hone : m mod 2 = 1) by lia. rewrite Hone, Z.mul_1_r.
    destruct Hl' as [(-> & -> & H0)|[(-> & -> & H0)|[(-> & -> & H0)|(-> & -> & H0)]]];
      cbn [orb];
      (destruct (Z.eqb_spec (N mod D + D) 0); [lia|]);
      destruct (Z.compare_spec (2 * (N mod D + D)) (2 * D)); try lia; reflexivity.
Qed.

Lemma pow2_xO (p : positive) : 2 ^ Z.pos p~0 = 2 ^ Z.pos p * 2 ^ Z.pos p.
Proof.
  replace (Z.pos p~0) with (Z.pos p + Z.pos p) by lia.
  apply Z.pow_add_r; lia.
Qed.

Lemma pow2_xI (p : positive) : 2 ^ Z.pos p~1 = 2 * (2 ^ Z.pos p * 2 ^ Z.pos p).
Proof.
  replace (Z.pos p~1) with (1 + (Z.pos p + Z.pos p)) by lia.
  rewrite (Z.pow_add_r 2 1), Z.pow_add_r by lia. reflexivity.
Qed.

Lemma iter_shr_1_represents (p : positive) :
  forall (mrs : shr_record) (N D : Z),
    0 <= N -> 0 < D -> represents mrs N D ->
    represents (SpecFloat.iter_pos shr_1 p mrs) N (D * 2 ^ Zpos p).
Proof.
  induction p as [p IH|p IH|]; intros mrs N D HN HD Hr;
    cbn [SpecFloat.iter_pos].
  - assert (Hp : 0 < 2 ^ Zpos p) by (apply Z.pow_pos_nonneg; lia).
    replace (D * 2 ^ Z.pos p~1) with (2 * D * 2 ^ Zpos p * 2 ^ Zpos p)
      by (rewrite pow2_xI; ring).
    apply IH; [lia|nia|]. apply IH; [lia|lia|].
    now apply shr_1_represents.
  - assert (Hp : 0 < 2 ^ Zpos p) by (apply Z.pow_pos_nonneg; lia).
    replace (D * 2 ^ Z.pos p~0) with (D * 2 ^ Zpos p * 2 ^ Zpos p)
      by (rewrite pow2_xO; ring).
    apply IH; [lia|nia|]. now apply IH.
  - change (2 ^ 1) with 2. rewrite Z.mul_comm. now apply shr_1_represents.
Qed.

(** [shr] by [n] places, when [n] is not negative. *)
Lemma shr_represents (mrs : shr_record) (N D e n : Z) :
  0 <= N -> 0 < D -> represents mrs N D ->
  represents (fst (shr mrs e n)) N (D * 2 ^ Z.max 0 n)
  /\ snd (shr mrs e n) = e + Z.max 0 n.
Proof.
  intros HN HD Hr. destruct n as [|p|p]; simpl.
  - rewrite Z.mul_1_r, Z.add_0_r. now split.
  - split; [|reflexivity]. now apply iter_shr_1_represents.
  - rewrite Z.mul_1_r, Z.add_0_r. now split.
Qed.

(** ** Rounding an integer quotient to nearest even *)

Lemma loc_of_cases (N D : Z) :
  0 < D ->
  (N mod D = 0 /\ loc_of N D = loc_Exact)
  \/ (0 < 2 * (N mod D) < D /\ loc_of N D = loc_Inexact Lt)
  \/ (2 * (N mod D) = D /\ loc_of N D = loc_Inexact Eq)
  \/ (D < 2 * (N mod D) /\ loc_of N D = loc_Inexact Gt).
Proof.
  intros HD. pose proof (Z.mod_pos_bound N D HD) as Hr. unfold loc_of.
  destruct (Z.eqb_spec (N mod D) 0); [now left|].
  destruct (Z.compare_spec (2 * (N mod D)) D); intuition lia.
Qed.

Lemma loc_of_scale (N D c : Z) :
  0 < D -> 0 < c -> loc_of (N * c) (D * c) = loc_of N D.
Proof.
  intros HD Hc. unfold loc_of.
  rewrite Z.mul_mod_distr_r by lia.
  pose proof (Z.mod_pos_bound N D HD) as Hr.
  destruct (Z.eqb_spec (N mod D * c) 0), (Z.eqb_spec (N mod D) 0);
    try nia; try reflexivity.
  f_equal.
  destruct (Z.compare_spec (2 * (N mod D * c)) (D * c)),
           (Z.compare_spec (2 * (N mod D)) D); try reflexivity; nia.
Qed.

Lemma loc_of_1 (N : Z) : loc_of N 1 = loc_Exact.
Proof. unfold loc_of. now rewrite Z.mod_1_r. Qed.

Lemma rne_scale (N D c : Z) :
  0 < D -> 0 < c -> rne (N * c) (D * c) = rne N D.
Proof.
  intros HD Hc. unfold rne.
  rewrite loc_of_scale, Z.div_mul_cancel_r by lia. reflexivity.
Qed.

Lemma rne_bounds (N D : Z) : 0 < D -> N / D <= rne N D <= N / D + 1.
Proof.
  intros HD. unfold rne, round_nearest_even.
  destruct (loc_of N D) as [|[]]; try lia.
  destruct (Z.even (N / D)); lia.
Qed.

Lemma rne_1 (N : Z) : rne N 1 = N.
Proof. unfold rne. now rewrite loc_of_1, Z.div_1_r. Qed.

Lemma rne_mono (N1 N2 D : Z) :
  0 < D -> N1 <= N2 -> rne N1 D <= rne N2 D.
Proof.
  intros HD Hle.
  assert (Hq : N1 / D <= N2 / D) by (apply Z.div_le_mono; lia).
  destruct (Z.eq_dec (N1 / D) (N2 / D)) as [He|Hne].
  - assert (Hr : N1 mod D <= N2 mod D).
    { rewrite !Z.mod_eq by lia. rewrite He. lia. }
    unfold rne. rewrite <- He. unfold round_nearest_even.
    destruct (loc_of_cases N1 D HD) as [[H1 ->]|[[H1 ->]|[[H1 ->]|[H1 ->]]]];
    destruct (loc_of_cases N2 D HD) as [[H2 ->]|[[H2 ->]|[[H2 ->]|[H2 ->]]]];
      try lia; destruct (Z.even (N1 / D)); lia.
  - pose proof (rne_bounds N1 D HD). pose proof (rne_bounds N2 D HD). lia.
Qed.

(** Rationals with different denominators. *)
Lemma rne_mono_frac (N1 D1 N2 D2 : Z) :
  0 < D1 -> 0 < D2 -> N1 * D2 <= N2 * D1 -> rne N1 D1 <= rne N2 D2.
Proof.
  intros H1 H2 Hle.
  rewrite <- (rne_scale N1 D1 D2), <- (rne_scale N2 D2 D1) by lia.
  rewrite (Z.mul_comm D2 D1). apply rne_mono; nia.
Qed.

Lemma rne_nonneg (N D : Z) : 0 <= N -> 0 < D -> 0 <= rne N D.
Proof.
  intros HN HD. pose proof (rne_bounds N D HD).
  assert (0 <= N / D) by (apply Z.div_pos; lia). lia.
Qed.

(** ** [binary_round_aux] in closed form *)

Lemma shr_fexp_represents (N D e : Z) :
  0 <= N -> 0 < D ->
  let n := Z.max 0 (fexp prec emax (Zdigits2 (N / D) + e) - e) in
  represents (fst (shr_fexp prec emax (N / D) e (loc_of N D))) N (D * 2 ^ n)
  /\ snd (shr_fexp prec emax (N / D) e (loc_of N D)) = e + n.
Proof.
  intros HN HD n. unfold shr_fexp.
  apply shr_represents; try assumption. apply represents_of_loc.
Qed.

Lemma binary_round_aux_closed (s : bool) (N D e : Z) :
  0 <= N -> 0 < D ->
  let n := Z.max 0 (fexp prec emax (Zdigits2 (N / D) + e) - e) in
  let m2 := rne N (D * 2 ^ n) in
  let e1 := e + n in
  let n2 := Z.max 0 (fexp prec emax (Zdigits2 m2 + e1) - e1) in
  binary_round_aux prec emax s (N / D) e (loc_of N D) =
  match m2 / 2 ^ n2 with
  | 0 => S754_zero s
  | Zpos m =>
      if e1 + n2 <=? 971 then S754_finite s m (e1 + n2) else S754_infinity s
  | Zneg _ => S754_nan
  end.
Proof.
  intros HN HD n m2 e1 n2. unfold binary_round_aux.
  destruct (shr_fexp_represents N D e HN HD) as [[Hm Hl] He].
  fold n in Hm, Hl, He.
  destruct (shr_fexp prec emax (N / D) e (loc_of N D)) as [mrs e'].
  cbn [fst snd] in *. subst e'. rewrite Hm, Hl.
  fold (rne N (D * 2 ^ n)). fold m2. fold e1.
  assert (Hm2 : 0 <= m2).
  { apply rne_nonneg; [assumption|].
    apply Z.mul_pos_pos; [assumption|apply Z.pow_pos_nonneg; lia]. }
  pose proof (shr_fexp_represents m2 1 e1 Hm2 ltac:(lia)) as Hs.
  rewrite Z.div_1_r, loc_of_1 in Hs. cbn zeta in Hs. fold n2 in Hs.
  destruct Hs as [[Hm' _] He'].
  destruct (shr_fexp prec emax m2 e1 loc_Exact) as [mrs' e''].
  cbn [fst snd] in *. subst e''. rewrite Hm', Z.mul_1_l. reflexivity.
Qed.

Lemma pow2_pos (k : Z) : 0 <= k -> 0 < 2 ^ k.
Proof. intros. apply Z.pow_pos_nonneg; lia. Qed.

Lemma Zdigits2_lt_pow2 (z k : Z) : 0 <= z < 2 ^ k -> 0 <= k -> Zdigits2 z <= k.
Proof.
  intros [Hz Hlt] Hk. destruct (Z.eq_dec z 0) as [->|Hne]; [simpl; lia|].
  destruct (Zdigits2_bounds z ltac:(lia)) as [Hlo _].
  pose proof (Zdigits2_pos z ltac:(lia)).
  assert (Zdigits2 z - 1 < k) by (apply (Z.pow_lt_mono_r_iff 2); lia).
  lia.
Qed.

(** The mantissa left by the first shift has at most 53 digits, and
    exactly 53 above the smallest exponent. *)
Lemma mantissa_facts (N D e : Z) :
  0 <= N -> 0 < D ->
  e <= fexp prec emax (Zdigits2 (N / D) + e) ->
  let e1 := fexp prec emax (Zdigits2 (N / D) + e) in
  let m1 := N / (D * 2 ^ (e1 - e)) in
  0 <= m1 < 2 ^ 53 /\ (e1 = -1074 \/ 2 ^ 52 <= m1) /\ -1074 <= e1.
Proof.
  intros HN HD Hpre e1 m1.
  assert (Hq : 0 <= N / D) by (apply Z.div_pos; lia).
  assert (Hn : 0 <= e1 - e) by (unfold e1; lia).
  pose proof (pow2_pos (e1 - e) Hn) as Hp.
  assert (Hm1 : m1 = N / D / 2 ^ (e1 - e))
    by (unfold m1; rewrite Z.div_div; lia).
  assert (He1 : e1 = Z.max (Zdigits2 (N / D) + e - 53) (-1074))
    by reflexivity.
  destruct (Z.eq_dec (N / D) 0) as [H0|H0].
  - rewrite H0 in *. simpl in He1.
    rewrite Hm1, Z.div_0_l by lia. split; [lia|]. split; lia.
  - destruct (Zdigits2_bounds (N / D) ltac:(lia)) as [Hlo Hhi].
    set (d := Zdigits2 (N / D)) in *.
    assert (Hd : 0 < d) by (apply Zdigits2_pos; lia).
    split; [|split; [|lia]].
    + rewrite Hm1. split; [apply Z.div_pos; lia|].
      apply Z.div_lt_upper_bound; [lia|].
      rewrite <- Z.pow_add_r by lia.
      eapply Z.lt_le_trans; [exact Hhi|].
      apply Z.pow_le_mono_r; lia.
    + destruct (Z.eq_dec e1 (-1074)) as [|Hne]; [now left|right].
      rewrite Hm1. apply Z.div_le_lower_bound; [lia|].
      rewrite <- Z.pow_add_r by lia.
      replace (e1 - e + 52) with (d - 1) by lia. exact Hlo.
Qed.

Lemma binary_round_aux_normal (s : bool) (N D e : Z) :
  0 <= N -> 0 < D ->
  e <= fexp prec emax (Zdigits2 (N / D) + e) ->
  let e1 := fexp prec emax (Zdigits2 (N / D) + e) in
  binary_round_aux prec emax s (N / D) e (loc_of N D)
  = normal_form s (rne N (D * 2 ^ (e1 - e))) e1.
Proof.
  intros HN HD Hpre e1.
  rewrite (binary_round_aux_closed s N D e HN HD). cbn zeta.
  fold e1. rewrite (Z.max_r 0 (e1 - e)) by lia.
  replace (e + (e1 - e)) with e1 by lia.
  destruct (mantissa_facts N D e HN HD Hpre) as ((Hm0 & Hm1) & _ & He1).
  fold e1 in Hm0, Hm1, He1.
  assert (HD' : 0 < D * 2 ^ (e1 - e))
    by (apply Z.mul_pos_pos; [lia|apply pow2_pos; lia]).
  pose proof (rne_bounds N (D * 2 ^ (e1 - e)) HD') as Hb.
  set (m2 := rne N (D * 2 ^ (e1 - e))) in *.
  unfold normal_form.
  destruct (Z.leb_spec m2 0) as [Hz|Hz].
  - assert (m2 = 0) by lia. subst m2. rewrite H. rewrite Z.div_0_l; [reflexivity|].
    apply Z.pow_nonzero; lia.
  - destruct (Z.ltb_spec m2 (2 ^ 53)) as [Hlt|Hge].
    + assert (Hd : Zdigits2 m2 <= 53) by (apply Zdigits2_lt_pow2; lia).
      rewrite Z.max_l by (rewrite fexp_eq; lia).
      rewrite Z.pow_0_r, Z.div_1_r, Z.add_0_r.
      destruct m2 as [|p|p]; try lia. reflexivity.
    + assert (Hm2 : m2 = 2 ^ 53) by lia. rewrite Hm2.
      change (Zdigits2 (2 ^ 53)) with 54.
      replace (Z.max 0 (fexp prec emax (54 + e1) - e1)) with 1
        by (rewrite fexp_eq; lia).
      reflexivity.
Qed.

Lemma digits_div_scale (N D k : Z) :
  0 <= N -> 0 < D -> 0 <= k -> 0 < N / D ->
  Zdigits2 (N * 2 ^ k / D) = Zdigits2 (N / D) + k.
Proof.
  intros HN HD Hk Hq.
  destruct (Zdigits2_bounds (N / D) Hq) as [Hlo Hhi].
  pose proof (Zdigits2_pos (N / D) Hq) as Hd.
  set (d := Zdigits2 (N / D)) in *.
  pose proof (pow2_pos k Hk) as Hp.
  pose proof (pow2_pos (d - 1) ltac:(lia)) as Hp1.
  assert (HND : D * (N / D) <= N < D * (N / D) + D).
  { pose proof (Z.mod_pos_bound N D HD). pose proof (Z.div_mod N D ltac:(lia)). lia. }
  assert (Hlow : 2 ^ (d + k - 1) <= N * 2 ^ k / D).
  { apply Z.div_le_lower_bound; [lia|].
    replace (d + k - 1) with (d - 1 + k) by lia.
    rewrite Z.pow_add_r by lia.
    assert (D * 2 ^ (d - 1) <= N) by nia.
    rewrite Z.mul_assoc. apply Z.mul_le_mono_nonneg_r; lia. }
  assert (Hupp : N * 2 ^ k / D < 2 ^ (d + k)).
  { apply Z.div_lt_upper_bound; [lia|].
    rewrite Z.pow_add_r by lia.
    assert (N < D * 2 ^ d) by nia.
    rewrite Z.mul_assoc. apply Z.mul_lt_mono_pos_r; lia. }
  apply Zdigits2_unique; [lia|].
  pose proof (pow2_pos (d + k - 1) ltac:(lia)). lia.
Qed.

(** Rounding does not depend on the exponent the exact value is written
    at, as long as its quotient holds enough digits. *)
Lemma binary_round_aux_shift (s : bool) (N D e : Z) :
  0 <= N -> 0 < D -> E0 <= e ->
  e <= fexp prec emax (Zdigits2 (N / D) + e) ->
  binary_round_aux prec emax s (N / D) e (loc_of N D)
  = RND s (N * 2 ^ (e - E0)) D.
Proof.
  intros HN HD He Hpre.
  rewrite (binary_round_aux_normal s N D e HN HD Hpre). cbn zeta.
  unfold RND.
  set (k := e - E0). assert (Hk : 0 <= k) by (unfold k; lia).
  pose proof (pow2_pos k Hk) as Hp.
  assert (Hexp : rexp (N * 2 ^ k) D = fexp prec emax (Zdigits2 (N / D) + e)).
  { unfold rexp.
    destruct (Z.eq_dec (N / D) 0) as [H0|H0].
    - rewrite H0 in *. simpl (Zdigits2 0) in *. simpl (0 + e) in *.
      assert (HltD : N < D).
      { pose proof (Z.mod_pos_bound N D HD). pose proof (Z.div_mod N D ltac:(lia)). nia. }
      assert (Hq' : 0 <= N * 2 ^ k / D < 2 ^ k).
      { split; [apply Z.div_pos; nia|]. apply Z.div_lt_upper_bound; nia. }
      pose proof (Zdigits2_lt_pow2 _ _ Hq' Hk) as Hd'.
      assert (0 <= Zdigits2 (N * 2 ^ k / D))
        by (destruct (N * 2 ^ k / D); simpl; lia).
      rewrite !fexp_eq in *. unfold k, E0 in *. lia.
    - assert (Hq : 0 < N / D).
      { assert (0 <= N / D) by (apply Z.div_pos; lia). lia. }
      rewrite digits_div_scale by assumption.
      f_equal. unfold k. lia. }
  rewrite Hexp. f_equal.
  set (e1 := fexp prec emax (Zdigits2 (N / D) + e)) in *.
  replace (D * 2 ^ (e1 - E0)) with (D * 2 ^ (e1 - e) * 2 ^ k).
  - symmetry. apply rne_scale; [|lia].
    apply Z.mul_pos_pos; [lia|apply pow2_pos; lia].
  - rewrite <- Z.mul_assoc, <- Z.pow_add_r by lia.
    do 2 f_equal. unfold k. lia.
Qed.

(** ** Properties of [RND] *)

Lemma rexp_facts (N D : Z) :
  0 <= N -> 0 < D ->
  let e1 := rexp N D in
  let m1 := N / (D * 2 ^ (e1 - E0)) in
  0 <= m1 < 2 ^ 53 /\ (e1 = -1074 \/ 2 ^ 52 <= m1) /\ -1074 <= e1.
Proof.
  intros HN HD. apply (mantissa_facts N D E0 HN HD).
  rewrite fexp_eq. unfold E0. lia.
Qed.

(** The rounded mantissa and the facts that order two roundings. *)
Lemma rmant_facts (N D : Z) :
  0 <= N -> 0 < D ->
  let e1 := rexp N D in
  let D' := D * 2 ^ (e1 - E0) in
  0 < D' /\ 0 <= rne N D' <= 2 ^ 53
  /\ (e1 = -1074 \/ 2 ^ 52 * D' <= N) /\ N < 2 ^ 53 * D' /\ -1074 <= e1.
Proof.
  intros HN HD e1 D'.
  destruct (rexp_facts N D HN HD) as ((Hm0 & Hm1) & Hn & He).
  fold e1 in Hm0, Hm1, Hn, He. fold D' in Hm0, Hm1, Hn.
  assert (HD' : 0 < D').
  { apply Z.mul_pos_pos; [lia|apply pow2_pos; unfold E0; lia]. }
  pose proof (rne_bounds N D' HD') as Hb.
  pose proof (Z.mod_pos_bound N D' HD') as Hr.
  pose proof (Z.div_mod N D' ltac:(lia)) as Hdm.
  split; [assumption|]. split; [lia|]. split; [|split; [nia|assumption]].
  destruct Hn as [Hn|Hn]; [now left|right]. nia.
Qed.

Lemma Zdigits2_to_pos (m : Z) :
  0 < m -> Zpos (digits2_pos (Z.to_pos m)) = Zdigits2 m.
Proof. destruct m; simpl; lia. Qed.

Lemma normal_form_wf (s : bool) (m e : Z) :
  0 <= m <= 2 ^ 53 -> -1074 <= e -> (e = -1074 \/ 2 ^ 52 <= m) ->
  wf (normal_form s m e) = true.
Proof.
  intros Hm He Hn. unfold normal_form.
  destruct (Z.leb_spec m 0); [reflexivity|].
  destruct (Z.ltb_spec m (2 ^ 53)).
  - destruct (Z.leb_spec e 971); [|reflexivity].
    unfold wf, valid_binary, bounded, canonical_mantissa.
    rewrite Zdigits2_to_pos by lia.
    apply andb_true_intro. split; [|apply Z.leb_le; unfold emax, prec; lia].
    apply Z.eqb_eq. rewrite fexp_eq.
    assert (Hd : Zdigits2 m <= 53) by (apply Zdigits2_lt_pow2; lia).
    destruct Hn as [->|Hn]; [lia|].
    assert (Zdigits2 m = 53) by (apply Zdigits2_unique; simpl; lia).
    lia.
  - destruct (Z.leb_spec (e + 1) 971); [|reflexivity].
    unfold wf, valid_binary, bounded, canonical_mantissa.
    apply andb_true_intro. split; [|apply Z.leb_le; unfold emax, prec; lia].
    apply Z.eqb_eq. rewrite fexp_eq.
    change (Z.pos (digits2_pos (Z.to_pos (2 ^ 52)))) with 53. lia.
Qed.

Lemma RND_wf (s : bool) (N D : Z) : 0 <= N -> 0 < D -> wf (RND s N D) = true.
Proof.
  intros HN HD.
  destruct (rmant_facts N D HN HD) as (HD' & Hm & Hn & Hlt & He).
  unfold RND. apply normal_form_wf; try assumption.
  destruct Hn as [Hn|Hn]; [now left|right].
  pose proof (rne_bounds N (D * 2 ^ (rexp N D - E0)) HD') as Hb.
  assert (2 ^ 52 <= N / (D * 2 ^ (rexp N D - E0)))
    by (apply Z.div_le_lower_bound; lia).
  lia.
Qed.

Lemma normal_form_opp (s : bool) (m e : Z) :
  normal_form (negb s) m e = SFopp (normal_form s m e).
Proof.
  unfold normal_form.
  destruct (m <=? 0); [reflexivity|].
  destruct (m <? 2 ^ 53).
  - destruct (e <=? 971); reflexivity.
  - destruct (e + 1 <=? 971); reflexivity.
Qed.

Lemma RND_opp (s : bool) (N D : Z) : RND (negb s) N D = SFopp (RND s N D).
Proof. apply normal_form_opp. Qed.

(** ** The order of floats *)

Lemma SFleb_finite_pos (ma mb : positive) (ea eb : Z) :
  SFleb (S754_finite false ma ea) (S754_finite false mb eb) = true
  <-> ea < eb \/ (ea = eb /\ Zpos ma <= Zpos mb).
Proof.
  unfold SFleb, SFcompare.
  destruct (Z.compare_spec ea eb) as [He|He|He].
  - fold (Pos.compare ma mb).
    destruct (Pos.compare_spec ma mb) as [Hm|Hm|Hm]; split; intros H;
      try reflexivity; try discriminate H; try lia.
  - split; intros; [lia|reflexivity].
  - split; intros H; [discriminate H|lia].
Qed.

Lemma normal_form_le (ma ea mb eb : Z) :
  0 <= ma <= 2 ^ 53 -> 0 <= mb <= 2 ^ 53 ->
  (ea = eb /\ ma <= mb) \/ (ea < eb /\ 2 ^ 52 <= mb) ->
  SFleb (normal_form false ma ea) (normal_form false mb eb) = true.
Proof.
  intros Ha Hb Hcase.
  assert (H52 : 0 < 2 ^ 52 < 2 ^ 53) by (simpl; lia).
  unfold normal_form.
  destruct (Z.leb_spec ma 0) as [Ha0|Ha0].
  - (* the smaller one is a zero *)
    destruct (Z.leb_spec mb 0); [reflexivity|].
    destruct (mb <? 2 ^ 53).
    + destruct (eb <=? 971); reflexivity.
    + destruct (eb + 1 <=? 971); reflexivity.
  - destruct (Z.leb_spec mb 0) as [Hb0|Hb0]; [lia|].
    destruct (Z.ltb_spec ma (2 ^ 53)) as [Hal|Hal];
    destruct (Z.ltb_spec mb (2 ^ 53)) as [Hbl|Hbl].
    + destruct (Z.leb_spec ea 971), (Z.leb_spec eb 971);
        try reflexivity; try lia.
      apply SFleb_finite_pos. rewrite !Z2Pos.id by lia. lia.
    + destruct (Z.leb_spec ea 971), (Z.leb_spec (eb + 1) 971);
        try reflexivity; try lia.
      apply SFleb_finite_pos. lia.
    + destruct (Z.leb_spec (ea + 1) 971), (Z.leb_spec eb 971);
        try reflexivity; try lia.
      apply SFleb_finite_pos. rewrite !Z2Pos.id by lia. lia.
    + destruct (Z.leb_spec (ea + 1) 971), (Z.leb_spec (eb + 1) 971);
        try reflexivity; try lia.
      apply SFleb_finite_pos. lia.
Qed.

(** Rounding is monotone: the order of two exact values, written as
    fractions over the common exponent [E0], is kept by [RND]. *)
Lemma RND_mono (Na Da Nb Db : Z) :
  0 <= Na -> 0 < Da -> 0 <= Nb -> 0 < Db ->
  Na * Db <= Nb * Da ->
  SFleb (RND false Na Da) (RND false Nb Db) = true.
Proof.
  intros HNa HDa HNb HDb Hle.
  destruct (rmant_facts Na Da HNa HDa) as (HDa' & Hma & Hna & Hlta & Hea).
  destruct (rmant_facts Nb Db HNb HDb) as (HDb' & Hmb & Hnb & Hltb & Heb).
  unfold RND.
  set (ea := rexp Na Da) in *. set (eb := rexp Nb Db) in *.
  pose proof (pow2_pos (ea - E0) ltac:(unfold E0; lia)) as Hpa.
  pose proof (pow2_pos (eb - E0) ltac:(unfold E0; lia)) as Hpb.
  set (pa := 2 ^ (ea - E0)) in *. set (pb := 2 ^ (eb - E0)) in *.
  assert (Hexp : ea <= eb).
  { destruct (Z_le_gt_dec ea eb) as [|Hgt]; [assumption|exfalso].
    destruct Hna as [Hna|Hna]; [lia|].
    assert (Hpp : 2 * pb <= pa).
    { unfold pa, pb. replace (ea - E0) with (ea - eb - 1 + (1 + (eb - E0))) by lia.
      rewrite Z.pow_add_r by (unfold E0 in *; lia).
      rewrite (Z.pow_add_r 2 1) by (unfold E0 in *; lia).
      change (2 ^ 1) with 2.
      pose proof (pow2_pos (ea - eb - 1) ltac:(lia)). nia. }
    assert (H1 : 2 ^ 52 * (Da * pa) * Db <= Na * Db) by nia.
    assert (H2 : Nb * Da < 2 ^ 53 * (Db * pb) * Da) by nia.
    assert (H3 : 2 ^ 53 * (Db * pb) * Da <= 2 ^ 52 * (Da * pa) * Db).
    { change (2 ^ 53) with (2 ^ 52 * 2).
      assert (0 < 2 ^ 52) by (simpl; lia). nia. }
    lia. }
  apply normal_form_le; try assumption.
  destruct (Z.eq_dec ea eb) as [Heq|Hne].
  - left. split; [assumption|].
    apply rne_mono_frac; try assumption.
    unfold pa, pb. rewrite Heq. fold pb. nia.
  - right. split; [lia|].
    destruct Hnb as [Hnb|Hnb]; [lia|].
    pose proof (rne_bounds Nb (Db * pb) HDb').
    assert (2 ^ 52 <= Nb / (Db * pb)) by (apply Z.div_le_lower_bound; lia).
    lia.
Qed.

(** * Values of well-formed floats *)

Lemma wf_finite_facts (s : bool) (m : positive) (e : Z) :
  wf (S754_finite s m e) = true ->
  -1074 <= e <= 971 /\ Zpos m < 2 ^ 53 /\ (e = -1074 \/ 2 ^ 52 <= Zpos m).
Proof.
  unfold wf, valid_binary, bounded, canonical_mantissa.
  intros [Hc He]%andb_prop. apply Z.eqb_eq in Hc. apply Z.leb_le in He.
  rewrite fexp_eq in Hc. unfold emax, prec in He.
  destruct (digits2_pos_bounds m) as [Hlo Hhi].
  set (d := Zpos (digits2_pos m)) in *.
  assert (Hd : 0 < d) by (unfold d; lia).
  assert (Hd53 : d <= 53) by lia.
  split; [lia|]. split.
  - eapply Z.lt_le_trans; [exact Hhi|]. apply Z.pow_le_mono_r; lia.
  - destruct (Z.eq_dec e (-1074)) as [|Hne]; [now left|right].
    assert (d = 53) by lia. replace (2 ^ 52) with (2 ^ (d - 1)); [exact Hlo|].
    now replace (d - 1) with 52 by lia.
Qed.

Lemma BIG_pos : 0 < BIG.
Proof. unfold BIG. apply pow2_pos. lia. Qed.

Lemma Zof_bound (f : float) : wf f = true -> - BIG < Zof f < BIG.
Proof.
  pose proof BIG_pos as HB.
  destruct f as [s|s| |s m e]; cbn [Zof]; try lia.
  intros (He & Hm & _)%wf_finite_facts.
  assert (Hp : 0 < 2 ^ (e + 1074)) by (apply pow2_pos; lia).
  assert (Hle : 2 ^ (e + 1074) <= 2 ^ 2045) by (apply Z.pow_le_mono_r; lia).
  assert (Hb : 2 ^ 53 * 2 ^ 2045 < BIG).
  { unfold BIG. rewrite <- Z.pow_add_r by lia. apply Z.pow_lt_mono_r; lia. }
  assert (0 < 2 ^ 53) by (apply pow2_pos; lia).
  assert (Z.pos m * 2 ^ (e + 1074) < 2 ^ 53 * 2 ^ 2045) by nia.
  destruct s; unfold cond_Zopp; lia.
Qed.

Lemma Zof_pos (m : positive) (e : Z) :
  -1074 <= e -> 0 < Zof (S754_finite false m e).
Proof.
  intros He. cbn [Zof cond_Zopp]. pose proof (pow2_pos (e + 1074) ltac:(lia)). nia.
Qed.

Lemma Zof_neg (m : positive) (e : Z) :
  -1074 <= e -> Zof (S754_finite true m e) < 0.
Proof.
  intros He. cbn [Zof cond_Zopp]. pose proof (pow2_pos (e + 1074) ltac:(lia)). nia.
Qed.

(** The order of two positive well-formed floats is that of their
    values. *)
Lemma finite_pos_order (ma mb : positive) (ea eb : Z) :
  wf (S754_finite false ma ea) = true ->
  wf (S754_finite false mb eb) = true ->
  (ea < eb -> Zpos ma * 2 ^ (ea + 1074) < Zpos mb * 2 ^ (eb + 1074))
  /\ (ea = eb ->
      (Zpos ma <= Zpos mb
       <-> Zpos ma * 2 ^ (ea + 1074) <= Zpos mb * 2 ^ (eb + 1074))).
Proof.
  intros (Hea & Hma & Hna)%wf_finite_facts (Heb & Hmb & Hnb)%wf_finite_facts.
  pose proof (pow2_pos (ea + 1074) ltac:(lia)) as Hpa.
  split.
  - intros Hlt. destruct Hnb as [Hnb|Hnb]; [lia|].
    replace (eb + 1074) with (eb - ea - 1 + (1 + (ea + 1074))) by lia.
    rewrite (Z.pow_add_r 2 (eb - ea - 1)), (Z.pow_add_r 2 1) by lia.
    change (2 ^ 1) with 2.
    pose proof (pow2_pos (eb - ea - 1) ltac:(lia)).
    change (2 ^ 53) with (2 ^ 52 * 2) in Hma.
    assert (Hc : 0 < 2 ^ 52) by (apply pow2_pos; lia).
    set (c := 2 ^ 52) in *. set (P := 2 ^ (ea + 1074)) in *.
    set (Q := 2 ^ (eb - ea - 1)) in *.
    assert (Z.pos ma * P < c * 2 * P) by (apply Z.mul_lt_mono_pos_r; lia).
    assert (c * 2 * P <= Z.pos mb * 2 * P)
      by (apply Z.mul_le_mono_nonneg_r; lia).
    assert (Z.pos mb * 2 * P * 1 <= Z.pos mb * 2 * P * Q)
      by (apply Z.mul_le_mono_nonneg_l; lia).
    lia.
  - intros <-. split; intros H.
    + apply Z.mul_le_mono_nonneg_r; lia.
    + apply Z.mul_le_mono_pos_r in H; lia.
Qed.

Lemma SFcompare_finite_pos (ma mb : positive) (ea eb : Z) :
  wf (S754_finite false ma ea) = true ->
  wf (S754_finite false mb eb) = true ->
  SFcompare (S754_finite false ma ea) (S754_finite false mb eb)
  = Some (Zpos ma * 2 ^ (ea + 1074) ?= Zpos mb * 2 ^ (eb + 1074)).
Proof.
  intros Ha Hb.
  destruct (finite_pos_order ma mb ea eb Ha Hb) as [Hlt Heq].
  destruct (finite_pos_order mb ma eb ea Hb Ha) as [Hgt _].
  cbn [SFcompare]. f_equal.
  destruct (Z.compare_spec ea eb) as [He|He|He].
  - specialize (Heq He). fold (Pos.compare ma mb).
    rewrite Pos2Z.inj_compare.
    destruct (Z.compare_spec (Zpos ma) (Zpos mb)) as [Hm|Hm|Hm];
      symmetry.
    + apply Z.compare_eq_iff. subst eb. now rewrite Hm.
    + apply Z.compare_lt_iff.
      destruct (Z_lt_le_dec (Z.pos ma * 2 ^ (ea + 1074))
                            (Z.pos mb * 2 ^ (eb + 1074))) as [|Hc]; [assumption|].
      subst eb. pose proof (pow2_pos (ea + 1074)
        ltac:(apply wf_finite_facts in Ha; lia)). nia.
    + apply Z.compare_gt_iff. subst eb.
      pose proof (pow2_pos (ea + 1074)
        ltac:(apply wf_finite_facts in Ha; lia)). nia.
  - symmetry. apply Z.compare_lt_iff. auto.
  - symmetry. apply Z.compare_gt_iff. auto.
Qed.

Ltac compare_by_lia :=
  f_equal; symmetry;
  first [ apply Z.compare_eq_iff; cbn [Zof cond_Zopp]; lia
        | apply Z.compare_lt_iff; cbn [Zof cond_Zopp]; lia
        | apply Z.compare_gt_iff; cbn [Zof cond_Zopp]; lia ].

Lemma SFcompare_opp (a b : float) :
  SFcompare (SFopp a) (SFopp b) = SFcompare b a.
Proof.
  destruct a as [sa|sa| |sa ma ea], b as [sb|sb| |sb mb eb];
    cbn [SFopp SFcompare]; try reflexivity;
    try (destruct sa; reflexivity); try (destruct sb; reflexivity);
    try (destruct sa, sb; reflexivity).
  destruct sa, sb; cbn [negb]; try reflexivity;
    rewrite (Z.compare_antisym ea eb);
    destruct (ea ?= eb); cbn [CompOpp]; try reflexivity;
    fold (Pos.compare ma mb); fold (Pos.compare mb ma);
    rewrite (Pos.compare_antisym ma mb);
    destruct (Pos.compare ma mb); reflexivity.
Qed.

Lemma SFcompare_finite (sa sb : bool) (ma mb : positive) (ea eb : Z) :
  wf (S754_finite sa ma ea) = true ->
  wf (S754_finite sb mb eb) = true ->
  SFcompare (S754_finite sa ma ea) (S754_finite sb mb eb)
  = Some (Zof (S754_finite sa ma ea) ?= Zof (S754_finite sb mb eb)).
Proof.
  intros Ha Hb.
  pose proof (wf_finite_facts _ _ _ Ha) as (Hea & _).
  pose proof (wf_finite_facts _ _ _ Hb) as (Heb & _).
  pose proof (Zof_neg ma ea ltac:(lia)). pose proof (Zof_pos ma ea ltac:(lia)).
  pose proof (Zof_neg mb eb ltac:(lia)). pose proof (Zof_pos mb eb ltac:(lia)).
  destruct sa, sb.
  - change (S754_finite true ma ea) with (SFopp (S754_finite false ma ea)) at 1.
    change (S754_finite true mb eb) with (SFopp (S754_finite false mb eb)) at 1.
    rewrite SFcompare_opp, SFcompare_finite_pos by assumption.
    f_equal. cbn [Zof cond_Zopp]. rewrite Z.compare_opp. reflexivity.
  - cbn [SFcompare]. f_equal; symmetry. apply Z.compare_lt_iff. lia.
  - cbn [SFcompare]. f_equal; symmetry. apply Z.compare_gt_iff. lia.
  - rewrite SFcompare_finite_pos by assumption. reflexivity.
Qed.

(** The comparison of well-formed floats is the comparison of their
    values. *)
Lemma SFcompare_Vof (a b : float) :
  wf a = true -> wf b = true -> is_nan a = false -> is_nan b = false ->
  SFcompare a b = Some (Vof a ?= Vof b).
Proof.
  intros Ha Hb Hna Hnb.
  pose proof BIG_pos as HB.
  pose proof (Zof_bound a Ha) as Hba. pose proof (Zof_bound b Hb) as Hbb.
  destruct a as [sa|sa| |sa ma ea], b as [sb|sb| |sb mb eb];
    try discriminate; cbn [Vof]; cbn [Vof] in Hba, Hbb.
  - reflexivity.
  - cbn [SFcompare]. destruct sb; compare_by_lia.
  - pose proof (wf_finite_facts _ _ _ Hb) as (He & _).
    pose proof (Zof_neg mb eb ltac:(lia)). pose proof (Zof_pos mb eb ltac:(lia)).
    change (Zof (S754_zero sa)) with 0. cbn [SFcompare].
    destruct sb; f_equal; symmetry;
      [apply Z.compare_gt_iff|apply Z.compare_lt_iff]; lia.
  - cbn [SFcompare]. destruct sa; compare_by_lia.
  - cbn [SFcompare]. destruct sa, sb; compare_by_lia.
  - cbn [SFcompare]. destruct sa; f_equal; symmetry;
      [apply Z.compare_lt_iff|apply Z.compare_gt_iff]; lia.
  - pose proof (wf_finite_facts _ _ _ Ha) as (He & _).
    pose proof (Zof_neg ma ea ltac:(lia)). pose proof (Zof_pos ma ea ltac:(lia)).
    change (Zof (S754_zero sb)) with 0. cbn [SFcompare].
    destruct sa; f_equal; symmetry;
      [apply Z.compare_lt_iff|apply Z.compare_gt_iff]; lia.
  - cbn [SFcompare]. destruct sb; f_equal; symmetry;
      [apply Z.compare_gt_iff|apply Z.compare_lt_iff]; lia.
  - now apply SFcompare_finite.
Qed.

(** * The arithmetic operations as roundings of exact values *)

(** ** [binary_round] and [binary_normalize] *)

Lemma Pos_iter_xO (d m : positive) :
  Zpos (Pos.iter xO m d) = Zpos m * 2 ^ Zpos d.
Proof.
  induction d as [|d IH] using Pos.peano_ind.
  - simpl. lia.
  - rewrite Pos.iter_succ, Pos2Z.inj_xO, IH, Pos2Z.inj_succ, Z.pow_succ_r by lia.
    ring.
Qed.

Lemma shl_align_spec (m : positive) (e e' : Z) :
  (e' <= e ->
   Zpos (fst (shl_align m e e')) = Zpos m * 2 ^ (e - e')
   /\ snd (shl_align m e e') = e')
  /\ (e <= e' -> shl_align m e e' = (m, e)).
Proof.
  unfold shl_align.
  destruct (e' - e) as [|p|p] eqn:Hd; split; intros Hle; cbn [fst snd];
    try reflexivity; try lia.
  - assert (e = e') by lia. subst e'. rewrite Z.sub_diag. simpl. lia.
  - rewrite Pos_iter_xO. replace (e - e') with (Zpos p) by lia. lia.
Qed.

Lemma rne_0 (D : Z) : 0 < D -> rne 0 D = 0.
Proof.
  intros HD. unfold rne, loc_of. rewrite Z.mod_0_l, Z.div_0_l by lia.
  reflexivity.
Qed.

Lemma RND_0 (s : bool) (D : Z) : 0 < D -> RND s 0 D = S754_zero s.
Proof.
  intros HD. unfold RND. rewrite rne_0; [reflexivity|].
  destruct (rmant_facts 0 D ltac:(lia) HD) as (HD' & _). exact HD'.
Qed.

Lemma binary_round_RND (s : bool) (m : positive) (e : Z) :
  E0 <= e ->
  binary_round prec emax s m e = RND s (Zpos m * 2 ^ (e - E0)) 1.
Proof.
  intros He. unfold binary_round.
  set (e' := fexp prec emax (Zpos (digits2_pos m) + e)).
  assert (He' : e' = Z.max (Zpos (digits2_pos m) + e - 53) (-1074))
    by reflexivity.
  destruct (shl_align_spec m e e') as [Hshift Hsame].
  destruct (Z_lt_le_dec e' e) as [Hlt|Hge].
  - destruct (Hshift ltac:(lia)) as [Hm Hz].
    destruct (shl_align m e e') as [mz ez]. cbn [fst snd] in Hm, Hz. subst ez.
    pose proof (binary_round_aux_shift s (Zpos mz) 1 e') as Hs.
    rewrite Z.div_1_r, loc_of_1 in Hs. rewrite Hs; try lia.
    + f_equal. rewrite Hm, <- Z.mul_assoc, <- Z.pow_add_r by (unfold E0 in *; lia).
      do 2 f_equal. lia.
    + unfold E0 in *. lia.
    + rewrite Hm. change (Zdigits2 (Z.pos m * 2 ^ (e - e')))
        with (Zdigits2 (Z.pos m * 2 ^ (e - e'))).
      rewrite Zdigits2_mul_pow2 by lia.
      replace (Zdigits2 (Z.pos m) + (e - e') + e')
        with (Zpos (digits2_pos m) + e) by (simpl; lia).
      fold e'. lia.
  - rewrite (Hsame Hge).
    pose proof (binary_round_aux_shift s (Zpos m) 1 e) as Hs.
    rewrite Z.div_1_r, loc_of_1 in Hs. apply Hs; try lia.
    change (Zdigits2 (Z.pos m)) with (Zpos (digits2_pos m)). fold e'. lia.
Qed.

Lemma binary_normalize_RNDq (z e : Z) :
  E0 <= e ->
  binary_normalize prec emax z e false = RNDq (z * 2 ^ (e - E0)) 1.
Proof.
  intros He. pose proof (pow2_pos (e - E0) ltac:(lia)) as Hp.
  unfold binary_normalize, RNDq. destruct z as [|m|m].
  - rewrite Z.mul_0_l. cbn [Z.leb Z.compare]. now rewrite RND_0.
  - destruct (Z.leb_spec 0 (Z.pos m * 2 ^ (e - E0))); [|lia].
    now apply binary_round_RND.
  - destruct (Z.leb_spec 0 (Z.neg m * 2 ^ (e - E0))); [lia|].
    rewrite binary_round_RND by assumption. f_equal. lia.
Qed.

(** A well-formed float is its own rounding. *)
Lemma RND_id (s : bool) (m : positive) (e : Z) :
  wf (S754_finite s m e) = true ->
  RND s (Zpos m * 2 ^ (e - E0)) 1 = S754_finite s m e.
Proof.
  intros Hwf. pose proof Hwf as (He & Hm & Hn)%wf_finite_facts.
  assert (Hk : 0 <= e - E0) by (unfold E0; lia).
  pose proof (pow2_pos (e - E0) Hk) as Hp.
  unfold RND.
  assert (Hexp : rexp (Z.pos m * 2 ^ (e - E0)) 1 = e).
  { unfold rexp. rewrite Z.div_1_r, Zdigits2_mul_pow2 by lia.
    replace (Zdigits2 (Z.pos m) + (e - E0) + E0) with (Zpos (digits2_pos m) + e)
      by (simpl; lia).
    unfold wf, valid_binary, bounded, canonical_mantissa in Hwf.
    apply andb_prop in Hwf as [Hc _]. now apply Z.eqb_eq in Hc. }
  rewrite Hexp, rne_scale, rne_1 by lia.
  unfold normal_form.
  destruct (Z.leb_spec (Z.pos m) 0); [lia|].
  destruct (Z.ltb_spec (Z.pos m) (2 ^ 53)); [|lia].
  destruct (Z.leb_spec e 971); [|lia]. reflexivity.
Qed.

(** ** Shapes of roundings *)

Lemma normal_form_nonneg (m e : Z) : nonneg (normal_form false m e) = true.
Proof.
  unfold normal_form.
  destruct (m <=? 0); [reflexivity|].
  destruct (m <? 2 ^ 53).
  - destruct (e <=? 971); reflexivity.
  - destruct (e + 1 <=? 971); reflexivity.
Qed.

Lemma RND_nonneg (N D : Z) : nonneg (RND false N D) = true.
Proof. apply normal_form_nonneg. Qed.

Lemma RND_not_nan (s : bool) (N D : Z) : is_nan (RND s N D) = false.
Proof.
  unfold RND, normal_form.
  destruct (_ <=? 0); [reflexivity|].
  destruct (_ <? 2 ^ 53).
  - destruct (_ <=? 971); reflexivity.
  - destruct (_ + 1 <=? 971); reflexivity.
Qed.

Lemma RNDq_wf (N D : Z) : 0 < D -> wf (RNDq N D) = true.
Proof.
  intros HD. unfold RNDq. destruct (Z.leb_spec 0 N); apply RND_wf; lia.
Qed.

Lemma RNDq_not_nan (N D : Z) : is_nan (RNDq N D) = false.
Proof. unfold RNDq. destruct (0 <=? N); apply RND_not_nan. Qed.

(** A value of at least one unit does not round to zero. *)
Lemma RND_nonzero (s : bool) (N D : Z) :
  0 < D -> D * 2 ^ 1126 <= N -> is_zero (RND s N D) = false.
Proof.
  intros HD Hle.
  assert (H1126 : 0 < 2 ^ 1126) by (apply pow2_pos; lia).
  assert (HN : 0 <= N) by nia.
  destruct (rmant_facts N D HN HD) as (HD' & Hm & Hn & Hlt & He).
  pose proof (rne_bounds N (D * 2 ^ (rexp N D - E0)) HD') as Hb.
  assert (Hm1 : 1 <= N / (D * 2 ^ (rexp N D - E0))).
  { apply Z.div_le_lower_bound; [lia|].
    destruct Hn as [Hn|Hn].
    - rewrite Hn. change (-1074 - E0) with 1126. lia.
    - assert (0 < 2 ^ 52) by (apply pow2_pos; lia). nia. }
  unfold RND, normal_form.
  destruct (Z.leb_spec (rne N (D * 2 ^ (rexp N D - E0))) 0); [lia|].
  destruct (_ <? 2 ^ 53).
  - destruct (_ <=? 971); reflexivity.
  - destruct (_ + 1 <=? 971); reflexivity.
Qed.

(** The order of roundings of signed values. *)
Lemma SFleb_opp (a b : float) : SFleb (SFopp a) (SFopp b) = SFleb b a.
Proof. unfold SFleb. now rewrite SFcompare_opp. Qed.

Lemma SFleb_neg_nonneg (a b : float) :
  nonneg a = true -> nonneg b = true -> SFleb (SFopp a) b = true.
Proof.
  destruct a as [[]|[]| |[] ma ea], b as [[]|[]| |[] mb eb];
    try discriminate; reflexivity.
Qed.

Lemma RNDq_mono (Na Da Nb Db : Z) :
  0 < Da -> 0 < Db -> Na * Db <= Nb * Da ->
  SFleb (RNDq Na Da) (RNDq Nb Db) = true.
Proof.
  intros HDa HDb Hle. unfold RNDq.
  destruct (Z.leb_spec 0 Na) as [Ha|Ha], (Z.leb_spec 0 Nb) as [Hb|Hb].
  - apply RND_mono; lia.
  - exfalso. nia.
  - change true with (negb false) at 1. rewrite RND_opp.
    apply SFleb_neg_nonneg; apply RND_nonneg.
  - change true with (negb false). rewrite !RND_opp, SFleb_opp.
    apply RND_mono; lia.
Qed.

(** ** Subtraction *)

Lemma pow2_add (a b : Z) : 0 <= a -> 0 <= b -> 2 ^ a * 2 ^ b = 2 ^ (a + b).
Proof. intros. symmetry. apply Z.pow_add_r; lia. Qed.

Lemma cond_Zopp_mul (s : bool) (a b : Z) :
  cond_Zopp s a * b = cond_Zopp s (a * b).
Proof. destruct s; simpl; lia. Qed.

(** The value of a finite float, scaled to the exponent [E0]. *)
Lemma Zof_scaled (s : bool) (m : positive) (e : Z) :
  -1074 <= e ->
  Zof (S754_finite s m e) * 2 ^ 1126 = cond_Zopp s (Zpos m * 2 ^ (e - E0)).
Proof.
  intros He. cbn [Zof]. rewrite cond_Zopp_mul. f_equal.
  rewrite <- Z.mul_assoc, pow2_add by lia. do 2 f_equal. unfold E0. lia.
Qed.

Lemma RNDq_id (f : float) :
  wf f = true -> finite_or_zero f = true -> f <> S754_zero true ->
  RNDq (Zof f * 2 ^ 1126) 1 = f.
Proof.
  intros Hwf Hf Hz. destruct f as [[]| | |s m e]; try discriminate.
  - congruence.
  - cbn [Zof]. unfold RNDq. cbn [Z.mul Z.leb Z.compare]. now rewrite RND_0.
  - pose proof Hwf as (He & _)%wf_finite_facts.
    rewrite Zof_scaled by lia.
    pose proof (pow2_pos (e - E0) ltac:(unfold E0; lia)).
    unfold RNDq. destruct s; cbn [cond_Zopp].
    + destruct (Z.leb_spec 0 (- (Z.pos m * 2 ^ (e - E0)))); [lia|].
      rewrite Z.opp_involutive. now apply RND_id.
    + destruct (Z.leb_spec 0 (Z.pos m * 2 ^ (e - E0))); [|lia].
      now apply RND_id.
Qed.

(** Subtraction of finite floats rounds the exact difference. *)
Lemma fsub_exact (x y : float) :
  wf x = true -> wf y = true ->
  finite_or_zero x = true -> finite_or_zero y = true ->
  x <> S754_zero true ->
  fsub x y = RNDq ((Zof x - Zof y) * 2 ^ 1126) 1.
Proof.
  intros Hx Hy Hfx Hfy Hzx.
  destruct x as [sx| | |sx mx ex], y as [sy| | |sy my ey]; try discriminate.
  - (* zero - zero *)
    destruct sx; [congruence|].
    cbn [Zof]. unfold RNDq. cbn [Z.sub Z.add Z.opp Z.mul Z.leb Z.compare].
    rewrite RND_0 by lia. now destruct sy.
  - (* zero - finite *)
    change (fsub (S754_zero sx) (S754_finite sy my ey))
      with (S754_finite (negb sy) my ey).
    change (Zof (S754_zero sx)) with 0.
    replace ((0 - Zof (S754_finite sy my ey)) * 2 ^ 1126)
      with (Zof (S754_finite (negb sy) my ey) * 2 ^ 1126)
      by (cbn [Zof]; destruct sy; cbn [negb cond_Zopp]; lia).
    symmetry. apply RNDq_id; [exact Hy|reflexivity|discriminate].
  - (* finite - zero *)
    change (fsub (S754_finite sx mx ex) (S754_zero sy))
      with (S754_finite sx mx ex).
    change (Zof (S754_zero sy)) with 0. rewrite Z.sub_0_r.
    symmetry. now apply RNDq_id.
  - (* finite - finite *)
    pose proof Hx as (Hex & _)%wf_finite_facts.
    pose proof Hy as (Hey & _)%wf_finite_facts.
    unfold fsub. cbn [SFsub].
    set (ez := Z.min ex ey).
    destruct (shl_align_spec mx ex ez) as [[Hmx _] _]; [unfold ez; lia|].
    destruct (shl_align_spec my ey ez) as [[Hmy _] _]; [unfold ez; lia|].
    rewrite Hmx, Hmy.
    rewrite binary_normalize_RNDq by (unfold ez, E0; lia).
    f_equal.
    pose proof (pow2_pos (ez - E0) ltac:(unfold ez, E0; lia)).
    rewrite Z.mul_sub_distr_r, !cond_Zopp_mul, <- !Z.mul_assoc.
    rewrite !pow2_add by (unfold ez, E0; lia).
    rewrite Z.mul_sub_distr_r, !Zof_scaled by lia.
    do 4 f_equal; lia.
Qed.

(** ** Multiplication *)

Lemma Zdigits2_ge (z k : Z) : 0 <= k -> 2 ^ k <= z -> k + 1 <= Zdigits2 z.
Proof.
  intros Hk Hz. pose proof (pow2_pos k Hk).
  destruct (Zdigits2_bounds z ltac:(lia)) as [_ Hhi].
  pose proof (Zdigits2_pos z ltac:(lia)).
  assert (k < Zdigits2 z) by (apply (Z.pow_lt_mono_r_iff 2); lia).
  lia.
Qed.

Lemma fmul_exact (x y : float) :
  wf x = true -> wf y = true -> nonneg x = true -> nonneg y = true ->
  finite_or_zero x = true -> finite_or_zero y = true ->
  fmul x y = RNDq (Zof x * Zof y * 2 ^ 52) 1.
Proof.
  intros Hx Hy Hnx Hny Hfx Hfy.
  destruct x as [[]| | |[] mx ex], y as [[]| | |[] my ey]; try discriminate.
  - cbn [Zof]. unfold RNDq. cbn [Z.mul Z.leb Z.compare]. now rewrite RND_0.
  - cbn [Zof]. unfold RNDq. cbn [Z.mul Z.leb Z.compare]. now rewrite RND_0.
  - change (Zof (S754_zero false)) with 0. rewrite Z.mul_0_r.
    unfold RNDq. cbn [Z.mul Z.leb Z.compare]. now rewrite RND_0.
  - pose proof Hx as (Hex & Hmx & Hnx')%wf_finite_facts.
    pose proof Hy as (Hey & Hmy & Hny')%wf_finite_facts.
    unfold fmul. cbn [SFmul xorb].
    pose proof (binary_round_aux_shift false (Zpos (mx * my)) 1 (ex + ey)) as Hs.
    rewrite Z.div_1_r, loc_of_1 in Hs. rewrite Hs; try lia.
    + cbn [Zof cond_Zopp]. unfold RNDq.
      pose proof (pow2_pos (ex + 1074) ltac:(lia)).
      pose proof (pow2_pos (ey + 1074) ltac:(lia)).
      assert (0 < 2 ^ 52) by (apply pow2_pos; lia).
      destruct (Z.leb_spec 0 (Z.pos mx * 2 ^ (ex + 1074)
                              * (Z.pos my * 2 ^ (ey + 1074)) * 2 ^ 52)); [|nia].
      f_equal. rewrite Pos2Z.inj_mul.
      replace (ex + ey - E0) with ((ex + 1074) + (ey + 1074) + 52)
        by (unfold E0; lia).
      rewrite !Z.pow_add_r by lia. ring.
    + unfold E0. lia.
    + rewrite fexp_eq, Pos2Z.inj_mul.
      assert (H52 : 0 < 2 ^ 52) by (apply pow2_pos; lia).
      destruct Hnx' as [Hnx'|Hnx'], Hny' as [Hny'|Hny']; try lia.
      * assert (53 <= Zdigits2 (Z.pos mx * Z.pos my))
          by (apply (Zdigits2_ge _ 52); [lia|nia]).
        lia.
      * assert (53 <= Zdigits2 (Z.pos mx * Z.pos my))
          by (apply (Zdigits2_ge _ 52); [lia|nia]).
        lia.
      * assert (53 <= Zdigits2 (Z.pos mx * Z.pos my))
          by (apply (Zdigits2_ge _ 52); [lia|nia]).
        lia.
Qed.

(** ** Division *)

Lemma RND_scale (s : bool) (N D c : Z) :
  0 < D -> 0 < c -> RND s (N * c) (D * c) = RND s N D.
Proof.
  intros HD Hc. unfold RND, rexp.
  rewrite Z.div_mul_cancel_r by lia.
  set (k := fexp prec emax (Zdigits2 (N / D) + E0) - E0).
  replace (D * c * 2 ^ k) with (D * 2 ^ k * c) by ring.
  assert (Hk : 0 <= k) by (unfold k; rewrite fexp_eq; unfold E0; lia).
  rewrite rne_scale; [reflexivity| |assumption].
  apply Z.mul_pos_pos; [assumption|now apply pow2_pos].
Qed.

Lemma new_location_loc_of (N D : Z) :
  0 < D -> new_location D (N mod D) = loc_of N D.
Proof.
  intros HD. pose proof (Z.mod_pos_bound N D HD) as Hr.
  set (r := N mod D) in *. unfold loc_of. fold r.
  unfold new_location. destruct (Z.even D) eqn:Hev.
  - reflexivity.
  - unfold new_location_odd.
    destruct (Z.eqb_spec r 0); [reflexivity|]. f_equal.
    assert (Hodd : Z.odd D = true) by (rewrite <- Z.negb_even, Hev; reflexivity).
    apply Z.odd_spec in Hodd as [j Hj].
    destruct (Z.compare_spec (2 * r + 1) D), (Z.compare_spec (2 * r) D);
      try reflexivity; lia.
Qed.

Lemma SFdiv_core_binary_spec (mx my : positive) (ex ey : Z) :
  let e' := Z.min (fexp prec emax (Zpos (digits2_pos mx) + ex
                                   - (Zpos (digits2_pos my) + ey)))
                  (ex - ey) in
  let N := Zpos mx * 2 ^ (ex - ey - e') in
  SFdiv_core_binary prec emax (Zpos mx) ex (Zpos my) ey
  = (N / Zpos my, e', loc_of N (Zpos my)).
Proof.
  intros e' N. unfold SFdiv_core_binary.
  change (Zdigits2 (Z.pos mx)) with (Zpos (digits2_pos mx)).
  change (Zdigits2 (Z.pos my)) with (Zpos (digits2_pos my)).
  fold e'.
  assert (Hs : 0 <= ex - ey - e') by (unfold e'; lia).
  assert (Hm : match ex - ey - e' with
               | 0 => Z.pos mx
               | Z.pos _ => Z.shiftl (Z.pos mx) (ex - ey - e')
               | Z.neg _ => 0
               end = N).
  { unfold N. destruct (ex - ey - e') as [|p|p] eqn:Hd; try lia.
    now rewrite Z.shiftl_mul_pow2 by lia. }
  rewrite Hm.
  pose proof (new_location_loc_of N (Zpos my) ltac:(lia)) as Hl.
  rewrite <- Hl. unfold Z.div, Z.modulo.
  now destruct (Z.div_eucl N (Z.pos my)) as [q r].
Qed.

Lemma fdiv_exact (mx my : positive) (ex ey : Z) :
  wf (S754_finite false mx ex) = true ->
  wf (S754_finite false my ey) = true ->
  SFdiv prec emax (S754_finite false mx ex) (S754_finite false my ey)
  = RND false (Zof (S754_finite false mx ex) * 2 ^ 2200)
              (Zof (S754_finite false my ey)).
Proof.
  intros Hx Hy.
  pose proof Hx as (Hex & Hmx & _)%wf_finite_facts.
  pose proof Hy as (Hey & Hmy & _)%wf_finite_facts.
  cbn [SFdiv xorb]. rewrite SFdiv_core_binary_spec. cbn zeta.
  set (M := Zpos (digits2_pos mx) + ex - (Zpos (digits2_pos my) + ey)).
  set (e' := Z.min (fexp prec emax M) (ex - ey)).
  set (sft := ex - ey - e').
  assert (Hs : 0 <= sft) by (unfold sft, e'; lia).
  assert (He' : E0 <= e')
    by (unfold e'; rewrite fexp_eq; unfold E0; lia).
  pose proof (pow2_pos sft Hs) as Hps.
  set (N := Z.pos mx * 2 ^ sft).
  rewrite binary_round_aux_shift; try lia.
  - cbn [Zof cond_Zopp].
    pose proof (pow2_pos (ey + 1074) ltac:(lia)) as Hc.
    rewrite <- (RND_scale false (N * 2 ^ (e' - E0)) (Z.pos my) (2 ^ (ey + 1074)))
      by lia.
    f_equal. unfold N.
    rewrite <- !Z.mul_assoc, !pow2_add by (unfold E0 in *; lia).
    do 2 f_equal. unfold sft, E0. lia.
  - (* the quotient holds enough digits *)
    destruct (digits2_pos_bounds mx) as [Hlx Hhx].
    destruct (digits2_pos_bounds my) as [Hly Hhy].
    set (dx := Zpos (digits2_pos mx)) in *.
    set (dy := Zpos (digits2_pos my)) in *.
    assert (Hdx : 0 < dx) by (unfold dx; lia).
    assert (Hdy : 0 < dy) by (unfold dy; lia).
    assert (HM : M = dx - dy + sft + e') by (unfold M, sft; lia).
    destruct (Z_le_gt_dec (dx + sft - dy) 0) as [Hsmall|Hlarge].
    + (* the exponent is already the smallest *)
      assert (e' <= fexp prec emax M) by (unfold e'; lia).
      rewrite fexp_eq in *.
      assert (0 <= Zdigits2 (N / Z.pos my)).
      { assert (0 <= N / Z.pos my) by (apply Z.div_pos; unfold N; nia).
        destruct (N / Z.pos my); simpl; lia. }
      lia.
    + assert (Hq : 2 ^ (dx + sft - dy - 1) <= N / Z.pos my).
      { apply Z.div_le_lower_bound; [lia|].
        pose proof (pow2_pos (dx + sft - dy - 1) ltac:(lia)) as Hp1.
        assert (Z.pos my * 2 ^ (dx + sft - dy - 1) <= 2 ^ dy * 2 ^ (dx + sft - dy - 1))
          by (apply Z.mul_le_mono_nonneg_r; lia).
        rewrite pow2_add in H by lia.
        replace (dy + (dx + sft - dy - 1)) with (dx - 1 + sft) in H by lia.
        rewrite <- pow2_add in H by lia.
        assert (2 ^ (dx - 1) * 2 ^ sft <= N)
          by (unfold N; apply Z.mul_le_mono_nonneg_r; lia).
        lia. }
      pose proof (Zdigits2_ge (N / Z.pos my) (dx + sft - dy - 1)
                    ltac:(lia) Hq) as Hd.
      assert (e' <= fexp prec emax M) by (unfold e'; lia).
      rewrite fexp_eq in *. lia.
Qed.

(** ** Well-formedness of a rounding with any location *)

Lemma location_as_quotient (q : Z) (l : location) :
  0 <= q -> exists N, 0 <= N /\ N / 4 = q /\ loc_of N 4 = l.
Proof.
  intros Hq.
  assert (H : forall j, 0 <= j < 4 ->
            (4 * q + j) / 4 = q /\ (4 * q + j) mod 4 = j).
  { intros j Hj. split.
    - symmetry. apply (Z.div_unique _ 4 q j); lia.
    - symmetry. apply (Z.mod_unique _ 4 q j); lia. }
  destruct l as [|[]].
  - exists (4 * q + 0). destruct (H 0 ltac:(lia)) as [Hd Hm].
    repeat split; [lia|exact Hd|]. unfold loc_of. now rewrite Hm.
  - exists (4 * q + 2). destruct (H 2 ltac:(lia)) as [Hd Hm].
    repeat split; [lia|exact Hd|]. unfold loc_of. now rewrite Hm.
  - exists (4 * q + 1). destruct (H 1 ltac:(lia)) as [Hd Hm].
    repeat split; [lia|exact Hd|]. unfold loc_of. now rewrite Hm.
  - exists (4 * q + 3). destruct (H 3 ltac:(lia)) as [Hd Hm].
    repeat split; [lia|exact Hd|]. unfold loc_of. now rewrite Hm.
Qed.

Lemma binary_round_aux_wf (s : bool) (q e : Z) (l : location) :
  0 <= q -> e <= fexp prec emax (Zdigits2 q + e) ->
  wf (binary_round_aux prec emax s q e l) = true.
Proof.
  intros Hq Hpre.
  destruct (location_as_quotient q l Hq) as (N & HN & <- & <-).
  rewrite binary_round_aux_normal by (assumption || lia). cbn zeta.
  destruct (mantissa_facts N 4 e HN ltac:(lia) Hpre) as ((Hm0 & Hm1) & Hn & He).
  set (e1 := fexp prec emax (Zdigits2 (N / 4) + e)) in *.
  assert (HD : 0 < 4 * 2 ^ (e1 - e))
    by (apply Z.mul_pos_pos; [lia|apply pow2_pos; lia]).
  pose proof (rne_bounds N (4 * 2 ^ (e1 - e)) HD) as Hb.
  apply normal_form_wf; [lia|assumption|].
  destruct Hn as [Hn|Hn]; [now left|right; lia].
Qed.

(** ** The square root is well formed *)

Lemma Zdiv2_sub_double (a b : Z) : Z.div2 (a - 2 * b) = Z.div2 a - b.
Proof.
  rewrite !Z.div2_div.
  replace (a - 2 * b) with (a + (- b) * 2) by lia.
  rewrite Z.div_add by lia. lia.
Qed.

Lemma sqrt_digits (M q r k : Z) :
  0 < k -> 2 ^ (k - 1) <= M < 2 ^ k ->
  M = q * q + r -> 0 <= r <= 2 * q -> 0 <= q ->
  Zdigits2 q = Z.div2 (k + 1).
Proof.
  intros Hk [Hlo Hhi] HM Hr Hq.
  set (h := Z.div2 (k + 1)).
  assert (Hh : k = 2 * h - 1 \/ k = 2 * h).
  { unfold h. rewrite Z.div2_div.
    pose proof (Z.div_mod (k + 1) 2 ltac:(lia)).
    pose proof (Z.mod_pos_bound (k + 1) 2 ltac:(lia)). lia. }
  assert (Hh1 : 1 <= h) by lia.
  pose proof (pow2_pos (h - 1) ltac:(lia)) as Ha.
  set (a := 2 ^ (h - 1)) in *.
  assert (H2h : 2 ^ h = 2 * a).
  { unfold a. replace h with (1 + (h - 1)) at 1 by lia.
    rewrite Z.pow_add_r by lia. reflexivity. }
  assert (Haa : 2 ^ (2 * h - 2) = a * a).
  { unfold a. rewrite pow2_add by lia. f_equal. lia. }
  assert (Hqpos : 0 < q).
  { destruct (Z.eq_dec q 0) as [->|]; [|lia].
    pose proof (pow2_pos (k - 1) ltac:(lia)). lia. }
  apply Zdigits2_unique; [|assumption]. fold a. rewrite H2h.
  destruct Hh as [Hh|Hh].
  - (* k odd *)
    assert (Hk1 : 2 ^ (k - 1) = a * a) by (rewrite <- Haa; f_equal; lia).
    assert (Hk2 : 2 ^ k = 2 * (a * a)).
    { replace k with (1 + (2 * h - 2)) by lia.
      rewrite Z.pow_add_r, Haa by lia. reflexivity. }
    rewrite Hk1 in Hlo. rewrite Hk2 in Hhi. split; nia.
  - (* k even *)
    assert (Hk1 : 2 ^ (k - 1) = 2 * (a * a)).
    { replace (k - 1) with (1 + (2 * h - 2)) by lia.
      rewrite Z.pow_add_r, Haa by lia. reflexivity. }
    assert (Hk2 : 2 ^ k = 4 * (a * a)).
    { replace k with (2 + (2 * h - 2)) by lia.
      rewrite Z.pow_add_r, Haa by lia. reflexivity. }
    rewrite Hk1 in Hlo. rewrite Hk2 in Hhi. split; nia.
Qed.

Lemma fsqrt_wf (x : float) : wf (fsqrt x) = true.
Proof.
  destruct x as [s|[]| |[] m e]; try reflexivity.
  unfold fsqrt. cbn [SFsqrt]. unfold SFsqrt_core_binary.
  change (Zdigits2 (Z.pos m)) with (Zpos (digits2_pos m)).
  set (d := Zpos (digits2_pos m)).
  set (e' := Z.min (fexp prec emax (Z.div2 (d + e + 1))) (Z.div2 e)).
  set (sft := e - 2 * e').
  assert (Hs : 0 <= sft).
  { unfold sft, e'. pose proof (Z.div2_div e).
    pose proof (Z.div_mod e 2 ltac:(lia)).
    pose proof (Z.mod_pos_bound e 2 ltac:(lia)). lia. }
  set (M := match sft with
            | 0 => Z.pos m
            | Z.pos _ => Z.shiftl (Z.pos m) sft
            | Z.neg _ => 0
            end).
  assert (HM : M = Zpos m * 2 ^ sft).
  { unfold M. destruct sft as [|p|p] eqn:Hd; try lia.
    now rewrite Z.shiftl_mul_pow2 by lia. }
  pose proof (pow2_pos sft Hs) as Hp.
  assert (HMpos : 0 < M) by (rewrite HM; lia).
  pose proof (Z.sqrtrem_spec M ltac:(lia)) as Hspec.
  destruct (Z.sqrtrem M) as [q r]. destruct Hspec as [Hqr Hr].
  assert (Hq : 0 <= q) by lia.
  apply binary_round_aux_wf; [assumption|].
  assert (Hdig : Zdigits2 q = Z.div2 (d + sft + 1)).
  { apply (sqrt_digits M q r (d + sft)); try assumption; try (unfold d; lia).
    rewrite HM. destruct (digits2_pos_bounds m) as [Hlo Hhi]. fold d in Hlo, Hhi.
    replace (d + sft - 1) with (d - 1 + sft) by lia.
    rewrite !Z.pow_add_r by (unfold d; lia). split; nia. }
  rewrite Hdig. unfold sft.
  replace (d + (e - 2 * e') + 1) with (d + e + 1 - 2 * e') by lia.
  rewrite Zdiv2_sub_double.
  replace (Z.div2 (d + e + 1) - e' + e') with (Z.div2 (d + e + 1)) by lia.
  unfold e'. lia.
Qed.

(** ** Integers converted to floats *)

Lemma float_of_int_facts (z : Z) (f : float) :
  float_of_int z = Ok f ->
  f = RNDq (z * 2 ^ 2200) 1 /\ wf f = true /\ finite_or_zero f = true
  /\ f <> S754_zero true /\ (0 <= z -> nonneg f = true).
Proof.
  unfold float_of_int.
  rewrite (binary_normalize_RNDq z 0) by (unfold E0; lia).
  change (0 - E0) with 2200.
  pose proof (RNDq_wf (z * 2 ^ 2200) 1 ltac:(lia)) as Hwf.
  pose proof (RNDq_not_nan (z * 2 ^ 2200) 1) as Hnan.
  assert (Hnn : 0 <= z -> nonneg (RNDq (z * 2 ^ 2200) 1) = true).
  { intros Hz. unfold RNDq.
    pose proof (pow2_pos 2200 ltac:(lia)).
    destruct (Z.leb_spec 0 (z * 2 ^ 2200)); [|nia]. apply RND_nonneg. }
  assert (Hzt : RNDq (z * 2 ^ 2200) 1 <> S754_zero true).
  { unfold RNDq. destruct (Z.leb_spec 0 (z * 2 ^ 2200)) as [H0|H0].
    - intros Heq. pose proof (RND_nonneg (z * 2 ^ 2200) 1) as Hn.
      rewrite Heq in Hn. discriminate.
    - intros Heq.
      pose proof (RND_nonzero true (- (z * 2 ^ 2200)) 1 ltac:(lia)) as Hn.
      rewrite Heq in Hn. cbn [is_zero] in Hn.
      assert (0 < 2 ^ 1126 <= 2 ^ 2200).
      { split; [apply pow2_pos; lia|apply Z.pow_le_mono_r; lia]. }
      assert (H1 : 1 * 2 ^ 1126 <= - (z * 2 ^ 2200)) by nia.
      specialize (Hn H1). discriminate. }
  destruct (RNDq (z * 2 ^ 2200) 1) as [s|s| |s m e] eqn:Hf;
    try discriminate; intros [= <-]; repeat split; auto.
Qed.

(** * Monotonicity of the operations *)

Lemma finite_or_zero_Vof (f : float) :
  finite_or_zero f = true -> Vof f = Zof f /\ is_nan f = false.
Proof. destruct f; try discriminate; now split. Qed.

Lemma SFleb_Zof (a b : float) :
  wf a = true -> wf b = true ->
  finite_or_zero a = true -> finite_or_zero b = true ->
  SFleb a b = true -> Zof a <= Zof b.
Proof.
  intros Ha Hb Hfa Hfb. unfold SFleb.
  destruct (finite_or_zero_Vof a Hfa) as [Hva Hna].
  destruct (finite_or_zero_Vof b Hfb) as [Hvb Hnb].
  rewrite SFcompare_Vof, Hva, Hvb by assumption.
  destruct (Z.compare_spec (Zof a) (Zof b)); try discriminate; lia.
Qed.

Lemma nonneg_cases (f : float) :
  nonneg f = true ->
  f = S754_infinity false
  \/ (finite_or_zero f = true /\ 0 <= Zof f /\ f <> S754_zero true).
Proof.
  destruct f as [[]|[]| |[] m e]; try discriminate; intros _; auto;
    right; (split; [reflexivity|split; [|discriminate]]).
  - cbn [Zof]. lia.
  - cbn [Zof cond_Zopp]. pose proof (Z.pow_nonneg 2 (e + 1074) ltac:(lia)). nia.
Qed.

Lemma RNDq_nonneg (N D : Z) : 0 <= N -> nonneg (RNDq N D) = true.
Proof.
  intros HN. unfold RNDq. destruct (Z.leb_spec 0 N); [|lia].
  apply RND_nonneg.
Qed.

Lemma SFleb_inf_r (a : float) :
  is_nan a = false -> SFleb a (S754_infinity false) = true.
Proof. destruct a as [s|[]| |s m e]; try discriminate; reflexivity. Qed.

Lemma SFleb_inf_l (a : float) :
  is_nan a = false -> SFleb (S754_infinity true) a = true.
Proof. destruct a as [s|[]| |s m e]; try discriminate; reflexivity. Qed.

Lemma SFleb_pinf_finite (b : float) :
  finite_or_zero b = true -> SFleb (S754_infinity false) b = false.
Proof. destruct b; try discriminate; reflexivity. Qed.

(** Subtracting a constant. *)
Lemma fsub_mono_l (c a b : float) :
  wf c = true -> wf a = true -> wf b = true ->
  finite_or_zero c = true -> finite_or_zero a = true ->
  finite_or_zero b = true ->
  a <> S754_zero true -> b <> S754_zero true ->
  SFleb a b = true -> SFleb (fsub a c) (fsub b c) = true.
Proof.
  intros Hc Ha Hb Hfc Hfa Hfb Hza Hzb Hle.
  rewrite !fsub_exact by assumption.
  pose proof (SFleb_Zof a b Ha Hb Hfa Hfb Hle).
  assert (0 < 2 ^ 1126) by (apply pow2_pos; lia).
  apply RNDq_mono; nia.
Qed.

(** Multiplying by a constant that is not negative. *)
Lemma fmul_mono (c a b : float) :
  wf c = true -> wf a = true -> wf b = true ->
  nonneg c = true -> nonneg a = true -> nonneg b = true ->
  finite_or_zero c = true -> finite_or_zero a = true ->
  finite_or_zero b = true ->
  SFleb a b = true -> SFleb (fmul c a) (fmul c b) = true.
Proof.
  intros Hc Ha Hb Hnc Hna Hnb Hfc Hfa Hfb Hle.
  rewrite !fmul_exact by assumption.
  pose proof (SFleb_Zof a b Ha Hb Hfa Hfb Hle).
  destruct (nonneg_cases c Hnc) as [->|(_ & Hc0 & _)]; [discriminate|].
  assert (0 < 2 ^ 52) by (apply pow2_pos; lia).
  apply RNDq_mono; nia.
Qed.

Lemma fmul_shape (c a : float) :
  wf c = true -> wf a = true -> nonneg c = true -> nonneg a = true ->
  finite_or_zero c = true -> finite_or_zero a = true ->
  wf (fmul c a) = true /\ nonneg (fmul c a) = true.
Proof.
  intros Hc Ha Hnc Hna Hfc Hfa. rewrite fmul_exact by assumption.
  destruct (nonneg_cases c Hnc) as [->|(_ & Hc0 & _)]; [discriminate|].
  destruct (nonneg_cases a Hna) as [->|(_ & Ha0 & _)]; [discriminate|].
  assert (0 < 2 ^ 52) by (apply pow2_pos; lia).
  split; [apply RNDq_wf; lia|apply RNDq_nonneg; nia].
Qed.

(** Dividing by a positive constant. *)
Lemma fdiv_cases (a : float) (m : positive) (e : Z) :
  wf a = true -> nonneg a = true -> wf (S754_finite false m e) = true ->
  (a = S754_infinity false
   /\ SFdiv prec emax a (S754_finite false m e) = S754_infinity false)
  \/ (finite_or_zero a = true
      /\ SFdiv prec emax a (S754_finite false m e)
         = RNDq (Zof a * 2 ^ 2200) (Zof (S754_finite false m e))).
Proof.
  intros Ha Hna Hd.
  pose proof Hd as (He & _)%wf_finite_facts.
  pose proof (Zof_pos m e ltac:(lia)) as Hpos.
  destruct a as [[]|[]| |[] ma ea]; try discriminate.
  - right. split; [reflexivity|]. cbn [SFdiv xorb].
    change (Zof (S754_zero false)) with 0. rewrite Z.mul_0_l.
    unfold RNDq. cbn [Z.leb Z.compare]. now rewrite RND_0.
  - left. now split.
  - right. split; [reflexivity|].
    rewrite fdiv_exact by assumption.
    pose proof Ha as (Hea & _)%wf_finite_facts.
    pose proof (Zof_pos ma ea ltac:(lia)).
    assert (0 < 2 ^ 2200) by (apply pow2_pos; lia).
    unfold RNDq.
    destruct (Z.leb_spec 0 (Zof (S754_finite false ma ea) * 2 ^ 2200)); [|nia].
    reflexivity.
Qed.

Lemma fdiv_shape (a : float) (m : positive) (e : Z) :
  wf a = true -> nonneg a = true -> wf (S754_finite false m e) = true ->
  wf (SFdiv prec emax a (S754_finite false m e)) = true
  /\ nonneg (SFdiv prec emax a (S754_finite false m e)) = true.
Proof.
  intros Ha Hna Hd.
  pose proof Hd as (He & _)%wf_finite_facts.
  pose proof (Zof_pos m e ltac:(lia)) as Hpos.
  destruct (fdiv_cases a m e Ha Hna Hd) as [[-> ->]|[Hf ->]].
  - now split.
  - destruct (nonneg_cases a Hna) as [->|(_ & Ha0 & _)]; [discriminate|].
    assert (0 < 2 ^ 2200) by (apply pow2_pos; lia).
    split; [apply RNDq_wf; lia|apply RNDq_nonneg; nia].
Qed.

Lemma fdiv_mono (a b : float) (m : positive) (e : Z) :
  wf a = true -> wf b = true -> nonneg a = true -> nonneg b = true ->
  wf (S754_finite false m e) = true ->
  SFleb a b = true ->
  SFleb (SFdiv prec emax a (S754_finite false m e))
        (SFdiv prec emax b (S754_finite false m e)) = true.
Proof.
  intros Ha Hb Hna Hnb Hd Hle.
  pose proof Hd as (He & _)%wf_finite_facts.
  pose proof (Zof_pos m e ltac:(lia)) as Hpos.
  destruct (fdiv_cases a m e Ha Hna Hd) as [[-> ->]|[Hfa ->]];
  destruct (fdiv_cases b m e Hb Hnb Hd) as [[-> ->]|[Hfb ->]].
  - reflexivity.
  - now rewrite SFleb_pinf_finite in Hle.
  - apply SFleb_inf_r, RNDq_not_nan.
  - pose proof (SFleb_Zof a b Ha Hb Hfa Hfb Hle).
    assert (0 < 2 ^ 2200) by (apply pow2_pos; lia).
    apply RNDq_mono; nia.
Qed.

(** Subtracting from a constant. *)
Lemma fsub_r_cases (c a : float) :
  wf c = true -> finite_or_zero c = true -> c <> S754_zero true ->
  wf a = true -> nonneg a = true ->
  (a = S754_infinity false /\ fsub c a = S754_infinity true)
  \/ (finite_or_zero a = true
      /\ fsub c a = RNDq ((Zof c - Zof a) * 2 ^ 1126) 1).
Proof.
  intros Hc Hfc Hzc Ha Hna.
  destruct (nonneg_cases a Hna) as [->|(Hfa & _ & Hza)].
  - left. split; [reflexivity|].
    destruct c as [s| | |s m e]; try discriminate; reflexivity.
  - right. split; [assumption|]. now apply fsub_exact.
Qed.

Lemma fsub_anti_r (c a b : float) :
  wf c = true -> finite_or_zero c = true -> c <> S754_zero true ->
  wf a = true -> wf b = true -> nonneg a = true -> nonneg b = true ->
  SFleb a b = true -> SFleb (fsub c b) (fsub c a) = true.
Proof.
  intros Hc Hfc Hzc Ha Hb Hna Hnb Hle.
  destruct (fsub_r_cases c a Hc Hfc Hzc Ha Hna) as [[-> ->]|[Hfa ->]];
  destruct (fsub_r_cases c b Hc Hfc Hzc Hb Hnb) as [[-> ->]|[Hfb ->]].
  - reflexivity.
  - now rewrite SFleb_pinf_finite in Hle.
  - apply SFleb_inf_l, RNDq_not_nan.
  - pose proof (SFleb_Zof a b Ha Hb Hfa Hfb Hle).
    assert (0 < 2 ^ 1126) by (apply pow2_pos; lia).
    apply RNDq_mono; nia.
Qed.

Lemma fsub_r_wf (c a : float) :
  wf c = true -> finite_or_zero c = true -> c <> S754_zero true ->
  wf a = true -> nonneg a = true -> wf (fsub c a) = true.
Proof.
  intros Hc Hfc Hzc Ha Hna.
  destruct (fsub_r_cases c a Hc Hfc Hzc Ha Hna) as [[-> ->]|[Hfa ->]].
  - reflexivity.
  - apply RNDq_wf. lia.
Qed.

(** ** Floats against integers *)

Lemma Zcompare_scale (p n m : Z) :
  0 < p -> (n * p ?= m * p) = (n ?= m).
Proof. intros Hp. symmetry. apply Zmult_compare_compat_r. lia. Qed.

Lemma Zcompare_float_finite (z : Z) (f : float) :
  wf f = true -> finite_or_zero f = true ->
  Zcompare_float z f = Some (z * 2 ^ 1074 ?= Zof f).
Proof.
  intros Hwf Hf. assert (H1074 : 0 < 2 ^ 1074) by (apply pow2_pos; lia).
  destruct f as [s| | |s m e]; try discriminate; cbn [Zcompare_float Zof].
  - f_equal. rewrite <- (Zcompare_scale (2 ^ 1074) z 0) by lia.
    reflexivity.
  - pose proof Hwf as (He & _)%wf_finite_facts. f_equal.
    destruct (Z.leb_spec 0 e).
    + rewrite <- (Zcompare_scale (2 ^ 1074)) by lia.
      f_equal. unfold smant. rewrite !cond_Zopp_mul, <- Z.mul_assoc.
      now rewrite pow2_add by lia.
    + pose proof (pow2_pos (e + 1074) ltac:(lia)) as Hp.
      rewrite <- (Zcompare_scale (2 ^ (e + 1074))) by lia.
      unfold smant. rewrite cond_Zopp_mul, <- Z.mul_assoc, pow2_add by lia.
      do 3 f_equal. lia.
Qed.

Lemma int_of_float_finite (f : float) :
  wf f = true -> finite_or_zero f = true ->
  int_of_float f = Ok (Z.quot (Zof f) (2 ^ 1074)).
Proof.
  intros Hwf Hf. assert (H1074 : 0 < 2 ^ 1074) by (apply pow2_pos; lia).
  destruct f as [s| | |s m e]; try discriminate; cbn [int_of_float Zof].
  - now rewrite Z.quot_0_l by lia.
  - pose proof Hwf as (He & _)%wf_finite_facts. f_equal.
    destruct (Z.leb_spec 0 e).
    + unfold smant. rewrite <- cond_Zopp_mul.
      rewrite <- (pow2_add e 1074), !Z.mul_assoc by lia.
      now rewrite Z.quot_mul by lia.
    + pose proof (pow2_pos (e + 1074) ltac:(lia)) as Hp.
      replace (2 ^ 1074) with (2 ^ (- e) * 2 ^ (e + 1074))
        by (rewrite pow2_add by lia; f_equal; lia).
      unfold smant. rewrite <- cond_Zopp_mul.
      now rewrite Z.quot_mul_cancel_r by lia.
Qed.

Lemma gt_Float_Int (f : float) (z : Z) :
  wf f = true ->
  gt (Float f) (Int z) = true
  <-> f = S754_infinity false
      \/ (finite_or_zero f = true /\ z * 2 ^ 1074 < Zof f).
Proof.
  intros Hwf. unfold gt. cbn [num_compare].
  destruct (finite_or_zero f) eqn:Hf.
  - rewrite Zcompare_float_finite by assumption. cbn [option_opp].
    destruct (Z.compare_spec (z * 2 ^ 1074) (Zof f)); cbn [CompOpp];
      split; try discriminate; try (intros _; right; split; [reflexivity|lia]);
      intros [->|[_ H1]]; try discriminate; lia.
  - destruct f as [s|[]| |s m e]; try discriminate; cbn;
      split; try discriminate; auto; intros [[=]|[[=] _]].
Qed.

Lemma lt_Float_Int (f : float) (z : Z) :
  wf f = true ->
  lt (Float f) (Int z) = true
  <-> f = S754_infinity true
      \/ (finite_or_zero f = true /\ Zof f < z * 2 ^ 1074).
Proof.
  intros Hwf. unfold lt. cbn [num_compare].
  destruct (finite_or_zero f) eqn:Hf.
  - rewrite Zcompare_float_finite by assumption. cbn [option_opp].
    destruct (Z.compare_spec (z * 2 ^ 1074) (Zof f)); cbn [CompOpp];
      split; try discriminate; try (intros _; right; split; [reflexivity|lia]);
      intros [->|[_ H1]]; try discriminate; lia.
  - destruct f as [s|[]| |s m e]; try discriminate; cbn;
      split; try discriminate; auto; intros [[=]|[[=] _]].
Qed.

Lemma SFleb_cases (a b : float) :
  wf a = true -> wf b = true -> SFleb a b = true ->
  a = S754_infinity true \/ b = S754_infinity false
  \/ (finite_or_zero a = true /\ finite_or_zero b = true /\ Zof a <= Zof b).
Proof.
  intros Ha Hb Hle.
  destruct a as [sa|[]| |sa ma ea], b as [sb|[]| |sb mb eb];
    try (left; reflexivity); try (right; left; reflexivity);
    try (cbn in Hle; discriminate Hle);
    try (destruct sa; cbn in Hle; discriminate Hle);
    right; right; (split; [reflexivity|split; [reflexivity|]]);
    now apply SFleb_Zof.
Qed.

(** ** Clamping and truncating is monotone *)

Lemma int_clamp_cases (lo hi : Z) (v : num) :
  lo <= hi ->
  (lt v (Int hi) = false /\ int (clamp lo hi v) = Ok hi)
  \/ (lt v (Int hi) = true /\ gt v (Int lo) = false
      /\ int (clamp lo hi v) = Ok lo)
  \/ (lt v (Int hi) = true /\ gt v (Int lo) = true
      /\ int (clamp lo hi v) = int v).
Proof.
  intros Hle. unfold clamp, max, min.
  destruct (lt v (Int hi)) eqn:Hlt.
  - right. destruct (gt v (Int lo)) eqn:Hgt; [right|left]; now repeat split.
  - left. split; [reflexivity|].
    unfold gt. cbn [num_compare].
    destruct (Z.compare_spec hi lo); cbn [int]; f_equal; lia.
Qed.

Lemma int_clamp_mono (lo hi : Z) (f1 f2 : float) (z1 z2 : Z) :
  lo <= hi -> wf f1 = true -> wf f2 = true -> SFleb f2 f1 = true ->
  int (clamp lo hi (Float f2)) = Ok z2 ->
  int (clamp lo hi (Float f1)) = Ok z1 ->
  z2 <= z1.
Proof.
  intros Hle Hw1 Hw2 Hord H2 H1.
  assert (H1074 : 0 < 2 ^ 1074) by (apply pow2_pos; lia).
  destruct (int_clamp lo hi (Float f1)) as (z1' & Hz1 & Hr1).
  destruct (int_clamp lo hi (Float f2)) as (z2' & Hz2 & Hr2).
  assert (z1' = z1) by congruence. assert (z2' = z2) by congruence.
  subst z1' z2'. specialize (Hr1 Hle). specialize (Hr2 Hle).
  (* the order, by cases *)
  assert (Hlt_mono : lt (Float f1) (Int hi) = true ->
                     lt (Float f2) (Int hi) = true).
  { intros Hl. apply (lt_Float_Int f1 hi Hw1) in Hl.
    apply (lt_Float_Int f2 hi Hw2).
    destruct (SFleb_cases f2 f1 Hw2 Hw1 Hord) as [->|[->|(Hf2 & Hf1 & Hz)]].
    - now left.
    - destruct Hl as [[=]|[[=] _]].
    - destruct Hl as [->|[_ Hl]]; [discriminate|]. right. split; [assumption|lia]. }
  assert (Hgt_mono : gt (Float f2) (Int lo) = true ->
                     gt (Float f1) (Int lo) = true).
  { intros Hg. apply (gt_Float_Int f2 lo Hw2) in Hg.
    apply (gt_Float_Int f1 lo Hw1).
    destruct (SFleb_cases f2 f1 Hw2 Hw1 Hord) as [->|[->|(Hf2 & Hf1 & Hz)]].
    - destruct Hg as [[=]|[[=] _]].
    - now left.
    - destruct Hg as [->|[_ Hg]]; [discriminate|]. right. split; [assumption|lia]. }
  destruct (int_clamp_cases lo hi (Float f1) Hle)
    as [[Hl1 Hi1]|[(Hl1 & Hg1 & Hi1)|(Hl1 & Hg1 & Hi1)]].
  - assert (z1 = hi) by congruence. lia.
  - assert (z1 = lo) by congruence.
    destruct (int_clamp_cases lo hi (Float f2) Hle)
      as [[Hl2 Hi2]|[(Hl2 & Hg2 & Hi2)|(Hl2 & Hg2 & Hi2)]].
    + rewrite (Hlt_mono Hl1) in Hl2. discriminate.
    + assert (z2 = lo) by congruence. lia.
    + rewrite (Hgt_mono Hg2) in Hg1. discriminate.
  - destruct (int_clamp_cases lo hi (Float f2) Hle)
      as [[Hl2 Hi2]|[(Hl2 & Hg2 & Hi2)|(Hl2 & Hg2 & Hi2)]].
    + rewrite (Hlt_mono Hl1) in Hl2. discriminate.
    + assert (z2 = lo) by congruence. lia.
    + apply (lt_Float_Int f1 hi Hw1) in Hl1.
      apply (gt_Float_Int f1 lo Hw1) in Hg1.
      apply (lt_Float_Int f2 hi Hw2) in Hl2.
      apply (gt_Float_Int f2 lo Hw2) in Hg2.
      assert (Hf1 : finite_or_zero f1 = true).
      { destruct Hl1 as [->|[? _]]; [|assumption].
        destruct Hg1 as [[=]|[[=] _]]. }
      assert (Hf2 : finite_or_zero f2 = true).
      { destruct Hl2 as [->|[? _]]; [|assumption].
        destruct Hg2 as [[=]|[[=] _]]. }
      rewrite Hi1 in H1. rewrite Hi2 in H2. cbn [int] in H1, H2.
      rewrite int_of_float_finite in H1, H2 by assumption.
      injection H1 as <-. injection H2 as <-.
      apply Z.quot_le_mono; [lia|].
      now apply SFleb_Zof.
Qed.

(** * The zoom transform *)

Lemma compare_Float (a b : float) :
  wf a = true -> wf b = true -> is_nan a = false -> is_nan b = false ->
  le (Float a) (Float b) = (Vof a <=? Vof b)
  /\ ge (Float a) (Float b) = (Vof b <=? Vof a)
  /\ lt (Float a) (Float b) = (Vof a <? Vof b).
Proof.
  intros Ha Hb Hna Hnb. unfold le, ge, lt. cbn [num_compare].
  rewrite SFcompare_Vof by assumption.
  destruct (Z.compare_spec (Vof a) (Vof b));
    destruct (Z.leb_spec (Vof a) (Vof b)); destruct (Z.leb_spec (Vof b) (Vof a));
    destruct (Z.ltb_spec (Vof a) (Vof b)); auto; lia.
Qed.

Lemma le_not_nan (a b : float) :
  le (Float a) (Float b) = true -> is_nan a = false /\ is_nan b = false.
Proof.
  unfold le. cbn [num_compare].
  destruct a as [sa|sa| |sa ma ea], b as [sb|sb| |sb mb eb];
    try discriminate; now split.
Qed.

Lemma lt_not_nan (a b : float) :
  lt (Float a) (Float b) = true -> is_nan a = false /\ is_nan b = false.
Proof.
  unfold lt. cbn [num_compare].
  destruct a as [sa|sa| |sa ma ea], b as [sb|sb| |sb mb eb];
    try discriminate; now split.
Qed.

Lemma ge_not_nan (a b : float) :
  ge (Float a) (Float b) = true -> is_nan a = false /\ is_nan b = false.
Proof.
  unfold ge. cbn [num_compare].
  destruct a as [sa|sa| |sa ma ea], b as [sb|sb| |sb mb eb];
    try discriminate; now split.
Qed.

Lemma is_positive_facts (f : float) :
  is_positive f = true ->
  wf f = true /\ finite_or_zero f = true /\ nonneg f = true
  /\ f <> S754_zero true /\ 0 < Zof f /\ Vof f = Zof f /\ is_nan f = false.
Proof.
  destruct f as [s|s| |[] m e]; try discriminate. cbn [is_positive].
  intros Hwf. pose proof Hwf as (He & _)%wf_finite_facts.
  pose proof (Zof_pos m e ltac:(lia)).
  repeat split; try assumption; discriminate.
Qed.

(** A float whose value lies strictly between two positive finite
    values is positive and finite. *)
Lemma between_positive (f : float) (lo hi : Z) :
  wf f = true -> is_nan f = false ->
  0 <= lo -> lo < Vof f -> Vof f < hi -> hi < BIG ->
  is_positive f = true.
Proof.
  intros Hwf Hnan Hlo Hl Hh Hb. pose proof BIG_pos.
  destruct f as [s|[]| |[] m e]; try discriminate; cbn [Vof Zof] in *;
    try lia; try assumption.
  pose proof Hwf as (He & _)%wf_finite_facts.
  pose proof (Zof_neg m e ltac:(lia)). cbn [Zof] in *. lia.
Qed.

(** The difference of two floats in strict order is not a zero. *)
Lemma fsub_lt_nonzero (a b : float) :
  wf a = true -> wf b = true -> lt (Float a) (Float b) = true ->
  is_zero (fsub b a) = false.
Proof.
  intros Ha Hb Hlt.
  destruct (lt_not_nan a b Hlt) as [Hna Hnb].
  destruct (compare_Float a b Ha Hb Hna Hnb) as (_ & _ & Hl).
  rewrite Hl in Hlt. apply Z.ltb_lt in Hlt.
  pose proof BIG_pos as HB.
  pose proof (Zof_bound a Ha). pose proof (Zof_bound b Hb).
  destruct (finite_or_zero a) eqn:Hfa, (finite_or_zero b) eqn:Hfb.
  - destruct (finite_or_zero_Vof a Hfa) as [Hva _].
    destruct (finite_or_zero_Vof b Hfb) as [Hvb _].
    rewrite Hva, Hvb in Hlt.
    destruct b as [[]| | |sb mb eb]; try discriminate.
    + (* b is the negative zero *)
      destruct a as [sa| | |sa ma ea]; try discriminate; reflexivity.
    + rewrite fsub_exact by (assumption || discriminate).
      assert (0 < 2 ^ 1126) by (apply pow2_pos; lia).
      unfold RNDq.
      destruct (Z.leb_spec 0 ((Zof (S754_zero false) - Zof a) * 2 ^ 1126));
        [|nia].
      apply RND_nonzero; [lia|nia].
    + rewrite fsub_exact by (assumption || discriminate).
      assert (0 < 2 ^ 1126) by (apply pow2_pos; lia).
      unfold RNDq.
      destruct (Z.leb_spec 0 ((Zof (S754_finite sb mb eb) - Zof a) * 2 ^ 1126));
        [|nia].
      apply RND_nonzero; [lia|nia].
  - destruct b as [sb|[]| |sb mb eb]; try discriminate.
    + destruct (finite_or_zero_Vof a Hfa) as [Hva _].
      rewrite Hva in Hlt. cbn [Vof] in Hlt. lia.
    + destruct a as [sa| | |sa ma ea]; try discriminate; reflexivity.
  - destruct a as [sa|[]| |sa ma ea]; try discriminate.
    + destruct b as [sb| | |sb mb eb]; try discriminate; reflexivity.
    + destruct (finite_or_zero_Vof b Hfb) as [Hvb _].
      rewrite Hvb in Hlt. cbn [Vof] in Hlt. lia.
  - destruct a as [sa|[]| |sa ma ea], b as [sb|[]| |sb mb eb];
      try discriminate; try reflexivity; cbn [Vof] in Hlt; lia.
Qed.

(** The result of [zoom_of_distance] lies between ordered bounds. *)
Lemma interpolate_zoom_range (config : CameraConfig) (d : float) (z : Z) :
  interpolate_zoom config d = Ok z ->
  min_zoom config <= max_zoom config ->
  min_zoom config <= z <= max_zoom config.
Proof.
  unfold interpolate_zoom.
  destruct (float_of_int (max_zoom config - min_zoom config)) as [zr|];
    [|discriminate].
  cbn [bind]. destruct (fdiv _ _) as [q|]; [|discriminate].
  cbn [bind]. destruct (float_of_int (max_zoom config)) as [mz|];
    [|discriminate].
  cbn [bind]. intros Hz Hle.
  destruct (int_clamp (min_zoom config) (max_zoom config)
              (Float (fsub mz q))) as (z' & Hz' & Hr).
  fold (clamp (min_zoom config) (max_zoom config) (Float (fsub mz q))) in Hz.
  assert (z' = z) by congruence. subst z'. auto.
Qed.

Lemma zoom_of_distance_range (config : CameraConfig) (d : float) (z : Z) :
  zoom_of_distance config d = Ok z ->
  min_zoom config <= max_zoom config ->
  min_zoom config <= z <= max_zoom config.
Proof.
  unfold zoom_of_distance.
  destruct (le _ _); [intros [= <-]; lia|].
  destruct (ge _ _); [intros [= <-]; lia|].
  apply interpolate_zoom_range.
Qed.

(** The interpolation, once its integer operands convert. *)
Lemma interpolate_zoom_unfold (config : CameraConfig) (d zrf mzf : float) :
  float_of_int (max_zoom config - min_zoom config) = Ok zrf ->
  float_of_int (max_zoom config) = Ok mzf ->
  is_zero (fsub (max_distance config) (min_distance config)) = false ->
  interpolate_zoom config d
  = int (clamp (min_zoom config) (max_zoom config)
           (Float (raw_zoom config zrf mzf d))).
Proof.
  intros Hzr Hmz Hd. unfold interpolate_zoom. rewrite Hzr. cbn [bind].
  unfold fdiv. rewrite Hd. cbn [bind]. rewrite Hmz. reflexivity.
Qed.

Lemma valid_zoom_config_facts (config : CameraConfig) :
  valid_zoom_config config = true ->
  is_positive (min_distance config) = true
  /\ is_positive (max_distance config) = true
  /\ Zof (min_distance config) < Zof (max_distance config)
  /\ min_zoom config <= max_zoom config.
Proof.
  unfold valid_zoom_config.
  intros [[[Hmin Hmax]%andb_prop Hlt]%andb_prop Hz]%andb_prop.
  apply Z.leb_le in Hz.
  destruct (is_positive_facts _ Hmin) as (Hw1 & _ & _ & _ & _ & Hv1 & Hn1).
  destruct (is_positive_facts _ Hmax) as (Hw2 & _ & _ & _ & _ & Hv2 & Hn2).
  destruct (compare_Float _ _ Hw1 Hw2 Hn1 Hn2) as (_ & _ & Hl).
  rewrite Hl, Hv1, Hv2 in Hlt. apply Z.ltb_lt in Hlt.
  now repeat split.
Qed.

(** The distance range of a valid configuration is a positive finite
    float. *)
Lemma distance_range_positive (config : CameraConfig) :
  valid_zoom_config config = true ->
  is_positive (fsub (max_distance config) (min_distance config)) = true.
Proof.
  intros (Hmin & Hmax & Hlt & _)%valid_zoom_config_facts.
  destruct (is_positive_facts _ Hmin) as (Hw1 & Hf1 & _ & Hz1 & Hp1 & Hv1 & Hn1).
  destruct (is_positive_facts _ Hmax) as (Hw2 & Hf2 & _ & Hz2 & Hp2 & Hv2 & Hn2).
  assert (H1126 : 0 < 2 ^ 1126) by (apply pow2_pos; lia).
  set (a := min_distance config) in *. set (b := max_distance config) in *.
  assert (Hle : SFleb (fsub b a) b = true).
  { rewrite fsub_exact by assumption.
    rewrite <- (RNDq_id b Hw2 Hf2 Hz2) at 2.
    apply RNDq_mono; nia. }
  assert (Hnz : is_zero (fsub b a) = false).
  { rewrite fsub_exact by assumption. unfold RNDq.
    destruct (Z.leb_spec 0 ((Zof b - Zof a) * 2 ^ 1126)); [|nia].
    apply RND_nonzero; [lia|nia]. }
  assert (Hnn : nonneg (fsub b a) = true).
  { rewrite fsub_exact by assumption. apply RNDq_nonneg. nia. }
  assert (Hwf : wf (fsub b a) = true).
  { rewrite fsub_exact by assumption. apply RNDq_wf. lia. }
  destruct (fsub b a) as [s|[]| |[] m e]; try discriminate.
  - now rewrite SFleb_pinf_finite in Hle.
  - exact Hwf.
Qed.

(** In the interpolation branch a larger distance gives a smaller
    zoom. *)
Lemma interpolate_zoom_mono (config : CameraConfig) (d1 d2 : float)
    (z1 z2 : Z) :
  valid_zoom_config config = true ->
  is_positive d1 = true -> is_positive d2 = true ->
  Zof (min_distance config) <= Zof d1 -> Zof d1 <= Zof d2 ->
  interpolate_zoom config d1 = Ok z1 ->
  interpolate_zoom config d2 = Ok z2 ->
  z2 <= z1.
Proof.
  intros Hv Hd1 Hd2 Hlo Hord H1 H2.
  pose proof (distance_range_positive config Hv) as Hdr.
  pose proof Hv as (Hmin & Hmax & Hlt & Hz)%valid_zoom_config_facts.
  destruct (is_positive_facts _ Hmin) as (Hwm & Hfm & Hnm & Hzm & Hpm & _).
  destruct (is_positive_facts _ Hd1) as (Hw1 & Hf1 & Hn1 & Hz1 & Hp1 & _).
  destruct (is_positive_facts _ Hd2) as (Hw2 & Hf2 & Hn2 & Hz2 & Hp2 & _).
  destruct (is_positive_facts _ Hdr) as (Hwr & Hfr & _).
  assert (H1126 : 0 < 2 ^ 1126) by (apply pow2_pos; lia).
  (* the conversions of the two integers *)
  destruct (float_of_int (max_zoom config - min_zoom config)) as [zrf|] eqn:Hzr.
  2: { unfold interpolate_zoom in H1. rewrite Hzr in H1. discriminate. }
  destruct (float_of_int (max_zoom config)) as [mzf|] eqn:Hmz.
  2: { unfold interpolate_zoom in H1. rewrite Hzr in H1. cbn [bind] in H1.
       destruct (fdiv _ _); [|discriminate]. cbn [bind] in H1.
       rewrite Hmz in H1. discriminate. }
  destruct (float_of_int_facts _ _ Hzr) as (_ & Hwzr & Hfzr & _ & Hnzr).
  specialize (Hnzr ltac:(lia)).
  destruct (float_of_int_facts _ _ Hmz) as (_ & Hwmz & Hfmz & Hzmz & _).
  assert (Hnz : is_zero (fsub (max_distance config) (min_distance config)) = false).
  { destruct (fsub (max_distance config) (min_distance config));
      try discriminate; reflexivity. }
  rewrite (interpolate_zoom_unfold config d1 zrf mzf Hzr Hmz Hnz) in H1.
  rewrite (interpolate_zoom_unfold config d2 zrf mzf Hzr Hmz Hnz) in H2.
  unfold raw_zoom in H1, H2.
  set (md := min_distance config) in *.
  set (dr := fsub (max_distance config) md) in *.
  (* the difference to the near threshold *)
  assert (Ht : forall d, is_positive d = true -> Zof md <= Zof d ->
            wf (fsub d md) = true /\ nonneg (fsub d md) = true
            /\ finite_or_zero (fsub d md) = true).
  { intros d Hd Hge.
    destruct (is_positive_facts _ Hd) as (Hw & Hf & Hn & Hzd & Hp & _).
    assert (Hle : SFleb (fsub d md) d = true).
    { rewrite fsub_exact by assumption.
      rewrite <- (RNDq_id d Hw Hf Hzd) at 2.
      apply RNDq_mono; nia. }
    rewrite fsub_exact in * by assumption.
    assert (Hnn : nonneg (RNDq ((Zof d - Zof md) * 2 ^ 1126) 1) = true)
      by (apply RNDq_nonneg; nia).
    split; [apply RNDq_wf; lia|]. split; [assumption|].
    destruct (nonneg_cases _ Hnn) as [Hinf|(Hfin & _)]; [|assumption].
    rewrite Hinf in Hle. now rewrite SFleb_pinf_finite in Hle. }
  destruct (Ht d1 Hd1 Hlo) as (Hwt1 & Hnt1 & Hft1).
  destruct (Ht d2 Hd2 ltac:(lia)) as (Hwt2 & Hnt2 & Hft2).
  assert (Hs1 : SFleb (fsub d1 md) (fsub d2 md) = true).
  { apply fsub_mono_l; try assumption.
    unfold SFleb. rewrite SFcompare_Vof; try assumption;
      try (destruct d1; try discriminate; reflexivity);
      try (destruct d2; try discriminate; reflexivity).
    destruct (finite_or_zero_Vof d1 Hf1) as [-> _].
    destruct (finite_or_zero_Vof d2 Hf2) as [-> _].
    destruct (Z.compare_spec (Zof d1) (Zof d2)); try reflexivity; lia. }
  (* times the zoom range *)
  destruct (fmul_shape zrf (fsub d1 md)) as [Hwp1 Hnp1]; try assumption.
  destruct (fmul_shape zrf (fsub d2 md)) as [Hwp2 Hnp2]; try assumption.
  assert (Hs2 : SFleb (fmul zrf (fsub d1 md)) (fmul zrf (fsub d2 md)) = true)
    by (apply fmul_mono; assumption).
  (* divided by the distance range *)
  destruct dr as [s|s| |[] mr er] eqn:Hdreq; try discriminate.
  destruct (fdiv_shape (fmul zrf (fsub d1 md)) mr er) as [Hwq1 Hnq1];
    try assumption.
  destruct (fdiv_shape (fmul zrf (fsub d2 md)) mr er) as [Hwq2 Hnq2];
    try assumption.
  assert (Hs3 : SFleb (SFdiv prec emax (fmul zrf (fsub d1 md))
                         (S754_finite false mr er))
                      (SFdiv prec emax (fmul zrf (fsub d2 md))
                         (S754_finite false mr er)) = true)
    by (apply fdiv_mono; assumption).
  (* subtracted from the maximal zoom *)
  set (q1 := SFdiv prec emax (fmul zrf (fsub d1 md)) (S754_finite false mr er)) in *.
  set (q2 := SFdiv prec emax (fmul zrf (fsub d2 md)) (S754_finite false mr er)) in *.
  assert (Hs4 : SFleb (fsub mzf q2) (fsub mzf q1) = true)
    by (apply fsub_anti_r; assumption).
  eapply (int_clamp_mono (min_zoom config) (max_zoom config)
            (fsub mzf q1) (fsub mzf q2)); try eassumption.
  - apply fsub_r_wf; assumption.
  - apply fsub_r_wf; assumption.
Qed.

Lemma zoom_of_distance_mono (config : CameraConfig) (d1 d2 : float)
    (z1 z2 : Z) :
  valid_zoom_config config = true ->
  wf d1 = true -> wf d2 = true ->
  le (Float d1) (Float d2) = true ->
  zoom_of_distance config d1 = Ok z1 ->
  zoom_of_distance config d2 = Ok z2 ->
  z2 <= z1.
Proof.
  intros Hv Hw1 Hw2 Hle H1 H2.
  pose proof Hv as (Hmin & Hmax & Hlt & Hz)%valid_zoom_config_facts.
  destruct (is_positive_facts _ Hmin) as (Hwm & _ & _ & _ & Hpm & Hvm & Hnm).
  destruct (is_positive_facts _ Hmax) as (Hwx & _ & _ & _ & Hpx & Hvx & Hnx).
  destruct (le_not_nan d1 d2 Hle) as [Hn1 Hn2].
  destruct (compare_Float d1 d2 Hw1 Hw2 Hn1 Hn2) as (Hc & _ & _).
  rewrite Hc in Hle. apply Z.leb_le in Hle.
  pose proof (zoom_of_distance_range config d1 z1 H1 Hz) as Hr1.
  pose proof (zoom_of_distance_range config d2 z2 H2 Hz) as Hr2.
  unfold zoom_of_distance in H1, H2.
  destruct (compare_Float d1 _ Hw1 Hwm Hn1 Hnm) as (Hle1 & _ & _).
  destruct (compare_Float d2 _ Hw2 Hwm Hn2 Hnm) as (Hle2 & _ & _).
  destruct (compare_Float d1 _ Hw1 Hwx Hn1 Hnx) as (_ & Hge1 & _).
  destruct (compare_Float d2 _ Hw2 Hwx Hn2 Hnx) as (_ & Hge2 & _).
  rewrite Hle1, Hge1 in H1. rewrite Hle2, Hge2 in H2.
  rewrite Hvm, Hvx in *.
  pose proof (Zof_bound _ Hwx) as Hbx.
  destruct (Z.leb_spec (Vof d1) (Zof (min_distance config))) as [Ha|Ha].
  - injection H1 as <-. lia.
  - destruct (Z.leb_spec (Vof d2) (Zof (min_distance config))) as [Hb|Hb];
      [lia|].
    destruct (Z.leb_spec (Zof (max_distance config)) (Vof d2)) as [Hc2|Hc2].
    + injection H2 as <-. lia.
    + destruct (Z.leb_spec (Zof (max_distance config)) (Vof d1)) as [Hc1|Hc1];
        [lia|].
      assert (Hp1 : is_positive d1 = true)
        by (apply (between_positive d1 (Zof (min_distance config))
                     (Zof (max_distance config))); lia || assumption).
      assert (Hp2 : is_positive d2 = true)
        by (apply (between_positive d2 (Zof (min_distance config))
                     (Zof (max_distance config))); lia || assumption).
      destruct (is_positive_facts _ Hp1) as (_ & _ & _ & _ & _ & Hv1 & _).
      destruct (is_positive_facts _ Hp2) as (_ & _ & _ & _ & _ & Hv2 & _).
      rewrite Hv1, Hv2 in *.
      apply (interpolate_zoom_mono config d1 d2 z1 z2); try assumption; lia.
Qed.

(** A smaller integer converts when a larger one does. *)
Lemma float_of_int_le (a b : Z) :
  0 <= a <= b -> returns (float_of_int b) = true ->
  returns (float_of_int a) = true.
Proof.
  intros Hab Hb. unfold float_of_int in *.
  rewrite (binary_normalize_RNDq a 0), (binary_normalize_RNDq b 0) in *
    by (unfold E0; lia).
  change (0 - E0) with 2200 in *.
  assert (H2200 : 0 < 2 ^ 2200) by (apply pow2_pos; lia).
  pose proof (RNDq_mono (a * 2 ^ 2200) 1 (b * 2 ^ 2200) 1
                ltac:(lia) ltac:(lia) ltac:(nia)) as Hle.
  pose proof (RNDq_nonneg (a * 2 ^ 2200) 1 ltac:(nia)) as Hna.
  destruct (RNDq (a * 2 ^ 2200) 1) as [s|[]| |s m e]; try reflexivity;
    try discriminate.
  destruct (RNDq (b * 2 ^ 2200) 1) as [s|[]| |s m e]; try discriminate.
Qed.

(** ** Truncating before or after clamping *)

Lemma Zcompare_float_trunc (z : Z) (f : float) (t : Z) :
  int_of_float f = Ok t ->
  match Zcompare_float z f with
  | Some Lt => z <= t
  | Some Eq => z = t
  | Some Gt => t <= z
  | None => False
  end.
Proof.
  destruct f as [s|s| |s m e]; try discriminate; cbn [int_of_float Zcompare_float].
  - intros [= <-]. destruct (Z.compare_spec z 0); lia.
  - intros [= <-]. destruct (Z.leb_spec 0 e) as [He|He].
    + destruct (Z.compare_spec z (smant s m * 2 ^ e)); lia.
    + assert (Hp : 0 < 2 ^ (- e)) by (apply pow2_pos; lia).
      set (k := 2 ^ (- e)) in *.
      pose proof (Z.quot_rem' (smant s m) k) as Hqr.
      pose proof (Z.rem_bound_abs (smant s m) k ltac:(lia)) as Hr.
      rewrite (Z.abs_eq k) in Hr by lia.
      destruct (Z.compare_spec (z * k) (smant s m)) as [Heq|Hlt|Hgt].
      * rewrite <- Heq. symmetry. apply Z.quot_mul. lia.
      * nia.
      * nia.
Qed.

Lemma clamp_trunc_commute (lo hi : Z) (f : float) (t : Z) :
  lo <= hi -> int_of_float f = Ok t ->
  int (clamp lo hi (Float f)) = Ok (Z.max lo (Z.min hi t)).
Proof.
  intros Hle Ht.
  pose proof (Zcompare_float_trunc lo f t Ht) as Hlo.
  pose proof (Zcompare_float_trunc hi f t Ht) as Hhi.
  destruct (int_clamp_cases lo hi (Float f) Hle)
    as [[Hl ->]|[(Hl & Hg & ->)|(Hl & Hg & ->)]];
    unfold lt, gt in *; cbn [num_compare] in *;
    destruct (Zcompare_float lo f) as [[]|]; try contradiction;
    destruct (Zcompare_float hi f) as [[]|]; try contradiction;
    cbn [option_opp CompOpp] in *; try discriminate;
    cbn [int]; rewrite ?Ht; f_equal; lia.
Qed.

(** * The claims *)

(** ** Angles *)

(** C1 (counterexample).  With [field_width = 0] the call does not return
    a pair of angles: the normalising division raises
    [ZeroDivisionError], so the angles are not returned "for every
    configuration". *)
Lemma C1_zero_width_raises :
  calculate_camera_angles zero_width_config (lit 3000) (lit 0)
  = Raise ZeroDivisionError.
Proof. vm_compute. reflexivity. Qed.

(** C1 (amended).  For every position and every configuration whose half
    extents [field_width/2] and [field_height/2] are not zero,
    [calculate_camera_angles] returns the pair
    (clamp(x/(field_width/2) * 129 * pan_scale, -129, 129),
     clamp(y/(field_height/2) * 59 * tilt_scale, -59, 59));
    the pan lies in [-129, 129] and the tilt in [-59, 59] whatever the
    magnitude of the input and of the scale factors, and nothing is
    raised. *)
Theorem C1_camera_angles_clamped (config : CameraConfig) (x y : float) :
  nondegenerate_field config = true ->
  let pan :=
    clamp (-129) 129
      (Float (raw_angle x (field_width config) (lit 129) (pan_scale config))) in
  let tilt :=
    clamp (-59) 59
      (Float (raw_angle y (field_height config) (lit 59) (tilt_scale config))) in
  calculate_camera_angles config x y = Ok (pan, tilt)
  /\ le (Int (-129)) pan = true /\ le pan (Int 129) = true
  /\ le (Int (-59)) tilt = true /\ le tilt (Int 59) = true.
Proof.
  intros Hf pan tilt.
  split; [now apply calculate_camera_angles_defined|].
  destruct (clamp_in_range (-129) 129
              (Float (raw_angle x (field_width config) (lit 129) (pan_scale config))))
    as [H1 H2]; [lia|].
  destruct (clamp_in_range (-59) 59
              (Float (raw_angle y (field_height config) (lit 59) (tilt_scale config))))
    as [H3 H4]; [lia|].
  now repeat split.
Qed.

Lemma C1_camera_angles_clamped_witness :
  nondegenerate_field default_config = true
  /\ calculate_camera_angles default_config (lit 1000000000) S754_nan
     = Ok (Int 129, Int 59).
Proof.
  split; [reflexivity|].
  exact (proj1 (C1_camera_angles_clamped default_config (lit 1000000000)
                  S754_nan eq_refl)).
Defined.

(** ** The confidence gate *)

(** C3.  The gate is the strict comparison [confidence > 0.5]: a
    detection that fails it has nothing computed and nothing dispatched
    in its tick, a detection that passes it goes through the two
    transforms and the dispatch; 0.5 and 0.0 fail, 0.5000001 and 1.0
    pass. *)
Theorem C3_confidence_gate (config : CameraConfig) (confidence : float) :
  (should_track confidence = true
   <-> SFcompare confidence (dec 5 10) = Some Gt)
  /\ (should_track confidence = false ->
      forall x y, tick config (Some (x, y, confidence)) = Ok [])
  /\ (should_track confidence = true ->
      forall x y,
        tick config (Some (x, y, confidence))
        = (angles <- calculate_camera_angles config x y ;;
           zoom <- calculate_zoom config x y ;;
           move_camera (fst angles) (snd angles) zoom))
  /\ (transforms_defined config = true ->
      forall x y,
        should_track confidence = true
        <-> exists p t z,
              tick config (Some (x, y, confidence))
              = Ok [set_gim_motor_degree p t; set_zoom z])
  /\ should_track (dec 5 10) = false
  /\ should_track (lit 0) = false
  /\ should_track (dec 5000001 10000000) = true
  /\ should_track (lit 1) = true.
Proof.
  split.
  { unfold should_track, gt. simpl.
    destruct (SFcompare confidence (dec 5 10)) as [[]|]; split; congruence. }
  split; [intros Hc x y; unfold tick; now rewrite Hc|].
  split; [intros Hc x y; unfold tick; now rewrite Hc|].
  split; [|repeat split; reflexivity].
  intros Hd x y. split.
  - intros Hc. pose proof Hd as Hd'. unfold transforms_defined in Hd'.
    apply andb_prop in Hd' as [Hf Hz].
    destruct (calculate_zoom_defined config x y Hz) as (z & Hzoom & _).
    destruct (tick_tracks config x y confidence _ _ z Hc
                (calculate_camera_angles_defined config x y Hf) Hzoom)
      as (p & t & _ & _ & Hk).
    eauto.
  - intros (p & t & z & Hk). destruct (should_track confidence) eqn:Hc;
      [reflexivity|].
    unfold tick in Hk. rewrite Hc in Hk. discriminate.
Qed.

Lemma C3_confidence_gate_witness :
  should_track (dec 9 10) = true
  /\ exists p t z,
       tick default_config (Some (lit 3000, lit 0, dec 9 10))
       = Ok [set_gim_motor_degree p t; set_zoom z].
Proof.
  split; [reflexivity|].
  destruct (C3_confidence_gate default_config (dec 9 10))
    as (_ & _ & _ & H & _).
  exact (proj1 (H eq_refl (lit 3000) (lit 0)) eq_refl).
Defined.

(** ** One tick *)




(** ** End to end *)

(** C5.  With the default configuration, one tick on the detection
    (x = 3000, y = 0, confidence = 0.9) dispatches exactly the command
    pan = 129, tilt = 0, zoom = 50. *)
Theorem C5_scenario_A :
  tick default_config (Some (lit 3000, lit 0, dec 9 10))
  = Ok [set_gim_motor_degree 129 0; set_zoom 50]
  /\ run default_config [Frame [mkBall (lit 3000) (lit 0) (dec 9 10)]]
     = ([Printed StartingBallTracking;
         Sent (set_gim_motor_degree 129 0);
         Sent (set_zoom 50)],
        Waiting).
Proof. split; vm_compute; reflexivity. Qed.

(** ** Dispatch *)

(** C10.  For every dispatched command the pan and tilt arguments of the
    angle-set message are [int(pan)] and [int(tilt)], the truncations
    toward zero of the angles that [calculate_camera_angles] returned,
    and the argument of the zoom-set message is the zoom value itself.
    At (x, y) = (100, -100) the angles 4.3 and -2.95 are sent as 4 and
    -2. *)
Theorem C10_angles_truncated (config : CameraConfig) (x y c : float)
    (pan tilt : num) (zoom : Z) :
  should_track c = true ->
  calculate_camera_angles config x y = Ok (pan, tilt) ->
  calculate_zoom config x y = Ok zoom ->
  exists p t,
    tick config (Some (x, y, c))
    = Ok [set_gim_motor_degree p t; set_zoom zoom]
    /\ int pan = Ok p /\ int tilt = Ok t
    /\ (forall f, pan = Float f -> truncates p f)
    /\ (forall f, tilt = Float f -> truncates t f)
    /\ (forall z, pan = Int z -> p = z)
    /\ (forall z, tilt = Int z -> t = z).
Proof.
  intros Hc Ha Hz.
  destruct (tick_tracks config x y c pan tilt zoom Hc Ha Hz)
    as (p & t & Hp & Ht & Hk).
  exists p, t. repeat split; try assumption.
  - intros f ->. now apply int_of_float_truncates.
  - intros f ->. now apply int_of_float_truncates.
  - intros z ->. simpl in Hp. congruence.
  - intros z ->. simpl in Ht. congruence.
Qed.

Lemma C10_angles_truncated_witness :
  exists p t,
    tick default_config (Some (lit 100, lit (-100), lit 1))
    = Ok [set_gim_motor_degree p t; set_zoom 100]
    /\ int (Float (dec 43 10)) = Ok p /\ int (Float (dec (-295) 100)) = Ok t
    /\ p = 4 /\ t = -2.
Proof.
  destruct (C10_angles_truncated default_config (lit 100) (lit (-100)) (lit 1)
              (Float (dec 43 10)) (Float (dec (-295) 100)) 100
              eq_refl eq_refl eq_refl)
    as (p & t & Hk & Hp & Ht & _).
  exists p, t. repeat split; try assumption.
  - vm_compute in Hp. congruence.
  - vm_compute in Ht. congruence.
Defined.

(** ** Termination of the loop *)




(** ** Calibration *)

(** C8 (counterexample).  From the default scale 1.0, [pan+] followed by
    [pan-] does not leave 0.99 times the scale: the result is the
    binary64 number 0.9900000000000001, one unit in the last place above
    0.99 * 1.0. *)
Lemma C8_not_099_times :
  pan_scale (calibrated default_config ["pan+"; "pan-"])
  <> fmul (pan_scale default_config) (dec 99 100).
Proof. vm_compute. discriminate. Qed.

(** C8 (amended).  In calibration mode [pan+] multiplies [pan_scale] by
    1.1 and [pan-] by 0.9, [tilt+] and [tilt-] do the same to
    [tilt_scale], all in binary64; a command that is not recognised
    prints an error and changes neither the configuration nor the files.
    [pan+] then [pan-] leaves (pan_scale * 1.1) * 0.9; from the default
    1.0 this is 0.9900000000000001, which is neither the original scale
    nor exactly 0.99 times it: the pair is not a round trip. *)
Theorem C8_calibration_commands (config : CameraConfig) (fs : files) :
  calibration_command config fs "pan+"
  = (set_pan_scale config (fmul (pan_scale config) (dec 11 10)), fs, [])
  /\ calibration_command config fs "pan-"
     = (set_pan_scale config (fmul (pan_scale config) (dec 9 10)), fs, [])
  /\ calibration_command config fs "tilt+"
     = (set_tilt_scale config (fmul (tilt_scale config) (dec 11 10)), fs, [])
  /\ calibration_command config fs "tilt-"
     = (set_tilt_scale config (fmul (tilt_scale config) (dec 9 10)), fs, [])
  /\ (forall cmd, ~ In cmd known_commands ->
      calibration_command config fs cmd = (config, fs, [Printed UnknownCommand]))
  /\ (forall raw rest,
        ~ In (lower raw) known_commands -> lower raw <> "exit" ->
        calibration_loop config fs (raw :: rest)
        = (let '(config', fs', out, exited) := calibration_loop config fs rest in
           (config', fs',
            Printed UnknownCommand
              :: Printed (CurrentScales (pan_scale config) (tilt_scale config))
              :: out,
            exited)))
  /\ calibrated config ["pan+"; "pan-"]
     = set_pan_scale config
         (fmul (fmul (pan_scale config) (dec 11 10)) (dec 9 10))
  /\ pan_scale (calibrated default_config ["pan+"; "pan-"])
     = S754_finite false 8917127262193583 (-53)
  /\ pan_scale (calibrated default_config ["pan+"; "pan-"])
     <> pan_scale default_config
  /\ dec 99 100 = S754_finite false 8917127262193582 (-53).
Proof.
  assert (Hunknown : forall cmd, ~ In cmd known_commands ->
            calibration_command config fs cmd
            = (config, fs, [Printed UnknownCommand])).
  { intros cmd Hn. unfold calibration_command, known_commands in *.
    simpl in Hn.
    repeat match goal with
    | |- context [String.eqb cmd ?s] =>
        destruct (String.eqb_spec cmd s) as [->|_]; [exfalso; tauto|]
    end.
    reflexivity. }
  repeat split; try reflexivity; try assumption.
  - intros raw rest Hn He. cbn [calibration_loop].
    destruct (String.eqb_spec (lower raw) "exit") as [Heq|_]; [contradiction|].
    rewrite (Hunknown _ Hn). reflexivity.
  - vm_compute. discriminate.
Qed.

Lemma C8_calibration_commands_witness :
  ~ In "zoom+" known_commands
  /\ calibration_command default_config ∅ "zoom+"
     = (default_config, ∅, [Printed UnknownCommand]).
Proof.
  assert (Hn : ~ In "zoom+" known_commands).
  { simpl. intros [H|[H|[H|[H|[H|[]]]]]]; discriminate H. }
  split; [exact Hn|].
  destruct (C8_calibration_commands default_config ∅)
    as (_ & _ & _ & _ & H & _).
  exact (H "zoom+" Hn).
Defined.

(** ** Persistence *)

(** C9.  Loading when the file does not exist changes nothing and
    reports the absence.  Loading a stored record sets exactly the
    attributes it names and keeps the others.  Saving a configuration
    and loading the file yields the saved value in every field. *)
Theorem C9_persistence (fs : files) (filename : string)
    (attrs : gmap string jvalue) :
  (fs !! filename = None ->
   load_calibration fs filename attrs
   = (attrs, [Printed (CalibrationFileNotFound filename)]))
  /\ (forall data key,
        fs !! filename = Some data ->
        fst (load_calibration fs filename attrs) !! key
        = match data !! key with
          | Some v => Some v
          | None => attrs !! key
          end)
  /\ (forall config current,
        let fs' := save_calibration (vars config) filename fs in
        load_calibration fs' filename (vars current) = (vars config, [])
        /\ config_of (fst (load_calibration fs' filename (vars current)))
           = Some config).
Proof.
  split; [|split].
  - intros Hf. unfold load_calibration. now rewrite Hf.
  - intros data key Hf. rewrite (load_calibration_found _ _ _ _ Hf).
    cbn [fst]. rewrite lookup_union.
    destruct (data !! key), (attrs !! key); reflexivity.
  - intros config current fs'.
    assert (Hl : load_calibration fs' filename (vars current) = (vars config, [])).
    { rewrite (load_calibration_found fs' filename _ (vars config)).
      - now rewrite vars_union.
      - unfold fs', save_calibration. apply lookup_insert_eq. }
    split; [exact Hl|]. rewrite Hl. apply config_of_vars.
Qed.

Lemma C9_persistence_witness :
  (∅ : files) !! default_filename = None
  /\ load_calibration ∅ default_filename (vars default_config)
     = (vars default_config,
        [Printed (CalibrationFileNotFound default_filename)]).
Proof.
  split; [reflexivity|].
  exact (proj1 (C9_persistence ∅ default_filename (vars default_config))
               eq_refl).
Defined.

(** ** Zoom *)

(** C2 (counterexample).  A configuration with
    [min_distance < max_distance] whose zoom bounds are swapped
    ([min_zoom = 100], [max_zoom = 0]): at the field centre
    [calculate_zoom] returns [max_zoom = 0], which does not lie in
    [[min_zoom, max_zoom]]. *)
Lemma C2_swapped_bounds :
  lt (Float (min_distance swapped_zoom_config))
     (Float (max_distance swapped_zoom_config)) = true
  /\ calculate_zoom swapped_zoom_config (lit 0) (lit 0) = Ok 0
  /\ ~ (min_zoom swapped_zoom_config <= 0 <= max_zoom swapped_zoom_config).
Proof.
  split; [reflexivity|]. split; [vm_compute; reflexivity|].
  simpl. lia.
Qed.

(** C2 (amended).  For every (x, y) and every configuration with
    [min_distance < max_distance] and [min_zoom <= max_zoom],
    [calculate_zoom] with [distance = sqrt(x*x + y*y)] returns
    [max_zoom] when [distance <= min_distance], [min_zoom] when
    [distance >= max_distance], and otherwise converts
    [max_zoom - min_zoom] and [max_zoom] to float (raising
    [OverflowError] when one of them is too large) and returns
    [max_zoom - (max_zoom - min_zoom) * (distance - min_distance)
     / (max_distance - min_distance)]
    clamped to [[min_zoom, max_zoom]] and then truncated toward zero,
    which is the truncation clamped whenever the value has a
    truncation; every result returned lies in [[min_zoom, max_zoom]]. *)
Theorem C2_calculate_zoom (config : CameraConfig) (x y : float) :
  wf (min_distance config) = true ->
  wf (max_distance config) = true ->
  lt (Float (min_distance config)) (Float (max_distance config)) = true ->
  min_zoom config <= max_zoom config ->
  exists distance,
    distance_of x y = Ok distance
    /\ (le (Float distance) (Float (min_distance config)) = true ->
        calculate_zoom config x y = Ok (max_zoom config))
    /\ (ge (Float distance) (Float (max_distance config)) = true ->
        calculate_zoom config x y = Ok (min_zoom config))
    /\ (le (Float distance) (Float (min_distance config)) = false ->
        ge (Float distance) (Float (max_distance config)) = false ->
        calculate_zoom config x y
        = (zoom_range_f <- float_of_int (max_zoom config - min_zoom config) ;;
           max_zoom_f <- float_of_int (max_zoom config) ;;
           int (clamp (min_zoom config) (max_zoom config)
                  (Float (raw_zoom config zoom_range_f max_zoom_f distance))))
        /\ forall zoom_range_f max_zoom_f,
             float_of_int (max_zoom config - min_zoom config)
             = Ok zoom_range_f ->
             float_of_int (max_zoom config) = Ok max_zoom_f ->
             exists z,
               calculate_zoom config x y = Ok z
               /\ forall t,
                    int_of_float
                      (raw_zoom config zoom_range_f max_zoom_f distance)
                    = Ok t ->
                    z = Z.max (min_zoom config) (Z.min (max_zoom config) t))
    /\ (forall z, calculate_zoom config x y = Ok z ->
        min_zoom config <= z <= max_zoom config).
Proof.
  intros Hwm Hwx Hlt Hz.
  set (d := fsqrt (fadd (fmul x x) (fmul y y))).
  pose proof (fsqrt_wf (fadd (fmul x x) (fmul y y))) as Hwd. fold d in Hwd.
  pose proof (fsub_lt_nonzero _ _ Hwm Hwx Hlt) as Hnz.
  assert (Hcalc : calculate_zoom config x y = zoom_of_distance config d).
  { unfold calculate_zoom. now rewrite distance_of_returns. }
  rewrite Hcalc.
  exists d. split; [apply distance_of_returns|].
  split; [|split; [|split]].
  - intros Hle. unfold zoom_of_distance. now rewrite Hle.
  - intros Hge.
    destruct (ge_not_nan _ _ Hge) as [Hnd Hnx].
    destruct (lt_not_nan _ _ Hlt) as [Hnm _].
    destruct (compare_Float d _ Hwd Hwx Hnd Hnx) as (_ & Hg & _).
    destruct (compare_Float d _ Hwd Hwm Hnd Hnm) as (Hl & _ & _).
    destruct (compare_Float _ _ Hwm Hwx Hnm Hnx) as (_ & _ & Hmx).
    unfold zoom_of_distance. rewrite Hge, Hl.
    rewrite Hg in Hge. rewrite Hmx in Hlt.
    apply Z.leb_le in Hge. apply Z.ltb_lt in Hlt.
    destruct (Z.leb_spec (Vof d) (Vof (min_distance config))); [lia|].
    reflexivity.
  - intros Hle Hge. unfold zoom_of_distance. rewrite Hle, Hge.
    split.
    + unfold interpolate_zoom.
      destruct (float_of_int (max_zoom config - min_zoom config)) as [zrf|];
        [|reflexivity].
      cbn [bind]. unfold fdiv. rewrite Hnz. reflexivity.
    + intros zrf mzf Hzr Hmz.
      rewrite (interpolate_zoom_unfold config d zrf mzf Hzr Hmz Hnz).
      destruct (int_clamp (min_zoom config) (max_zoom config)
                  (Float (raw_zoom config zrf mzf d))) as (z & Hzi & _).
      exists z. split; [exact Hzi|].
      intros t Ht.
      rewrite (clamp_trunc_commute _ _ _ t Hz Ht) in Hzi. congruence.
  - intros z Hzd. now apply (zoom_of_distance_range config d z).
Qed.

Lemma C2_calculate_zoom_witness :
  lt (Float (min_distance default_config))
     (Float (max_distance default_config)) = true
  /\ exists distance,
       distance_of (lit 3000) (lit 0) = Ok distance
       /\ forall z, calculate_zoom default_config (lit 3000) (lit 0) = Ok z ->
                    0 <= z <= 100.
Proof.
  split; [reflexivity|].
  destruct (C2_calculate_zoom default_config (lit 3000) (lit 0))
    as (d & Hd & _ & _ & _ & Hr);
    try reflexivity.
  - simpl. lia.
  - exists d. split; [exact Hd|exact Hr].
Defined.

(** C6.  For a valid configuration [calculate_zoom] does not increase
    with the distance [sqrt(x*x + y*y)]: of two positions, the one whose
    distance is smaller or equal gets a zoom that is greater or equal;
    both calls return as soon as [max_zoom] converts to float. *)
Theorem C6_zoom_monotone (config : CameraConfig)
    (x1 y1 x2 y2 d1 d2 : float) :
  valid_config config = true ->
  distance_of x1 y1 = Ok d1 ->
  distance_of x2 y2 = Ok d2 ->
  le (Float d1) (Float d2) = true ->
  (forall z1 z2,
     calculate_zoom config x1 y1 = Ok z1 ->
     calculate_zoom config x2 y2 = Ok z2 ->
     z2 <= z1)
  /\ (returns (float_of_int (max_zoom config)) = true ->
      exists z1 z2,
        calculate_zoom config x1 y1 = Ok z1
        /\ calculate_zoom config x2 y2 = Ok z2
        /\ z2 <= z1).
Proof.
  intros Hv Hd1 Hd2 Hle.
  unfold valid_config in Hv.
  apply andb_prop in Hv as [Hv Hvz]. apply andb_prop in Hv as [_ H0].
  apply Z.leb_le in H0.
  rewrite distance_of_returns in Hd1, Hd2.
  injection Hd1 as Hd1. injection Hd2 as Hd2.
  assert (Hw1 : wf d1 = true) by (rewrite <- Hd1; apply fsqrt_wf).
  assert (Hw2 : wf d2 = true) by (rewrite <- Hd2; apply fsqrt_wf).
  assert (Hc1 : calculate_zoom config x1 y1 = zoom_of_distance config d1).
  { unfold calculate_zoom. now rewrite distance_of_returns, Hd1. }
  assert (Hc2 : calculate_zoom config x2 y2 = zoom_of_distance config d2).
  { unfold calculate_zoom. now rewrite distance_of_returns, Hd2. }
  rewrite Hc1, Hc2.
  assert (Hmono : forall z1 z2,
            zoom_of_distance config d1 = Ok z1 ->
            zoom_of_distance config d2 = Ok z2 -> z2 <= z1).
  { intros z1 z2. now apply zoom_of_distance_mono. }
  split; [exact Hmono|].
  intros Hmz.
  pose proof Hvz as (_ & _ & _ & Hz)%valid_zoom_config_facts.
  assert (Hdef : zoom_defined config = true).
  { unfold zoom_defined. rewrite Hmz.
    rewrite (float_of_int_le (max_zoom config - min_zoom config)
               (max_zoom config)) by (lia || assumption).
    pose proof (distance_range_positive config Hvz) as Hdr.
    destruct (fsub (max_distance config) (min_distance config));
      try discriminate; reflexivity. }
  destruct (zoom_of_distance_defined config d1 Hdef) as (z1 & Hz1 & _).
  destruct (zoom_of_distance_defined config d2 Hdef) as (z2 & Hz2 & _).
  exists z1, z2. repeat split; try assumption. now apply Hmono.
Qed.

Lemma C6_zoom_monotone_witness :
  valid_config default_config = true
  /\ exists z1 z2,
       calculate_zoom default_config (lit 2000) (lit 0) = Ok z1
       /\ calculate_zoom default_config (lit 0) (lit 3000) = Ok z2
       /\ z2 <= z1.
Proof.
  split; [reflexivity|].
  destruct (C6_zoom_monotone default_config (lit 2000) (lit 0) (lit 0)
              (lit 3000) (lit 2000) (lit 3000))
    as [_ H]; try reflexivity.
  exact (H eq_refl).
Defined.

(** * Further properties *)

(** ** Negation and the arithmetic *)

Lemma binary_round_aux_opp (s : bool) (m e : Z) (l : location) :
  binary_round_aux prec emax (negb s) m e l
  = SFopp (binary_round_aux prec emax s m e l).
Proof.
  unfold binary_round_aux.
  destruct (shr_fexp prec emax m e l) as [mrs' e'].
  destruct (shr_fexp prec emax _ e' loc_Exact) as [mrs'' e''].
  destruct (shr_m mrs''); try reflexivity.
  destruct (e'' <=? emax - prec); reflexivity.
Qed.

Lemma fmul_opp_l (a b : float) : fmul (SFopp a) b = SFopp (fmul a b).
Proof.
  destruct a as [sa|sa| |sa ma ea], b as [sb|sb| |sb mb eb];
    cbn [fmul SFmul SFopp]; rewrite <- ?negb_xorb_l; try reflexivity.
  apply binary_round_aux_opp.
Qed.

Lemma fmul_comm (a b : float) : fmul a b = fmul b a.
Proof.
  destruct a as [sa|sa| |sa ma ea], b as [sb|sb| |sb mb eb];
    cbn [fmul SFmul]; rewrite ?(xorb_comm sa sb); try reflexivity.
  now rewrite Pos.mul_comm, Z.add_comm.
Qed.

Lemma fmul_opp_r (a b : float) : fmul a (SFopp b) = SFopp (fmul a b).
Proof. now rewrite fmul_comm, fmul_opp_l, fmul_comm. Qed.

Lemma SFdiv_opp_l (a b : float) :
  SFdiv prec emax (SFopp a) b = SFopp (SFdiv prec emax a b).
Proof.
  destruct a as [sa|sa| |sa ma ea], b as [sb|sb| |sb mb eb];
    cbn [SFdiv SFopp]; rewrite <- ?negb_xorb_l; try reflexivity.
  destruct (SFdiv_core_binary prec emax (Z.pos ma) ea (Z.pos mb) eb)
    as [[mz ez] lz].
  apply binary_round_aux_opp.
Qed.

Lemma SFopp_involutive (a : float) : SFopp (SFopp a) = a.
Proof.
  destruct a as [s|s| |s m e]; cbn [SFopp]; now rewrite ?negb_involutive.
Qed.

Lemma wf_opp (a : float) : wf (SFopp a) = wf a.
Proof. now destruct a. Qed.

Lemma is_nan_opp (a : float) : is_nan (SFopp a) = is_nan a.
Proof. now destruct a. Qed.

(** Every float is a NaN, has its sign bit clear, or is the negation of
    one whose sign bit is clear. *)
Lemma sign_cases (a : float) :
  is_nan a = true \/ nonneg a = true \/ nonneg (SFopp a) = true.
Proof. destruct a as [[]|[]| |[] m e]; cbn; auto. Qed.

(** The order between a float with the sign bit clear and one with the
    sign bit set holds only between the two zeros. *)
Lemma SFleb_nonneg_neg (a b : float) :
  nonneg a = true -> nonneg (SFopp b) = true -> SFleb a b = true ->
  a = S754_zero false /\ b = S754_zero true.
Proof.
  destruct a as [[]|[]| |[] ma ea], b as [[]|[]| |[] mb eb];
    try discriminate; now split.
Qed.

Lemma SFleb_not_nan (a b : float) :
  SFleb a b = true -> is_nan a = false /\ is_nan b = false.
Proof.
  unfold SFleb.
  destruct a as [sa|sa| |sa ma ea], b as [sb|sb| |sb mb eb];
    try discriminate; now split.
Qed.

Lemma SFleb_trans (a b c : float) :
  wf a = true -> wf b = true -> wf c = true ->
  SFleb a b = true -> SFleb b c = true -> SFleb a c = true.
Proof.
  intros Ha Hb Hc Hab Hbc.
  destruct (SFleb_not_nan _ _ Hab) as [Hna Hnb].
  destruct (SFleb_not_nan _ _ Hbc) as [_ Hnc].
  unfold SFleb in *.
  rewrite SFcompare_Vof in * by assumption.
  destruct (Z.compare_spec (Vof a) (Vof b)); try discriminate;
    destruct (Z.compare_spec (Vof b) (Vof c)); try discriminate;
    destruct (Z.compare_spec (Vof a) (Vof c)); try reflexivity; lia.
Qed.

(** ** Monotone operations on signed operands *)

(** An operation that commutes with negation, keeps the zero and is
    monotone on the operands whose sign bit is clear is monotone on all
    operands. *)
Section SignedMonotone.

Variable f : float -> float.
Hypothesis f_opp : forall a, f (SFopp a) = SFopp (f a).
Hypothesis f_zero : f (S754_zero false) = S754_zero false.
Hypothesis f_shape : forall a,
  wf a = true -> nonneg a = true -> wf (f a) = true /\ nonneg (f a) = true.
Hypothesis f_mono : forall a b,
  wf a = true -> wf b = true -> nonneg a = true -> nonneg b = true ->
  SFleb a b = true -> SFleb (f a) (f b) = true.

Lemma signed_shape (a : float) :
  wf a = true -> is_nan a = false ->
  wf (f a) = true /\ is_nan (f a) = false.
Proof.
  intros Hwf Hnan.
  destruct (sign_cases a) as [H|[H|H]]; [congruence| |].
  - destruct (f_shape a Hwf H) as [Hw Hn]. split; [assumption|].
    now destruct (f a) as [[]|[]| |[] m e].
  - rewrite <- wf_opp in Hwf. destruct (f_shape _ Hwf H) as [Hw Hn].
    rewrite f_opp, wf_opp in Hw. rewrite f_opp in Hn. split; [assumption|].
    now destruct (f a) as [[]|[]| |[] m e].
Qed.

Lemma signed_mono (a b : float) :
  wf a = true -> wf b = true -> SFleb a b = true ->
  SFleb (f a) (f b) = true.
Proof.
  intros Ha Hb Hle.
  destruct (SFleb_not_nan _ _ Hle) as [Hna Hnb].
  destruct (sign_cases a) as [H|[Hsa|Hsa]]; [congruence| |];
    (destruct (sign_cases b) as [H|[Hsb|Hsb]]; [congruence| |]).
  - now apply f_mono.
  - destruct (SFleb_nonneg_neg a b Hsa Hsb Hle) as [-> ->].
    change (S754_zero true) with (SFopp (S754_zero false)).
    now rewrite f_opp, f_zero.
  - replace (f a) with (SFopp (f (SFopp a)))
      by now rewrite f_opp, SFopp_involutive.
    apply SFleb_neg_nonneg.
    + apply f_shape; [now rewrite wf_opp|assumption].
    + now apply f_shape.
  - replace (f a) with (SFopp (f (SFopp a)))
      by now rewrite f_opp, SFopp_involutive.
    replace (f b) with (SFopp (f (SFopp b)))
      by now rewrite f_opp, SFopp_involutive.
    rewrite SFleb_opp.
    apply f_mono; rewrite ?wf_opp; try assumption.
    now rewrite SFleb_opp.
Qed.

End SignedMonotone.

(** Multiplication by a positive finite constant. *)
Lemma fmul_pos_shape (c a : float) :
  is_positive c = true -> wf a = true -> nonneg a = true ->
  wf (fmul a c) = true /\ nonneg (fmul a c) = true.
Proof.
  intros Hc Ha Hna.
  destruct (is_positive_facts c Hc) as (Hwc & Hfc & Hnc & _).
  destruct (nonneg_cases a Hna) as [->|(Hfa & _)].
  - destruct c as [s|s| |[] m e]; try discriminate. now split.
  - rewrite fmul_comm. now apply fmul_shape.
Qed.

Lemma fmul_pos_mono_nonneg (c a b : float) :
  is_positive c = true -> wf a = true -> wf b = true ->
  nonneg a = true -> nonneg b = true ->
  SFleb a b = true -> SFleb (fmul a c) (fmul b c) = true.
Proof.
  intros Hc Ha Hb Hna Hnb Hle.
  destruct (is_positive_facts c Hc) as (Hwc & Hfc & Hnc & _).
  destruct (nonneg_cases b Hnb) as [->|(Hfb & _)].
  - replace (fmul (S754_infinity false) c) with (S754_infinity false)
      by (destruct c as [s|s| |[] m e]; try discriminate; reflexivity).
    apply SFleb_inf_r.
    destruct (fmul_pos_shape c a Hc Ha Hna) as [_ Hn].
    now destruct (fmul a c).
  - destruct (nonneg_cases a Hna) as [->|(Hfa & _)].
    + now rewrite SFleb_pinf_finite in Hle.
    + rewrite (fmul_comm a), (fmul_comm b). now apply fmul_mono.
Qed.

Lemma fmul_pos_zero (c : float) :
  is_positive c = true -> fmul (S754_zero false) c = S754_zero false.
Proof. destruct c as [s|s| |[] m e]; try discriminate; reflexivity. Qed.

Lemma fmul_pos_mono (c a b : float) :
  is_positive c = true -> wf a = true -> wf b = true ->
  SFleb a b = true -> SFleb (fmul a c) (fmul b c) = true.
Proof.
  intros Hc. apply (signed_mono (fun a => fmul a c)).
  - intros a'. apply fmul_opp_l.
  - now apply fmul_pos_zero.
  - intros a'. now apply fmul_pos_shape.
  - intros a' b'. now apply fmul_pos_mono_nonneg.
Qed.

Lemma fmul_pos_wf (c a : float) :
  is_positive c = true -> wf a = true -> is_nan a = false ->
  wf (fmul a c) = true /\ is_nan (fmul a c) = false.
Proof.
  intros Hc. apply (signed_shape (fun a => fmul a c)).
  - intros a'. apply fmul_opp_l.
  - intros a'. now apply fmul_pos_shape.
Qed.

(** Division by a positive finite constant. *)
Lemma fdiv_pos_shape (c a : float) :
  is_positive c = true -> wf a = true -> nonneg a = true ->
  wf (SFdiv prec emax a c) = true /\ nonneg (SFdiv prec emax a c) = true.
Proof.
  intros Hc Ha Hna. destruct c as [s|s| |[] m e]; try discriminate.
  now apply fdiv_shape.
Qed.

Lemma fdiv_pos_mono (c a b : float) :
  is_positive c = true -> wf a = true -> wf b = true ->
  SFleb a b = true ->
  SFleb (SFdiv prec emax a c) (SFdiv prec emax b c) = true.
Proof.
  intros Hc. apply (signed_mono (fun a => SFdiv prec emax a c)).
  - intros a'. apply SFdiv_opp_l.
  - destruct c as [s|s| |[] m e]; try discriminate; reflexivity.
  - intros a'. now apply fdiv_pos_shape.
  - intros a' b' Ha Hb Hna Hnb Hle.
    destruct c as [s|s| |[] m e]; try discriminate.
    now apply fdiv_mono.
Qed.

Lemma fdiv_pos_wf (c a : float) :
  is_positive c = true -> wf a = true -> is_nan a = false ->
  wf (SFdiv prec emax a c) = true /\ is_nan (SFdiv prec emax a c) = false.
Proof.
  intros Hc. apply (signed_shape (fun a => SFdiv prec emax a c)).
  - intros a'. apply SFdiv_opp_l.
  - intros a'. now apply fdiv_pos_shape.
Qed.

(** ** Half extents *)

Lemma lit_2 : lit 2 = S754_finite false 4503599627370496 (-51).
Proof. reflexivity. Qed.

(** Half of a positive extent is positive unless it underflows to zero. *)
Lemma half_extent_positive (w : float) :
  is_positive w = true -> is_zero (half_extent w) = false ->
  is_positive (half_extent w) = true.
Proof.
  intros Hw Hz.
  destruct (is_positive_facts w Hw) as (Hwf & Hf & Hn & Hnz & Hpos & _).
  assert (H2 : wf (lit 2) = true) by reflexivity.
  unfold half_extent in *. rewrite lit_2 in *.
  destruct (fdiv_shape w _ _ Hwf Hn H2) as [Hwh Hnh].
  destruct w as [s|s| |[] m e]; try discriminate.
  rewrite fdiv_exact in * by assumption.
  assert (Hle : SFleb (RND false (Zof (S754_finite false m e) * 2 ^ 2200)
                         (Zof (S754_finite false 4503599627370496 (-51))))
                      (S754_finite false m e) = true).
  { rewrite <- (RNDq_id (S754_finite false m e)) at 2 by assumption.
    unfold RNDq.
    assert (0 < 2 ^ 1126) by (apply pow2_pos; lia).
    destruct (Z.leb_spec 0 (Zof (S754_finite false m e) * 2 ^ 1126)); [|nia].
    assert (0 < 2 ^ 2200) by (apply pow2_pos; lia).
    assert (HZ2 : Zof (S754_finite false 4503599627370496 (-51)) = 2 ^ 1075)
      by reflexivity.
    assert (H22 : 2 ^ 2200 <= 2 ^ 1126 * 2 ^ 1075)
      by (rewrite pow2_add by lia; apply Z.pow_le_mono_r; lia).
    rewrite HZ2. apply RND_mono; nia. }
  destruct (RND false _ _) as [[]|[]| |[] mh eh]; try discriminate.
  exact Hwh.
Qed.

(** ** Angles: order, symmetry, saturation *)

Lemma le_Float (a b : float) : le (Float a) (Float b) = SFleb a b.
Proof. reflexivity. Qed.

(** The call returns exactly when neither half extent is a zero. *)
Lemma calculate_camera_angles_returns (config : CameraConfig) (x y : float)
    (r : num * num) :
  calculate_camera_angles config x y = Ok r ->
  nondegenerate_field config = true.
Proof.
  unfold calculate_camera_angles, nondegenerate_field.
  rewrite !fdiv_two. cbn [bind]. unfold fdiv.
  destruct (is_zero (half_extent (field_width config))); [discriminate|].
  cbn [bind].
  destruct (is_zero (half_extent (field_height config))); [discriminate|].
  reflexivity.
Qed.

Lemma raw_angle_wf (pos extent limit scale : float) :
  is_positive (half_extent extent) = true ->
  is_positive limit = true -> is_positive scale = true ->
  wf pos = true -> is_nan pos = false ->
  wf (raw_angle pos extent limit scale) = true
  /\ is_nan (raw_angle pos extent limit scale) = false.
Proof.
  intros Hh Hl Hs Hw Hn. unfold raw_angle.
  destruct (fdiv_pos_wf _ pos Hh Hw Hn) as [Hw1 Hn1].
  destruct (fmul_pos_wf _ _ Hl Hw1 Hn1) as [Hw2 Hn2].
  now apply fmul_pos_wf.
Qed.

Lemma raw_angle_mono (a b extent limit scale : float) :
  is_positive (half_extent extent) = true ->
  is_positive limit = true -> is_positive scale = true ->
  wf a = true -> wf b = true -> SFleb a b = true ->
  SFleb (raw_angle a extent limit scale) (raw_angle b extent limit scale)
  = true.
Proof.
  intros Hh Hl Hs Ha Hb Hle.
  destruct (SFleb_not_nan _ _ Hle) as [Hna Hnb]. unfold raw_angle.
  destruct (fdiv_pos_wf _ a Hh Ha Hna) as [Hwa1 Hna1].
  destruct (fdiv_pos_wf _ b Hh Hb Hnb) as [Hwb1 Hnb1].
  destruct (fmul_pos_wf _ _ Hl Hwa1 Hna1) as [Hwa2 Hna2].
  destruct (fmul_pos_wf _ _ Hl Hwb1 Hnb1) as [Hwb2 Hnb2].
  apply fmul_pos_mono; try assumption.
  apply fmul_pos_mono; try assumption.
  now apply fdiv_pos_mono.
Qed.

(** The integer sent for a clamped angle does not decrease with the
    position. *)
Lemma clamped_angle_mono (a b extent limit scale : float) (lo hi : Z) :
  lo <= hi ->
  is_positive (half_extent extent) = true ->
  is_positive limit = true -> is_positive scale = true ->
  wf a = true -> wf b = true -> SFleb a b = true ->
  exists za zb,
    int (clamp lo hi (Float (raw_angle a extent limit scale))) = Ok za
    /\ int (clamp lo hi (Float (raw_angle b extent limit scale))) = Ok zb
    /\ za <= zb.
Proof.
  intros Hlh Hh Hl Hs Ha Hb Hle.
  destruct (SFleb_not_nan _ _ Hle) as [Hna Hnb].
  destruct (int_clamp lo hi (Float (raw_angle a extent limit scale)))
    as (za & Hza & _).
  destruct (int_clamp lo hi (Float (raw_angle b extent limit scale)))
    as (zb & Hzb & _).
  exists za, zb. split; [assumption|]. split; [assumption|].
  eapply (int_clamp_mono lo hi _ _ zb za Hlh); [| | |exact Hza|exact Hzb].
  - now apply raw_angle_wf.
  - now apply raw_angle_wf.
  - now apply raw_angle_mono.
Qed.

Lemma valid_config_fields (config : CameraConfig) :
  valid_config config = true ->
  is_positive (field_width config) = true
  /\ is_positive (field_height config) = true
  /\ is_positive (pan_scale config) = true
  /\ is_positive (tilt_scale config) = true
  /\ 0 <= min_zoom config
  /\ valid_zoom_config config = true.
Proof.
  unfold valid_config. rewrite !andb_true_iff, Z.leb_le. tauto.
Qed.

Lemma nondegenerate_positive (config : CameraConfig) :
  valid_config config = true -> nondegenerate_field config = true ->
  is_positive (half_extent (field_width config)) = true
  /\ is_positive (half_extent (field_height config)) = true.
Proof.
  intros (Hw & Hh & _)%valid_config_fields.
  unfold nondegenerate_field. rewrite andb_true_iff, !negb_true_iff.
  intros [Hzw Hzh]. split; now apply half_extent_positive.
Qed.

(** X1.  For a valid configuration the pan sent to the gimbal does not
    decrease when the ball moves to greater x, and the tilt does not
    decrease when it moves to greater y: of two positions for which
    [calculate_camera_angles] returns, the one with the smaller or equal
    coordinate gets the smaller or equal integer angle. *)
Theorem angles_monotone (config : CameraConfig) (x1 y1 x2 y2 : float)
    (pan1 tilt1 pan2 tilt2 : num) :
  valid_config config = true ->
  wf x1 = true -> wf y1 = true -> wf x2 = true -> wf y2 = true ->
  calculate_camera_angles config x1 y1 = Ok (pan1, tilt1) ->
  calculate_camera_angles config x2 y2 = Ok (pan2, tilt2) ->
  exists p1 t1 p2 t2,
    int pan1 = Ok p1 /\ int tilt1 = Ok t1
    /\ int pan2 = Ok p2 /\ int tilt2 = Ok t2
    /\ (le (Float x1) (Float x2) = true -> p1 <= p2)
    /\ (le (Float y1) (Float y2) = true -> t1 <= t2).
Proof.
  intros Hv Hx1 Hy1 Hx2 Hy2 H1 H2.
  pose proof (calculate_camera_angles_returns _ _ _ _ H1) as Hnd.
  destruct (nondegenerate_positive config Hv Hnd) as [Hhw Hhh].
  destruct (valid_config_fields config Hv) as (_ & _ & Hps & Hts & _).
  rewrite (calculate_camera_angles_defined config _ _ Hnd) in H1.
  rewrite (calculate_camera_angles_defined config _ _ Hnd) in H2.
  injection H1 as <- <-. injection H2 as <- <-.
  destruct (int_clamp (-129) 129
    (Float (raw_angle x1 (field_width config) (lit 129) (pan_scale config))))
    as (p1 & Hp1 & _).
  destruct (int_clamp (-59) 59
    (Float (raw_angle y1 (field_height config) (lit 59) (tilt_scale config))))
    as (t1 & Ht1 & _).
  destruct (int_clamp (-129) 129
    (Float (raw_angle x2 (field_width config) (lit 129) (pan_scale config))))
    as (p2 & Hp2 & _).
  destruct (int_clamp (-59) 59
    (Float (raw_angle y2 (field_height config) (lit 59) (tilt_scale config))))
    as (t2 & Ht2 & _).
  exists p1, t1, p2, t2. repeat (split; [assumption|]). split.
  - rewrite le_Float. intros Hle.
    destruct (clamped_angle_mono x1 x2 (field_width config) (lit 129)
                (pan_scale config) (-129) 129)
      as (za & zb & Hza & Hzb & Hord); try assumption; try reflexivity.
    lia. congruence.
  - rewrite le_Float. intros Hle.
    destruct (clamped_angle_mono y1 y2 (field_height config) (lit 59)
                (tilt_scale config) (-59) 59)
      as (za & zb & Hza & Hzb & Hord); try assumption; try reflexivity.
    lia. congruence.
Qed.

Lemma angles_monotone_witness :
  calculate_camera_angles default_config (lit 100) (lit (-100))
  = Ok (Float (dec 43 10), Float (dec (-295) 100))
  /\ calculate_camera_angles default_config (lit 3000) (lit 0)
     = Ok (Int 129, Float (lit 0))
  /\ exists p1 t1 p2 t2,
       int (Float (dec 43 10)) = Ok p1 /\ int (Float (dec (-295) 100)) = Ok t1
       /\ int (Int 129) = Ok p2 /\ int (Float (lit 0)) = Ok t2
       /\ p1 <= p2 /\ t1 <= t2.
Proof.
  split; [reflexivity|]. split; [reflexivity|].
  destruct (angles_monotone default_config (lit 100) (lit (-100))
              (lit 3000) (lit 0) (Float (dec 43 10)) (Float (dec (-295) 100))
              (Int 129) (Float (lit 0))
              eq_refl eq_refl eq_refl eq_refl eq_refl eq_refl eq_refl)
    as (p1 & t1 & p2 & t2 & Hp1 & Ht1 & Hp2 & Ht2 & Hp & Ht).
  exists p1, t1, p2, t2.
  repeat (split; [assumption|]).
  split; [now apply Hp|now apply Ht].
Defined.

(** *** Mirrored positions *)

Lemma raw_angle_opp (pos extent limit scale : float) :
  raw_angle (SFopp pos) extent limit scale
  = SFopp (raw_angle pos extent limit scale).
Proof. unfold raw_angle. now rewrite SFdiv_opp_l, !fmul_opp_l. Qed.

Lemma smant_negb (s : bool) (m : positive) : smant (negb s) m = - smant s m.
Proof. destruct s; cbn; lia. Qed.

Lemma Zcompare_float_opp (z : Z) (f : float) :
  Zcompare_float (- z) (SFopp f) = option_opp (Zcompare_float z f).
Proof.
  destruct f as [s|s| |s m e]; cbn [Zcompare_float SFopp option_opp].
  - f_equal. change 0 with (- 0) at 1.
    now rewrite Z.compare_opp, Z.compare_antisym.
  - now destruct s.
  - reflexivity.
  - f_equal. rewrite smant_negb. destruct (0 <=? e).
    + now rewrite Z.mul_opp_l, Z.compare_opp, Z.compare_antisym.
    + now rewrite Z.mul_opp_l, Z.compare_opp, Z.compare_antisym.
Qed.

Lemma option_opp_involutive (c : option comparison) :
  option_opp (option_opp c) = c.
Proof. destruct c as [[]|]; reflexivity. Qed.

Lemma lt_opp (f : float) (z : Z) :
  lt (Float (SFopp f)) (Int z) = gt (Float f) (Int (- z)).
Proof.
  unfold lt, gt. cbn [num_compare].
  rewrite <- (Z.opp_involutive z) at 1.
  rewrite Zcompare_float_opp, option_opp_involutive.
  now destruct (Zcompare_float (- z) f) as [[]|].
Qed.

Lemma gt_opp (f : float) (z : Z) :
  gt (Float (SFopp f)) (Int z) = lt (Float f) (Int (- z)).
Proof.
  unfold lt, gt. cbn [num_compare].
  rewrite <- (Z.opp_involutive z) at 1.
  rewrite Zcompare_float_opp, option_opp_involutive.
  now destruct (Zcompare_float (- z) f) as [[]|].
Qed.

Lemma int_of_float_opp (f : float) (z : Z) :
  int_of_float f = Ok z -> int_of_float (SFopp f) = Ok (- z).
Proof.
  destruct f as [s|s| |s m e]; cbn [int_of_float SFopp]; try discriminate.
  - now intros [= <-].
  - intros [= <-]. f_equal. rewrite smant_negb.
    destruct (Z.leb_spec 0 e).
    + now rewrite Z.mul_opp_l.
    + apply Z.quot_opp_l. apply Z.pow_nonzero; lia.
Qed.

(** A float that is not below the upper bound is above any smaller
    lower bound. *)
Lemma not_lt_gt (f : float) (lo hi : Z) :
  is_nan f = false -> lo < hi ->
  lt (Float f) (Int hi) = false -> gt (Float f) (Int lo) = true.
Proof.
  intros Hn Hlh. unfold lt, gt. cbn [num_compare].
  destruct f as [s|s| |s m e]; try discriminate;
    cbn [Zcompare_float option_opp].
  - destruct (Z.compare_spec hi 0), (Z.compare_spec lo 0);
      cbn; try discriminate; try reflexivity; lia.
  - now destruct s.
  - destruct (Z.leb_spec 0 e).
    + destruct (Z.compare_spec hi (smant s m * 2 ^ e)),
               (Z.compare_spec lo (smant s m * 2 ^ e));
        cbn; try discriminate; try reflexivity; lia.
    + assert (0 < 2 ^ (- e)) by (apply Z.pow_pos_nonneg; lia).
      destruct (Z.compare_spec (hi * 2 ^ (- e)) (smant s m)),
               (Z.compare_spec (lo * 2 ^ (- e)) (smant s m));
        cbn; try discriminate; try reflexivity; nia.
Qed.

(** Clamping to a symmetric range commutes with negation, NaN apart. *)
Lemma int_clamp_opp (hi : Z) (f : float) (z : Z) :
  0 < hi -> is_nan f = false ->
  int (clamp (- hi) hi (Float f)) = Ok z ->
  int (clamp (- hi) hi (Float (SFopp f))) = Ok (- z).
Proof.
  intros Hhi Hn Hz.
  assert (Hgt : gt (Int hi) (Int (- hi)) = true).
  { unfold gt. cbn [num_compare].
    destruct (Z.compare_spec hi (- hi)); auto; lia. }
  unfold clamp, max, min in *.
  rewrite lt_opp.
  destruct (lt (Float f) (Int hi)) eqn:Hlt.
  - rewrite <- (Z.opp_involutive hi) in Hlt at 1.
    destruct (gt (Float f) (Int (- hi))) eqn:Hg.
    + rewrite gt_opp, Hlt. cbn [int] in *. now apply int_of_float_opp.
    + rewrite Hgt. cbn [int] in *. injection Hz as <-. f_equal. lia.
  - rewrite (not_lt_gt f (- hi) hi Hn ltac:(lia) Hlt).
    rewrite Hgt in Hz. cbn [int] in Hz. injection Hz as <-.
    rewrite gt_opp, Z.opp_involutive, Hlt. reflexivity.
Qed.

(** A NaN angle is clamped to the upper bound. *)
Lemma int_clamp_nan (lo hi : Z) :
  int (clamp lo hi (Float S754_nan)) = Ok (Z.max lo hi).
Proof.
  unfold clamp, max, min, lt, gt. cbn.
  destruct (Z.compare_spec hi lo); cbn; f_equal; lia.
Qed.

(** What a tick that dispatched a command has computed. *)
Lemma tick_dispatched (config : CameraConfig) (x y c : float) (p t z : Z) :
  tick config (Some (x, y, c)) = Ok [set_gim_motor_degree p t; set_zoom z] ->
  should_track c = true
  /\ exists pan tilt,
       calculate_camera_angles config x y = Ok (pan, tilt)
       /\ calculate_zoom config x y = Ok z
       /\ int pan = Ok p /\ int tilt = Ok t.
Proof.
  cbn [tick]. destruct (should_track c); [|discriminate].
  destruct (calculate_camera_angles config x y) as [[pan tilt]|e];
    [|discriminate].
  destruct (calculate_zoom config x y) as [z'|e]; [|discriminate].
  cbn [bind fst snd]. unfold move_camera.
  destruct (int pan) as [p'|e] eqn:Hp; [|discriminate].
  destruct (int tilt) as [t'|e] eqn:Ht; [|discriminate].
  cbn [bind]. intros [= -> -> ->].
  split; [reflexivity|]. now exists pan, tilt.
Qed.

(** *** The distance does not see signs or the order of the axes *)

Lemma fadd_comm (a b : float) : fadd a b = fadd b a.
Proof.
  destruct a as [[]|[]| |sa ma ea], b as [[]|[]| |sb mb eb];
    try reflexivity.
  unfold fadd, SFadd. now rewrite (Z.min_comm eb ea), Z.add_comm.
Qed.

Lemma fmul_opp_opp (a : float) : fmul (SFopp a) (SFopp a) = fmul a a.
Proof. now rewrite fmul_opp_l, fmul_opp_r, SFopp_involutive. Qed.

Lemma distance_of_symmetric (x y : float) :
  distance_of y x = distance_of x y
  /\ distance_of (SFopp x) y = distance_of x y
  /\ distance_of x (SFopp y) = distance_of x y.
Proof.
  unfold distance_of. rewrite !fmul_opp_opp.
  now rewrite (fadd_comm (fmul y y)).
Qed.

(** X5.  The zoom depends on the position only through the squares of
    the coordinates: exchanging x and y, or negating either of them,
    changes neither the value returned nor an exception raised. *)
Theorem zoom_symmetric (config : CameraConfig) (x y : float) :
  calculate_zoom config y x = calculate_zoom config x y
  /\ calculate_zoom config (SFopp x) y = calculate_zoom config x y
  /\ calculate_zoom config x (SFopp y) = calculate_zoom config x y
  /\ calculate_zoom config (SFopp x) (SFopp y) = calculate_zoom config x y.
Proof.
  unfold calculate_zoom.
  destruct (distance_of_symmetric x y) as (-> & -> & ->).
  destruct (distance_of_symmetric (SFopp x) y) as (_ & _ & ->).
  destruct (distance_of_symmetric x y) as (_ & -> & _).
  now repeat split.
Qed.

(** X2.  The transform is point symmetric about the field centre: when
    a tick on the position (x, y) dispatches pan p, tilt t and zoom z,
    and neither angle is a NaN before clamping, the tick on the mirrored
    position (-x, -y) dispatches pan -p, tilt -t and the same zoom. *)
Theorem tick_point_symmetric (config : CameraConfig) (x y c : float)
    (p t z : Z) :
  is_nan (raw_angle x (field_width config) (lit 129) (pan_scale config))
  = false ->
  is_nan (raw_angle y (field_height config) (lit 59) (tilt_scale config))
  = false ->
  tick config (Some (x, y, c)) = Ok [set_gim_motor_degree p t; set_zoom z] ->
  tick config (Some (SFopp x, SFopp y, c))
  = Ok [set_gim_motor_degree (- p) (- t); set_zoom z].
Proof.
  intros Hnx Hny Htick.
  destruct (tick_dispatched _ _ _ _ _ _ _ Htick)
    as (Hc & pan & tilt & Hang & Hzoom & Hp & Ht).
  pose proof (calculate_camera_angles_returns _ _ _ _ Hang) as Hnd.
  rewrite (calculate_camera_angles_defined config _ _ Hnd) in Hang.
  injection Hang as <- <-.
  cbn [tick]. rewrite Hc.
  rewrite (calculate_camera_angles_defined config _ _ Hnd).
  destruct (zoom_symmetric config x y) as (_ & _ & _ & ->). rewrite Hzoom.
  cbn [bind fst snd]. unfold move_camera. rewrite !raw_angle_opp.
  pose proof (int_clamp_opp 129 _ p ltac:(lia) Hnx Hp) as Hp'.
  pose proof (int_clamp_opp 59 _ t ltac:(lia) Hny Ht) as Ht'.
  change (- (129)) with (-129) in Hp'. change (- (59)) with (-59) in Ht'.
  now rewrite Hp', Ht'.
Qed.

Lemma tick_point_symmetric_witness :
  tick default_config (Some (lit 100, lit (-100), dec 9 10))
  = Ok [set_gim_motor_degree 4 (-2); set_zoom 100]
  /\ tick default_config (Some (SFopp (lit 100), SFopp (lit (-100)), dec 9 10))
     = Ok [set_gim_motor_degree (-4) 2; set_zoom 100].
Proof.
  split; [reflexivity|].
  exact (tick_point_symmetric default_config (lit 100) (lit (-100)) (dec 9 10)
           4 (-2) 100 eq_refl eq_refl eq_refl).
Defined.

(** *** Saturation at the field edge *)

Lemma fdiv_self (h : float) :
  is_positive h = true -> SFdiv prec emax h h = lit 1.
Proof.
  intros Hh. destruct (is_positive_facts h Hh) as (Hwf & _ & _ & _ & Hpos & _).
  destruct h as [s|s| |[] m e]; try discriminate.
  rewrite fdiv_exact by assumption.
  rewrite <- (Z.mul_1_l (Zof (S754_finite false m e))) at 2.
  rewrite (Z.mul_comm (Zof _) (2 ^ 2200)).
  rewrite RND_scale by lia.
  vm_compute. reflexivity.
Qed.

(** A float at or above the upper bound is clamped to it. *)
Lemma clamp_above (lo hi : Z) (c f : float) :
  lo < hi -> wf c = true -> finite_or_zero c = true ->
  Zof c = hi * 2 ^ 1074 ->
  wf f = true -> SFleb c f = true ->
  clamp lo hi (Float f) = Int hi.
Proof.
  intros Hlh Hwc Hfc Hc Hwf Hle.
  destruct (SFleb_not_nan _ _ Hle) as [Hnc Hnf].
  assert (Hlt : lt (Float f) (Int hi) = false).
  { destruct (lt (Float f) (Int hi)) eqn:Hlt; [|reflexivity].
    apply (lt_Float_Int f hi Hwf) in Hlt.
    unfold SFleb in Hle. rewrite SFcompare_Vof in Hle by assumption.
    destruct (finite_or_zero_Vof c Hfc) as [Hvc _]. rewrite Hvc, Hc in Hle.
    pose proof BIG_pos.
    assert (- BIG < hi * 2 ^ 1074)
      by (rewrite <- Hc; now apply Zof_bound).
    destruct Hlt as [->|[Hff Hlt]].
    - cbn [Vof] in Hle.
      destruct (Z.compare_spec (hi * 2 ^ 1074) (- BIG)); try discriminate; lia.
    - destruct (finite_or_zero_Vof f Hff) as [Hvf _]. rewrite Hvf in Hle.
      destruct (Z.compare_spec (hi * 2 ^ 1074) (Zof f)); try discriminate;
        lia. }
  unfold clamp, max, min. rewrite Hlt.
  unfold gt. cbn [num_compare].
  destruct (Z.compare_spec hi lo); try reflexivity; lia.
Qed.

Lemma lit_129_facts :
  is_positive (lit 129) = true /\ Zof (lit 129) = 129 * 2 ^ 1074
  /\ fmul (lit 1) (lit 129) = lit 129.
Proof. repeat split; vm_compute; reflexivity. Qed.

Lemma lit_59_facts :
  is_positive (lit 59) = true /\ Zof (lit 59) = 59 * 2 ^ 1074
  /\ fmul (lit 1) (lit 59) = lit 59.
Proof. repeat split; vm_compute; reflexivity. Qed.

(** At or beyond the half extent, with a scale of at least one, the
    angle before clamping is at or beyond the limit. *)
Lemma raw_angle_saturates (x extent limit scale : float) :
  is_positive (half_extent extent) = true ->
  is_positive limit = true -> is_positive scale = true ->
  fmul (lit 1) limit = limit ->
  wf x = true ->
  SFleb (half_extent extent) x = true ->
  SFleb (lit 1) scale = true ->
  wf (raw_angle x extent limit scale) = true
  /\ SFleb limit (raw_angle x extent limit scale) = true.
Proof.
  intros Hh Hl Hs H1 Hx Hle Hsc.
  destruct (SFleb_not_nan _ _ Hle) as [_ Hnx].
  destruct (raw_angle_wf x extent limit scale Hh Hl Hs Hx Hnx) as [Hwr _].
  split; [assumption|]. unfold raw_angle in *.
  destruct (is_positive_facts _ Hh) as (Hwh & _).
  destruct (is_positive_facts _ Hl) as (Hwl & _).
  destruct (is_positive_facts _ Hs) as (Hws & _).
  destruct (fdiv_pos_wf _ x Hh Hx Hnx) as [Hw1 Hn1].
  destruct (fmul_pos_wf _ _ Hl Hw1 Hn1) as [Hw2 Hn2].
  assert (S1 : SFleb (lit 1) (SFdiv prec emax x (half_extent extent)) = true).
  { rewrite <- (fdiv_self _ Hh). now apply fdiv_pos_mono. }
  assert (S2 : SFleb limit
                 (fmul (SFdiv prec emax x (half_extent extent)) limit) = true).
  { rewrite <- H1 at 1. now apply fmul_pos_mono. }
  assert (S3 : SFleb (fmul limit scale)
                 (fmul (fmul (SFdiv prec emax x (half_extent extent)) limit)
                    scale) = true)
    by now apply fmul_pos_mono.
  assert (S4 : SFleb limit (fmul limit scale) = true).
  { rewrite <- H1 at 1. rewrite (fmul_comm limit scale).
    now apply fmul_pos_mono. }
  apply (SFleb_trans limit (fmul limit scale)); try assumption.
  apply fmul_pos_wf; try assumption. now destruct limit.
Qed.

Lemma clamped_angle_saturates (x extent limit scale : float) (hi : Z) :
  0 < hi ->
  is_positive (half_extent extent) = true ->
  is_positive limit = true -> is_positive scale = true ->
  fmul (lit 1) limit = limit -> Zof limit = hi * 2 ^ 1074 ->
  wf x = true -> SFleb (lit 1) scale = true ->
  (SFleb (half_extent extent) x = true ->
   int (clamp (- hi) hi (Float (raw_angle x extent limit scale))) = Ok hi)
  /\ (SFleb x (SFopp (half_extent extent)) = true ->
      int (clamp (- hi) hi (Float (raw_angle x extent limit scale)))
      = Ok (- hi)).
Proof.
  intros Hhi Hh Hl Hs H1 HZ Hx Hsc.
  destruct (is_positive_facts _ Hl) as (Hwl & Hfl & _).
  assert (Hup : forall x', wf x' = true ->
            SFleb (half_extent extent) x' = true ->
            int (clamp (- hi) hi (Float (raw_angle x' extent limit scale)))
            = Ok hi).
  { intros x' Hx' Hle.
    destruct (raw_angle_saturates x' extent limit scale) as [Hwr Hge];
      try assumption.
    now rewrite (clamp_above (- hi) hi limit _ ltac:(lia) Hwl Hfl HZ Hwr Hge). }
  split; [now apply Hup|].
  intros Hle.
  rewrite <- (SFopp_involutive x), raw_angle_opp.
  apply int_clamp_opp; [assumption| |].
  - destruct (raw_angle_saturates (SFopp x) extent limit scale)
      as [_ Hge]; try assumption.
    + now rewrite wf_opp.
    + now rewrite <- (SFopp_involutive (half_extent extent)), SFleb_opp.
    + now destruct (SFleb_not_nan _ _ Hge).
  - apply Hup; [now rewrite wf_opp|].
    now rewrite <- (SFopp_involutive (half_extent extent)), SFleb_opp.
Qed.

(** X3.  For a valid configuration whose pan scale is at least 1, a
    ball at or beyond the right edge of the field (x >= field_width/2)
    is sent pan 129 and a ball at or beyond the left edge pan -129; with
    a tilt scale of at least 1 the same holds for y, field_height/2 and
    the tilt 59. *)
Theorem edge_saturation (config : CameraConfig) (x y : float)
    (pan tilt : num) :
  valid_config config = true -> wf x = true -> wf y = true ->
  calculate_camera_angles config x y = Ok (pan, tilt) ->
  (le (Float (lit 1)) (Float (pan_scale config)) = true ->
   (le (Float (half_extent (field_width config))) (Float x) = true ->
    int pan = Ok 129)
   /\ (le (Float x) (Float (SFopp (half_extent (field_width config)))) = true ->
       int pan = Ok (-129)))
  /\ (le (Float (lit 1)) (Float (tilt_scale config)) = true ->
      (le (Float (half_extent (field_height config))) (Float y) = true ->
       int tilt = Ok 59)
      /\ (le (Float y) (Float (SFopp (half_extent (field_height config))))
          = true ->
          int tilt = Ok (-59))).
Proof.
  intros Hv Hx Hy Hang.
  pose proof (calculate_camera_angles_returns _ _ _ _ Hang) as Hnd.
  destruct (nondegenerate_positive config Hv Hnd) as [Hhw Hhh].
  destruct (valid_config_fields config Hv) as (_ & _ & Hps & Hts & _).
  rewrite (calculate_camera_angles_defined config _ _ Hnd) in Hang.
  injection Hang as <- <-.
  destruct lit_129_facts as (Hp129 & HZ129 & H129).
  destruct lit_59_facts as (Hp59 & HZ59 & H59).
  rewrite !le_Float. split; intros Hsc.
  - exact (clamped_angle_saturates x (field_width config) (lit 129)
             (pan_scale config) 129 ltac:(lia) Hhw Hp129 Hps H129 HZ129
             Hx Hsc).
  - exact (clamped_angle_saturates y (field_height config) (lit 59)
             (tilt_scale config) 59 ltac:(lia) Hhh Hp59 Hts H59 HZ59
             Hy Hsc).
Qed.

Lemma edge_saturation_witness :
  calculate_camera_angles default_config (lit 3500) (lit (-2000))
  = Ok (Int 129, Int (-59))
  /\ int (Int 129) = Ok 129 /\ int (Int (-59)) = Ok (-59).
Proof.
  split; [reflexivity|].
  destruct (edge_saturation default_config (lit 3500) (lit (-2000))
              (Int 129) (Int (-59)) eq_refl eq_refl eq_refl eq_refl)
    as [Hpan Htilt].
  split.
  - now apply (Hpan eq_refl).
  - now apply (Htilt eq_refl).
Defined.

(** *** A NaN coordinate *)

Lemma raw_angle_nan (pos extent limit scale : float) :
  is_nan pos = true -> raw_angle pos extent limit scale = S754_nan.
Proof. destruct pos; try discriminate. reflexivity. Qed.

Lemma distance_of_nan (x y : float) :
  is_nan x = true \/ is_nan y = true -> distance_of x y = Ok S754_nan.
Proof.
  intros [H|H]; [destruct x|destruct y]; try discriminate.
  - reflexivity.
  - unfold distance_of. cbn [fmul SFmul].
    replace (fadd (fmul x x) S754_nan) with S754_nan
      by now destruct (fmul x x).
    reflexivity.
Qed.

Lemma zoom_of_distance_nan (config : CameraConfig) :
  zoom_defined config = true ->
  zoom_of_distance config S754_nan
  = Ok (Z.max (min_zoom config) (max_zoom config)).
Proof.
  unfold zoom_defined. rewrite !andb_true_iff, negb_true_iff.
  intros [[Hr Hm] Hz].
  unfold zoom_of_distance. cbn [le ge num_compare SFcompare].
  unfold interpolate_zoom.
  destruct (float_of_int (max_zoom config - min_zoom config)) as [zrf|];
    [|discriminate].
  destruct (float_of_int (max_zoom config)) as [mzf|]; [|discriminate].
  cbn [bind]. unfold fdiv. rewrite Hz. cbn [bind].
  replace (fsub S754_nan (min_distance config)) with S754_nan by reflexivity.
  replace (fmul zrf S754_nan) with S754_nan by now destruct zrf.
  cbn [SFdiv].
  replace (fsub mzf S754_nan) with S754_nan by now destruct mzf.
  apply int_clamp_nan.
Qed.

(** X4.  A NaN coordinate is not rejected.  With a configuration whose
    arithmetic is defined, a tracked detection whose x or y is a NaN
    still moves the camera: the zoom sent is the greater of the two zoom
    bounds, a NaN x is sent as pan 129 and a NaN y as tilt 59. *)
Theorem nan_position_tracked (config : CameraConfig) (x y c : float) :
  transforms_defined config = true ->
  should_track c = true ->
  is_nan x = true \/ is_nan y = true ->
  exists p t,
    tick config (Some (x, y, c))
    = Ok [set_gim_motor_degree p t;
          set_zoom (Z.max (min_zoom config) (max_zoom config))]
    /\ (is_nan x = true -> p = 129)
    /\ (is_nan y = true -> t = 59).
Proof.
  unfold transforms_defined. rewrite andb_true_iff.
  intros [Hnd Hzd] Hc Hnan.
  cbn [tick]. rewrite Hc.
  rewrite (calculate_camera_angles_defined config _ _ Hnd).
  unfold calculate_zoom. rewrite (distance_of_nan x y Hnan).
  cbn [bind fst snd]. rewrite (zoom_of_distance_nan config Hzd).
  cbn [bind fst snd].
  destruct (move_camera_clamped (-129) 129 (-59) 59
    (Float (raw_angle x (field_width config) (lit 129) (pan_scale config)))
    (Float (raw_angle y (field_height config) (lit 59) (tilt_scale config)))
    (Z.max (min_zoom config) (max_zoom config))) as (p & t & Hp & Ht & ->).
  exists p, t. split; [reflexivity|]. split; intros H.
  - rewrite raw_angle_nan, int_clamp_nan in Hp by assumption.
    now injection Hp as <-.
  - rewrite raw_angle_nan, int_clamp_nan in Ht by assumption.
    now injection Ht as <-.
Qed.

Lemma nan_position_tracked_witness :
  exists p t,
    tick default_config (Some (S754_nan, lit 0, dec 9 10))
    = Ok [set_gim_motor_degree p t; set_zoom 100]
    /\ (is_nan S754_nan = true -> p = 129)
    /\ (is_nan (lit 0) = true -> t = 59).
Proof.
  apply (nan_position_tracked default_config S754_nan (lit 0) (dec 9 10));
    [reflexivity|reflexivity|now left].
Defined.

(** ** The detection source and the gate *)

Lemma gt_Float (a b : float) :
  wf a = true -> wf b = true -> is_nan a = false -> is_nan b = false ->
  gt (Float a) (Float b) = (Vof b <? Vof a).
Proof.
  intros Ha Hb Hna Hnb. rewrite gt_lt.
  now destruct (compare_Float b a Hb Ha Hnb Hna) as (_ & _ & ->).
Qed.

(** The selection keeps a ball of the frame that no earlier ball equals
    and no later ball exceeds in confidence. *)
Lemma most_confident_split (seen : list ball) (best : ball)
    (others : list ball) :
  (forall b, In b (seen ++ others) ->
     wf (ball_confidence b) = true /\ is_nan (ball_confidence b) = false) ->
  (exists pre post,
     seen = pre ++ best :: post
     /\ (forall b, In b pre ->
           Vof (ball_confidence b) < Vof (ball_confidence best))
     /\ (forall b, In b post ->
           Vof (ball_confidence b) <= Vof (ball_confidence best))) ->
  exists pre post,
    seen ++ others = pre ++ most_confident best others :: post
    /\ (forall b, In b pre ->
          Vof (ball_confidence b)
          < Vof (ball_confidence (most_confident best others)))
    /\ (forall b, In b post ->
          Vof (ball_confidence b)
          <= Vof (ball_confidence (most_confident best others))).
Proof.
  revert seen best.
  induction others as [|b others IH]; intros seen best Hwf Hinv.
  - rewrite app_nil_r. exact Hinv.
  - destruct Hinv as (pre & post & -> & Hpre & Hpost).
    assert (Hb : wf (ball_confidence b) = true
                 /\ is_nan (ball_confidence b) = false)
      by (apply Hwf; rewrite in_app_iff; right; now left).
    assert (Hbest : wf (ball_confidence best) = true
                    /\ is_nan (ball_confidence best) = false)
      by (apply Hwf; rewrite !in_app_iff; left; right; now left).
    destruct Hb as [Hwb Hnb], Hbest as [Hwbest Hnbest].
    unfold most_confident. cbn [fold_left].
    rewrite (gt_Float _ _ Hwb Hwbest Hnb Hnbest).
    replace ((pre ++ best :: post) ++ b :: others)
      with (((pre ++ best :: post) ++ [b]) ++ others)
      by now rewrite <- app_assoc.
    destruct (Z.ltb_spec (Vof (ball_confidence best))
                (Vof (ball_confidence b))) as [Hlt|Hge].
    + apply IH.
      * intros b' Hin. apply Hwf. now rewrite <- app_assoc in Hin.
      * exists (pre ++ best :: post), []. split; [reflexivity|].
        split; [|intros b' []].
        intros b' [Hin|[<-|Hin]]%in_app_iff.
        -- specialize (Hpre b' Hin). lia.
        -- assumption.
        -- specialize (Hpost b' Hin). lia.
    + apply IH.
      * intros b' Hin. apply Hwf. now rewrite <- app_assoc in Hin.
      * exists pre, (post ++ [b]). split; [now rewrite <- app_assoc|].
        split; [assumption|].
        intros b' [Hin|[<-|[]]]%in_app_iff; [now apply Hpost|assumption].
Qed.

Lemma most_confident_In (first : ball) (others : list ball) :
  In (most_confident first others) (first :: others).
Proof.
  revert first. induction others as [|b others IH]; intros first.
  - now left.
  - unfold most_confident. cbn [fold_left].
    destruct (gt _ _).
    + right. apply IH.
    + destruct (IH first) as [H|H]; [now left|right; now right].
Qed.

(** X6.  [receive_ssl_frame] selects the most confident ball of the
    frame, the earliest one among equals: when no confidence is a NaN,
    every ball before the selected one in the frame has a strictly
    smaller confidence and every ball after it a smaller or equal one. *)
Theorem most_confident_maximal (first : ball) (others : list ball) :
  (forall b, In b (first :: others) ->
     wf (ball_confidence b) = true /\ is_nan (ball_confidence b) = false) ->
  let best := most_confident first others in
  receive_ssl_frame (Frame (first :: others))
  = ([], Some (ball_x best, ball_y best, ball_confidence best))
  /\ exists pre post,
       first :: others = pre ++ best :: post
       /\ (forall b, In b pre ->
             lt (Float (ball_confidence b)) (Float (ball_confidence best))
             = true)
       /\ (forall b, In b post ->
             le (Float (ball_confidence b)) (Float (ball_confidence best))
             = true).
Proof.
  intros Hwf best. split; [reflexivity|].
  destruct (most_confident_split [first] first others Hwf)
    as (pre & post & Heq & Hpre & Hpost).
  { exists [], []. split; [reflexivity|]. split; intros b []. }
  assert (Hbest : wf (ball_confidence best) = true
                  /\ is_nan (ball_confidence best) = false)
    by (apply Hwf, most_confident_In).
  destruct Hbest as [Hwb Hnb].
  exists pre, post. split; [exact Heq|].
  assert (Hall : forall b, In b (pre ++ best :: post) ->
            wf (ball_confidence b) = true
            /\ is_nan (ball_confidence b) = false).
  { intros b Hin. apply Hwf. fold best in Heq. cbn [app] in Heq.
    now rewrite Heq. }
  split; intros b Hin.
  - destruct (Hall b) as [Hw Hn]; [rewrite in_app_iff; now left|].
    destruct (compare_Float _ _ Hw Hwb Hn Hnb) as (_ & _ & ->).
    apply Z.ltb_lt. now apply Hpre.
  - destruct (Hall b) as [Hw Hn]; [rewrite in_app_iff; right; now right|].
    destruct (compare_Float _ _ Hw Hwb Hn Hnb) as (-> & _ & _).
    apply Z.leb_le. now apply Hpost.
Qed.

Lemma most_confident_maximal_witness :
  let frame :=
    [mkBall (lit 1) (lit 2) (dec 3 10); mkBall (lit 3) (lit 4) (dec 9 10);
     mkBall (lit 5) (lit 6) (dec 9 10)] in
  receive_ssl_frame (Frame frame) = ([], Some (lit 3, lit 4, dec 9 10))
  /\ exists pre post,
       frame = pre ++ mkBall (lit 3) (lit 4) (dec 9 10) :: post
       /\ (forall b, In b pre ->
             lt (Float (ball_confidence b)) (Float (dec 9 10)) = true)
       /\ (forall b, In b post ->
             le (Float (ball_confidence b)) (Float (dec 9 10)) = true).
Proof.
  apply (most_confident_maximal (mkBall (lit 1) (lit 2) (dec 3 10))
           [mkBall (lit 3) (lit 4) (dec 9 10);
            mkBall (lit 5) (lit 6) (dec 9 10)]).
  intros b [<-|[<-|[<-|[]]]]; split; reflexivity.
Defined.

(** A tracked detection, when the arithmetic of the configuration is
    defined, dispatches one command with the angles in range. *)
Lemma tick_tracked_defined (config : CameraConfig) (x y c : float) :
  transforms_defined config = true -> should_track c = true ->
  exists p t z,
    tick config (Some (x, y, c))
    = Ok [set_gim_motor_degree p t; set_zoom z]
    /\ -129 <= p <= 129 /\ -59 <= t <= 59.
Proof.
  unfold transforms_defined. rewrite andb_true_iff.
  intros [Hnd Hzd] Hc. cbn [tick]. rewrite Hc.
  rewrite (calculate_camera_angles_defined config _ _ Hnd).
  destruct (calculate_zoom_defined config x y Hzd) as (z & -> & _).
  cbn [bind fst snd]. unfold move_camera.
  destruct (int_clamp (-129) 129
    (Float (raw_angle x (field_width config) (lit 129) (pan_scale config))))
    as (p & -> & Hp).
  destruct (int_clamp (-59) 59
    (Float (raw_angle y (field_height config) (lit 59) (tilt_scale config))))
    as (t & -> & Ht).
  exists p, t, z. cbn [bind]. split; [reflexivity|].
  split; [apply Hp|apply Ht]; lia.
Qed.

Lemma should_track_Vof (c : float) :
  wf c = true -> is_nan c = false ->
  should_track c = (Vof (dec 5 10) <? Vof c).
Proof. intros Hw Hn. unfold should_track. now apply gt_Float. Qed.

(** X7.  A frame is tracked exactly when one of its balls passes the
    gate: when no confidence is a NaN and the arithmetic of the
    configuration is defined, the tick on a received frame dispatches a
    command if and only if some ball of the frame has a confidence above
    0.5; an empty frame dispatches nothing. *)
Theorem frame_tracked_iff (config : CameraConfig) (balls : list ball) :
  transforms_defined config = true ->
  (forall b, In b balls ->
     wf (ball_confidence b) = true /\ is_nan (ball_confidence b) = false) ->
  let ball_pos := snd (receive_ssl_frame (Frame balls)) in
  ((exists b, In b balls /\ should_track (ball_confidence b) = true) ->
   exists p t z,
     tick config ball_pos = Ok [set_gim_motor_degree p t; set_zoom z])
  /\ ((forall b, In b balls -> should_track (ball_confidence b) = false) ->
      tick config ball_pos = Ok []).
Proof.
  intros Hdef Hwf ball_pos. subst ball_pos.
  destruct balls as [|first others].
  - split; [intros (b & [] & _)|reflexivity].
  - cbn [receive_ssl_frame snd].
    set (best := most_confident first others).
    pose proof (most_confident_In first others) as Hin. fold best in Hin.
    destruct (most_confident_split [first] first others Hwf)
      as (pre & post & Heq & Hpre & Hpost).
    { exists [], []. split; [reflexivity|]. split; intros b []. }
    fold best in Heq, Hpre, Hpost. cbn [app] in Heq.
    destruct (Hwf best Hin) as [Hwb Hnb].
    split.
    + intros (b & Hb & Hpass).
      destruct (Hwf b Hb) as [Hw Hn].
      assert (Hpass' : should_track (ball_confidence best) = true).
      { rewrite should_track_Vof in * by assumption.
        apply Z.ltb_lt in Hpass. apply Z.ltb_lt.
        rewrite Heq in Hb. apply in_app_iff in Hb.
        destruct Hb as [Hb|[<-|Hb]];
          [specialize (Hpre b Hb)|assumption|specialize (Hpost b Hb)]; lia. }
      destruct (tick_tracked_defined config (ball_x best) (ball_y best)
                  (ball_confidence best) Hdef Hpass') as (p & t & z & Ht & _).
      now exists p, t, z.
    + intros Hnone. cbn [tick]. now rewrite (Hnone best Hin).
Qed.

Lemma frame_tracked_iff_witness :
  exists p t z,
    tick default_config
      (snd (receive_ssl_frame
              (Frame [mkBall (lit 1) (lit 2) (dec 3 10);
                      mkBall (lit 3) (lit 4) (dec 9 10)])))
    = Ok [set_gim_motor_degree p t; set_zoom z].
Proof.
  apply (frame_tracked_iff default_config
           [mkBall (lit 1) (lit 2) (dec 3 10);
            mkBall (lit 3) (lit 4) (dec 9 10)]).
  - reflexivity.
  - intros b [<-|[<-|[]]]; split; reflexivity.
  - exists (mkBall (lit 3) (lit 4) (dec 9 10)).
    split; [right; now left|reflexivity].
Defined.

(** The selection is not moved off a ball whose confidence is a NaN, nor
    onto one. *)
Lemma most_confident_nan_first (first : ball) (others : list ball) :
  is_nan (ball_confidence first) = true ->
  most_confident first others = first.
Proof.
  intros Hn. unfold most_confident.
  induction others as [|b others IH]; [reflexivity|].
  cbn [fold_left].
  replace (gt (Float (ball_confidence b)) (Float (ball_confidence first)))
    with false; [exact IH|].
  destruct (ball_confidence first); try discriminate.
  unfold gt. cbn [num_compare]. now destruct (ball_confidence b).
Qed.

Lemma most_confident_skips_nan (first : ball) (others : list ball) :
  most_confident first others
  = most_confident first
      (List.filter (fun b => negb (is_nan (ball_confidence b))) others).
Proof.
  unfold most_confident. revert first.
  induction others as [|b others IH]; intros first; [reflexivity|].
  cbn [fold_left List.filter].
  destruct (is_nan (ball_confidence b)) eqn:Hn; cbn [negb].
  - replace (gt (Float (ball_confidence b)) (Float (ball_confidence first)))
      with false; [apply IH|].
    destruct (ball_confidence b); try discriminate. reflexivity.
  - cbn [fold_left]. apply IH.
Qed.

(** X8.  A NaN confidence defeats the selection.  When the first ball
    of a frame has a NaN confidence it is the ball selected, whatever
    the confidence of the others, and the frame dispatches nothing; a
    ball with a NaN confidence further down the frame is never selected
    in place of another. *)
Theorem nan_confidence (config : CameraConfig) (first : ball)
    (others : list ball) :
  (is_nan (ball_confidence first) = true ->
   receive_ssl_frame (Frame (first :: others))
   = ([], Some (ball_x first, ball_y first, ball_confidence first))
   /\ tick config (snd (receive_ssl_frame (Frame (first :: others)))) = Ok [])
  /\ receive_ssl_frame (Frame (first :: others))
     = receive_ssl_frame
         (Frame (first
                 :: List.filter (fun b => negb (is_nan (ball_confidence b)))
                      others)).
Proof.
  split.
  - intros Hn. cbn [receive_ssl_frame snd].
    rewrite (most_confident_nan_first first others Hn).
    split; [reflexivity|]. cbn [tick].
    replace (should_track (ball_confidence first)) with false; [reflexivity|].
    now destruct (ball_confidence first).
  - cbn [receive_ssl_frame]. now rewrite <- most_confident_skips_nan.
Qed.

Lemma nan_confidence_witness :
  receive_ssl_frame
    (Frame [mkBall (lit 1) (lit 2) S754_nan; mkBall (lit 3) (lit 4) (lit 1)])
  = ([], Some (lit 1, lit 2, S754_nan))
  /\ tick default_config
       (snd (receive_ssl_frame
               (Frame [mkBall (lit 1) (lit 2) S754_nan;
                       mkBall (lit 3) (lit 4) (lit 1)]))) = Ok [].
Proof.
  exact (proj1 (nan_confidence default_config (mkBall (lit 1) (lit 2) S754_nan)
                  [mkBall (lit 3) (lit 4) (lit 1)]) eq_refl).
Defined.

(** ** The tracking loop as a whole *)

(** X9.  The loop keeps no state between ticks: the run over two
    scripts in sequence is the run over the first followed, when the
    first is used up without an interrupt or an exception, by the run
    over the second.  In particular nothing that arrives after the
    interrupt is received. *)
Theorem tracking_loop_app (config : CameraConfig) (s1 s2 : list datagram) :
  tracking_loop config (s1 ++ s2)
  = match snd (tracking_loop config s1) with
    | Waiting =>
        (fst (tracking_loop config s1) ++ fst (tracking_loop config s2),
         snd (tracking_loop config s2))
    | _ => tracking_loop config s1
    end
  /\ run config (s1 ++ Interrupt :: s2) = run config (s1 ++ [Interrupt]).
Proof.
  assert (Happ : forall s1 s2,
    tracking_loop config (s1 ++ s2)
    = match snd (tracking_loop config s1) with
      | Waiting =>
          (fst (tracking_loop config s1) ++ fst (tracking_loop config s2),
           snd (tracking_loop config s2))
      | _ => tracking_loop config s1
      end).
  { clear s1 s2. intros s1 s2. induction s1 as [|d s1 IH].
    - cbn. now destruct (tracking_loop config s2).
    - assert (Hd : d = Interrupt \/ d <> Interrupt)
        by (destruct d; [right|right|left]; congruence).
      destruct Hd as [->|Hd]; [reflexivity|].
      cbn [app]. rewrite !(tracking_loop_step config d) by assumption.
      destruct (tick config (snd (receive_ssl_frame d))) as [msgs|e];
        [|reflexivity].
      rewrite IH. cbn [snd fst].
      destruct (tracking_loop config s1) as [out1 [| |e]]; cbn [fst snd];
        try reflexivity.
      now rewrite <- !app_assoc. }
  split; [apply Happ|].
  rewrite !run_unfold, !Happ.
  now destruct (snd (tracking_loop config s1)).
Qed.

(** The integer of a clamped value lies between the bounds, in
    whichever order they are given. *)
Lemma int_clamp_between (lo hi : Z) (v : num) (z : Z) :
  int (clamp lo hi v) = Ok z -> Z.min lo hi <= z <= Z.max lo hi.
Proof.
  destruct (clamp_cases lo hi v) as [(-> & Hlt & Hgt)|[-> | ->]].
  - destruct v as [z'|f]; cbn [int].
    + intros [= ->]. unfold lt, gt in *. cbn [num_compare] in *.
      destruct (Z.compare_spec z hi), (Z.compare_spec z lo);
        try discriminate; lia.
    + destruct (int_of_float_between lo hi f Hgt Hlt) as (z' & -> & Hb).
      intros [= ->]. lia.
  - intros [= ->]. lia.
  - intros [= ->]. lia.
Qed.

Lemma calculate_zoom_between (config : CameraConfig) (x y : float) (z : Z) :
  calculate_zoom config x y = Ok z ->
  Z.min (min_zoom config) (max_zoom config) <= z
  <= Z.max (min_zoom config) (max_zoom config).
Proof.
  unfold calculate_zoom. rewrite distance_of_returns. cbn [bind].
  unfold zoom_of_distance.
  destruct (le _ _); [intros [= ->]; lia|].
  destruct (ge _ _); [intros [= ->]; lia|].
  unfold interpolate_zoom.
  destruct (float_of_int (max_zoom config - min_zoom config)) as [zrf|];
    [|discriminate].
  cbn [bind]. destruct (fdiv _ _) as [q|]; [|discriminate].
  cbn [bind]. destruct (float_of_int (max_zoom config)) as [mzf|];
    [|discriminate].
  cbn [bind]. apply int_clamp_between.
Qed.

Lemma tick_within_limits (config : CameraConfig)
    (ball_pos : option (float * float * float)) (msgs : list osc_message) :
  tick config ball_pos = Ok msgs ->
  forall m, In m msgs -> within_limits config m.
Proof.
  destruct ball_pos as [[[x y] c]|]; cbn [tick]; [|now intros [= <-] m []].
  destruct (should_track c); [|now intros [= <-] m []].
  destruct (calculate_camera_angles config x y) as [[pan tilt]|] eqn:Hang;
    [|discriminate].
  destruct (calculate_zoom config x y) as [z|] eqn:Hz; [|discriminate].
  cbn [bind fst snd]. unfold move_camera.
  destruct (calculate_camera_angles_shape _ _ _ _ _ Hang)
    as (v & w & -> & ->).
  destruct (int _) as [p|] eqn:Hp; [|discriminate].
  destruct (int (clamp (-59) 59 w)) as [t|] eqn:Ht; [|discriminate].
  cbn [bind]. intros [= <-] m [<-|[<-|[]]].
  - left. exists p, t. split; [reflexivity|].
    apply int_clamp_between in Hp, Ht. lia.
  - right. exists z. split; [reflexivity|].
    now apply (calculate_zoom_between config x y).
Qed.

Lemma sent_app (a b : list output) : sent (a ++ b) = sent a ++ sent b.
Proof.
  induction a as [|[m|l] a IH]; cbn [sent app]; [reflexivity| |assumption].
  now rewrite IH.
Qed.

Lemma sent_map_Sent (msgs : list osc_message) : sent (map Sent msgs) = msgs.
Proof. induction msgs as [|m msgs IH]; cbn; [reflexivity|now rewrite IH]. Qed.

Lemma sent_receive (d : datagram) : sent (fst (receive_ssl_frame d)) = [].
Proof. now destruct d as [[|b bs]| |]. Qed.

Lemma In_sent (m : osc_message) (out : list output) :
  In (Sent m) out <-> In m (sent out).
Proof.
  induction out as [|[m'|l] out IH]; cbn [sent In]; [tauto| |].
  - rewrite IH. split; (intros [H|H]; [left; congruence|now right]).
  - rewrite <- IH. split; [intros [H|H]; [discriminate|assumption]|now right].
Qed.

(** X10.  Whatever the configuration and whatever is received, every
    message the tracking loop sends keeps the camera within its limits:
    an angle message carries the speed 90, a pan in [-129, 129] and a
    tilt in [-59, 59], a zoom message a value between the two zoom
    bounds, and the only other message is the disconnect notification. *)
Theorem run_within_limits (config : CameraConfig) (script : list datagram)
    (m : osc_message) :
  In (Sent m) (fst (run config script)) ->
  within_limits config m \/ m = disconnected.
Proof.
  rewrite run_unfold. cbn [fst]. intros [H|H]; [discriminate|].
  revert H. induction script as [|d script IH]; [intros []|].
  assert (Hd : d = Interrupt \/ d <> Interrupt)
    by (destruct d; [right|right|left]; congruence).
  destruct Hd as [->|Hd].
  - cbn. intros [H|[[= <-]|[]]]; [discriminate|now right].
  - rewrite (tracking_loop_step config d) by assumption.
    destruct (tick config (snd (receive_ssl_frame d))) as [msgs|e] eqn:Htick;
      cbn [fst]; rewrite !In_sent, ?sent_app, ?sent_receive, ?sent_map_Sent.
    + cbn [app]. intros [H|H]%in_app_iff.
      * left. exact (tick_within_limits _ _ _ Htick m H).
      * apply IH. now apply In_sent.
    + intros [].
Qed.

Lemma run_within_limits_witness :
  within_limits default_config (set_zoom 50) \/ set_zoom 50 = disconnected.
Proof.
  apply (run_within_limits default_config
           [Frame [mkBall (lit 3000) (lit 0) (dec 9 10)]]).
  replace (fst (run default_config
                  [Frame [mkBall (lit 3000) (lit 0) (dec 9 10)]]))
    with [Printed StartingBallTracking; Sent (set_gim_motor_degree 129 0);
          Sent (set_zoom 50)]
    by (vm_compute; reflexivity).
  right. right. now left.
Defined.

Lemma sent_stop (s : sink) (n : nat) :
  sent (fst (stop s n))
  = match snd (stop s n) with Stopped => [disconnected] | _ => [] end.
Proof. unfold stop. now destruct (s n). Qed.

Lemma stop_not_receiving (s : sink) (n : nat) : snd (stop s n) <> Receiving.
Proof. unfold stop. now destruct (s n). Qed.

Ltac no_orphan :=
  split; [now left|];
  split; [intros H; now contradiction H|cbn [length Nat.add]; lia].

(** The shape of what the loop sends, from any call number on. *)
Lemma tracking_loop_on_pairs (s : sink) (config : CameraConfig)
    (script : list datagram) (n : nat) :
  exists (commands : list (Z * Z * Z)) (orphan : list osc_message),
    sent (fst (tracking_loop_on s n config script))
    = flat_map command_messages commands ++ orphan
      ++ match snd (tracking_loop_on s n config script) with
         | Stopped => [disconnected]
         | _ => []
         end
    /\ (orphan = [] \/ exists p t, orphan = [set_gim_motor_degree p t])
    /\ (orphan <> [] ->
        (exists k, s k <> Delivered)
        /\ snd (tracking_loop_on s n config script) <> Receiving)
    /\ (length commands + length orphan <= ball_frames script)%nat.
Proof.
  revert n. induction script as [|d script IH]; intros n.
  - exists [], []. split; [reflexivity|]. no_orphan.
  - assert (Hd : d = Interrupt \/ d <> Interrupt)
      by (destruct d; [right|right|left]; congruence).
    destruct Hd as [->|Hd].
    + exists [], []. cbn [tracking_loop_on]. rewrite sent_stop.
      split; [reflexivity|]. no_orphan.
    + rewrite (tracking_loop_on_step s n config d script Hd).
      destruct (tick config (snd (receive_ssl_frame d))) as [msgs|e] eqn:Htick.
      * cbn zeta.
        destruct (tick_messages _ _ _ Htick) as [->|(p & t & z & ->)].
        -- cbn [send_messages fst snd map].
           destruct (IH n) as (commands & orphan & Heq & Ho & Hl & Hlen).
           exists commands, orphan.
           rewrite !sent_app, sent_receive. cbn [sent app].
           split; [exact Heq|]. split; [exact Ho|]. split; [exact Hl|].
           destruct d as [[|b bs]| |]; cbn [ball_frames]; lia.
        -- assert (Hb : ball_frames (d :: script) = S (ball_frames script)).
           { destruct d as [[|b bs]| |]; try discriminate; reflexivity. }
           rewrite Hb. cbn [send_messages].
           destruct (s n) eqn:Hs1; [destruct (s (S n)) eqn:Hs2| |];
             cbn [fst snd].
           ++ destruct (IH (S (S n)))
                as (commands & orphan & Heq & Ho & Hl & Hlen).
              exists ((p, t, z) :: commands), orphan.
              rewrite !sent_app, sent_receive, sent_map_Sent, Heq.
              split; [reflexivity|]. split; [exact Ho|]. split; [exact Hl|].
              cbn [length]. lia.
           ++ exists [], [set_gim_motor_degree p t].
              rewrite !sent_app, sent_receive, sent_map_Sent.
              split; [reflexivity|]. split; [right; now exists p, t|].
              split; [|cbn [length Nat.add]; lia]. intros _.
              split; [exists (S n); congruence|discriminate].
           ++ exists [], [set_gim_motor_degree p t].
              rewrite !sent_app, sent_receive, sent_map_Sent, sent_stop.
              split; [reflexivity|]. split; [right; now exists p, t|].
              split; [|cbn [length Nat.add]; lia]. intros _.
              split; [exists (S n); congruence|apply stop_not_receiving].
           ++ exists [], [].
              rewrite !sent_app, sent_receive.
              split; [reflexivity|]. no_orphan.
           ++ exists [], [].
              rewrite !sent_app, sent_receive, sent_stop.
              split; [reflexivity|]. no_orphan.
      * exists [], []. cbn [fst snd]. rewrite sent_receive.
        split; [reflexivity|]. no_orphan.
Qed.

(** X11.  The messages of a run, in the order sent, are complete
    commands, an angle message followed by its zoom message, then at
    most one angle message whose zoom message did not go out, then the
    disconnect notification exactly when the run returned.  The angle
    message without its zoom message appears only when the sink did not
    deliver some call, raising or being interrupted, and the run ended
    there; a zoom message never goes out without its angle message just
    before it.  There is at most one command, complete or not, for each
    received frame that holds a ball. *)
Theorem run_sends_pairs (s : sink) (config : CameraConfig)
    (script : list datagram) :
  exists (commands : list (Z * Z * Z)) (orphan : list osc_message),
    sent (fst (run_on s config script))
    = flat_map command_messages commands ++ orphan
      ++ match snd (run_on s config script) with
         | Stopped => [disconnected]
         | _ => []
         end
    /\ (orphan = [] \/ exists p t, orphan = [set_gim_motor_degree p t])
    /\ (orphan <> [] ->
        (exists k, s k <> Delivered)
        /\ snd (run_on s config script) <> Receiving)
    /\ (length commands + length orphan <= ball_frames script)%nat.
Proof.
  rewrite run_on_unfold. cbn [fst snd sent].
  apply tracking_loop_on_pairs.
Qed.

(** ** The calibration prompt *)

Lemma calibration_mode_unfold (config : CameraConfig) (fs : files)
    (inputs : list string) :
  calibration_mode config fs inputs
  = (fst (fst (fst (calibration_loop config fs inputs))),
     snd (fst (fst (calibration_loop config fs inputs))),
     Printed CalibrationBanner :: snd (fst (calibration_loop config fs inputs)),
     snd (calibration_loop config fs inputs)).
Proof.
  unfold calibration_mode.
  now destruct (calibration_loop config fs inputs) as [[[c f] o] e].
Qed.

Lemma calibration_loop_exit (config : CameraConfig) (fs : files)
    (raw : string) (rest : list string) :
  lower raw = "exit" ->
  calibration_loop config fs (raw :: rest) = (config, fs, [], true).
Proof. intros H. cbn [calibration_loop]. now rewrite H. Qed.

Lemma calibration_loop_step (config : CameraConfig) (fs : files)
    (raw : string) (rest : list string) :
  lower raw <> "exit" ->
  let step := calibration_command config fs (lower raw) in
  let next := calibration_loop (fst (fst step)) (snd (fst step)) rest in
  calibration_loop config fs (raw :: rest)
  = (fst (fst (fst next)), snd (fst (fst next)),
     snd step
       ++ Printed (CurrentScales (pan_scale (fst (fst step)))
                     (tilt_scale (fst (fst step))))
       :: snd (fst next),
     snd next).
Proof.
  intros Hne step next. subst step next. cbn [calibration_loop].
  destruct (String.eqb_spec (lower raw) "exit") as [H|_]; [contradiction|].
  destruct (calibration_command config fs (lower raw)) as [[c1 f1] p1].
  cbn [fst snd].
  now destruct (calibration_loop c1 f1 rest) as [[[c2 f2] o2] e2].
Qed.

(** What one command does to each part of the state. *)
Lemma calibration_command_config (config : CameraConfig) (fs : files)
    (cmd : string) :
  let config' := fst (fst (calibration_command config fs cmd)) in
  pan_scale config'
  = match pan_factor cmd with
    | Some f => fmul (pan_scale config) f
    | None => pan_scale config
    end
  /\ tilt_scale config'
     = match tilt_factor cmd with
       | Some f => fmul (tilt_scale config) f
       | None => tilt_scale config
       end
  /\ field_width config' = field_width config
  /\ field_height config' = field_height config
  /\ min_zoom config' = min_zoom config
  /\ max_zoom config' = max_zoom config
  /\ min_distance config' = min_distance config
  /\ max_distance config' = max_distance config.
Proof.
  unfold calibration_command, pan_factor, tilt_factor.
  destruct (String.eqb_spec cmd "pan+") as [->|_]; [now repeat split|].
  destruct (String.eqb_spec cmd "pan-") as [->|_]; [now repeat split|].
  destruct (String.eqb_spec cmd "tilt+") as [->|_]; [now repeat split|].
  destruct (String.eqb_spec cmd "tilt-") as [->|_]; [now repeat split|].
  destruct (String.eqb_spec cmd "save") as [->|_]; now repeat split.
Qed.

Lemma calibration_command_files (config : CameraConfig) (fs : files)
    (cmd : string) :
  snd (fst (calibration_command config fs cmd))
  = if String.eqb cmd "save"
    then save_calibration (vars config) default_filename fs
    else fs.
Proof.
  unfold calibration_command.
  destruct (String.eqb_spec cmd "pan+") as [->|_]; [reflexivity|].
  destruct (String.eqb_spec cmd "pan-") as [->|_]; [reflexivity|].
  destruct (String.eqb_spec cmd "tilt+") as [->|_]; [reflexivity|].
  destruct (String.eqb_spec cmd "tilt-") as [->|_]; [reflexivity|].
  now destruct (String.eqb_spec cmd "save") as [->|_].
Qed.

Lemma calibration_command_prints (config : CameraConfig) (fs : files)
    (cmd : string) :
  sent (snd (calibration_command config fs cmd)) = [].
Proof.
  unfold calibration_command.
  repeat (destruct (String.eqb _ _); [reflexivity|]). reflexivity.
Qed.

(** *** Letter case *)

Lemma lower_ascii_idempotent (c : ascii) :
  lower_ascii (lower_ascii c) = lower_ascii c.
Proof. destruct c as [[] [] [] [] [] [] [] []]; reflexivity. Qed.

Lemma lower_idempotent (s : string) : lower (lower s) = lower s.
Proof.
  induction s as [|c s IH]; [reflexivity|].
  cbn [lower]. now rewrite lower_ascii_idempotent, IH.
Qed.

(** X12.  The prompt does not distinguish letter case: a session over
    the typed lines and the session over the same lines in lower case
    end in the same configuration and files, print the same and stop at
    the same line; "PAN+", "Pan-", "SAVE" and "Exit" are the commands
    pan+, pan-, save and exit. *)
Theorem calibration_ignores_case (config : CameraConfig) (fs : files)
    (inputs : list string) :
  calibration_mode config fs (map lower inputs)
  = calibration_mode config fs inputs
  /\ lower "PAN+" = "pan+" /\ lower "Pan-" = "pan-"
  /\ lower "SAVE" = "save" /\ lower "Exit" = "exit".
Proof.
  split; [|now repeat split].
  unfold calibration_mode.
  replace (calibration_loop config fs (map lower inputs))
    with (calibration_loop config fs inputs); [reflexivity|].
  revert config fs. induction inputs as [|raw rest IH]; intros config fs;
    [reflexivity|].
  cbn [map calibration_loop]. rewrite lower_idempotent.
  destruct (String.eqb (lower raw) "exit"); [reflexivity|].
  destruct (calibration_command config fs (lower raw)) as [[c1 f1] p1].
  now rewrite IH.
Qed.

(** *** What a session changes *)

Lemma scaled_cons (scale f : float) (factors : list float) :
  scaled scale (f :: factors) = scaled (fmul scale f) factors.
Proof. reflexivity. Qed.

Lemma calibration_loop_config (config : CameraConfig) (fs : files)
    (inputs : list string) :
  let config' := fst (fst (fst (calibration_loop config fs inputs))) in
  pan_scale config'
  = scaled (pan_scale config) (omap pan_factor (before_exit inputs))
  /\ tilt_scale config'
     = scaled (tilt_scale config) (omap tilt_factor (before_exit inputs))
  /\ field_width config' = field_width config
  /\ field_height config' = field_height config
  /\ min_zoom config' = min_zoom config
  /\ max_zoom config' = max_zoom config
  /\ min_distance config' = min_distance config
  /\ max_distance config' = max_distance config.
Proof.
  revert config fs. induction inputs as [|raw rest IH]; intros config fs.
  - now repeat split.
  - cbn [before_exit].
    destruct (String.eqb_spec (lower raw) "exit") as [He|Hne].
    + rewrite calibration_loop_exit by assumption. now repeat split.
    + rewrite calibration_loop_step by assumption. cbn [fst snd].
      destruct (calibration_command_config config fs (lower raw))
        as (Hp & Ht & Hw & Hh & Hzl & Hzh & Hdl & Hdh).
      specialize (IH (fst (fst (calibration_command config fs (lower raw))))
                     (snd (fst (calibration_command config fs (lower raw))))).
      destruct IH as (Hp' & Ht' & Hw' & Hh' & Hzl' & Hzh' & Hdl' & Hdh').
      cbn zeta in *.
      rewrite Hp', Ht', Hw', Hh', Hzl', Hzh', Hdl', Hdh'.
      rewrite Hp, Ht, Hw, Hh, Hzl, Hzh, Hdl, Hdh.
      cbn [omap list_omap].
      destruct (pan_factor (lower raw)), (tilt_factor (lower raw));
        now repeat split.
Qed.

(** X13.  Calibration mode changes nothing but the two scale factors:
    whatever is typed, the field extents, the zoom bounds and the
    distance thresholds of the configuration it leaves are those it was
    entered with. *)
Theorem calibration_keeps_geometry (config : CameraConfig) (fs : files)
    (inputs : list string) :
  let config' := fst (fst (fst (calibration_mode config fs inputs))) in
  field_width config' = field_width config
  /\ field_height config' = field_height config
  /\ min_zoom config' = min_zoom config
  /\ max_zoom config' = max_zoom config
  /\ min_distance config' = min_distance config
  /\ max_distance config' = max_distance config.
Proof.
  rewrite calibration_mode_unfold. cbn [fst].
  apply (calibration_loop_config config fs inputs).
Qed.

(** X14.  The pan scale a session leaves is the initial pan scale
    multiplied, in the order typed and in binary64, by 1.1 for every
    pan+ and by 0.9 for every pan- entered before the first exit; the
    tilt commands, save and unrecognised lines in between do not touch
    it.  The same holds for the tilt scale and the tilt commands. *)
Theorem calibration_scales (config : CameraConfig) (fs : files)
    (inputs : list string) :
  let config' := fst (fst (fst (calibration_mode config fs inputs))) in
  pan_scale config'
  = scaled (pan_scale config) (omap pan_factor (before_exit inputs))
  /\ tilt_scale config'
     = scaled (tilt_scale config) (omap tilt_factor (before_exit inputs)).
Proof.
  rewrite calibration_mode_unfold. cbn [fst].
  split; apply (calibration_loop_config config fs inputs).
Qed.

Lemma calibration_loop_files (config : CameraConfig) (fs : files)
    (inputs : list string) :
  let fs' := snd (fst (fst (calibration_loop config fs inputs))) in
  (~ In "save" (before_exit inputs) -> fs' = fs)
  /\ (In "save" (before_exit inputs) ->
      exists saved, fs' = <[default_filename := vars saved]> fs).
Proof.
  revert config fs. induction inputs as [|raw rest IH]; intros config fs.
  - split; [reflexivity|intros []].
  - cbn [before_exit].
    destruct (String.eqb_spec (lower raw) "exit") as [He|Hne].
    + rewrite calibration_loop_exit by assumption.
      split; [reflexivity|intros []].
    + rewrite calibration_loop_step by assumption. cbn [fst snd].
      rewrite calibration_command_files.
      set (config1 := fst (fst (calibration_command config fs (lower raw)))).
      destruct (String.eqb_spec (lower raw) "save") as [Hs|Hns].
      * specialize (IH config1
                      (save_calibration (vars config) default_filename fs)).
        destruct IH as [IHno IHyes]. cbn zeta in *.
        split; [intros Hno; exfalso; apply Hno; now left|].
        intros _.
        destruct (in_dec String.string_dec "save" (before_exit rest))
          as [Hin|Hnin].
        -- destruct (IHyes Hin) as (saved & ->). exists saved.
           unfold save_calibration. apply insert_insert_eq.
        -- exists config. now rewrite (IHno Hnin).
      * specialize (IH config1 fs). destruct IH as [IHno IHyes].
        cbn zeta in *. split.
        -- intros Hno. apply IHno. intros Hin. apply Hno. now right.
        -- intros [Heq|Hin]; [congruence|]. now apply IHyes.
Qed.

(** X15.  Calibration mode writes one file only.  A session without a
    save command leaves the files as they were; a session with one
    leaves them with the default file bound to a complete configuration
    record; in both cases every other file is untouched. *)
Theorem calibration_writes_one_file (config : CameraConfig) (fs : files)
    (inputs : list string) :
  let fs' := snd (fst (fst (calibration_mode config fs inputs))) in
  (~ In "save" (before_exit inputs) -> fs' = fs)
  /\ (In "save" (before_exit inputs) ->
      exists saved, fs' = <[default_filename := vars saved]> fs)
  /\ (forall filename,
        filename <> default_filename -> fs' !! filename = fs !! filename).
Proof.
  rewrite calibration_mode_unfold. cbn [fst snd].
  destruct (calibration_loop_files config fs inputs) as [Hno Hyes].
  cbn zeta in *. split; [assumption|]. split; [assumption|].
  intros filename Hne.
  destruct (in_dec String.string_dec "save" (before_exit inputs))
    as [Hin|Hnin].
  - destruct (Hyes Hin) as (saved & ->). now apply lookup_insert_ne.
  - now rewrite (Hno Hnin).
Qed.

Lemma calibration_writes_one_file_witness :
  snd (fst (fst (calibration_mode default_config ∅ ["pan+"; "exit"; "save"])))
  = ∅.
Proof.
  apply (calibration_writes_one_file default_config ∅
           ["pan+"; "exit"; "save"]).
  vm_compute. intros [H|[]]. discriminate H.
Defined.

(** *** Leaving the prompt *)

Lemma calibration_loop_exited (config : CameraConfig) (fs : files)
    (inputs : list string) :
  snd (calibration_loop config fs inputs) = true
  <-> exists raw, In raw inputs /\ lower raw = "exit".
Proof.
  revert config fs. induction inputs as [|raw rest IH]; intros config fs.
  - split; [discriminate|intros (raw & [] & _)].
  - destruct (String.eqb_spec (lower raw) "exit") as [He|Hne].
    + rewrite calibration_loop_exit by assumption.
      split; [|reflexivity]. intros _. exists raw. split; [now left|assumption].
    + rewrite calibration_loop_step by assumption. cbn [snd]. rewrite IH.
      split; intros (raw' & Hin & Hraw').
      * exists raw'. split; [now right|assumption].
      * destruct Hin as [<-|Hin]; [contradiction|]. now exists raw'.
Qed.

Lemma calibration_loop_app (config : CameraConfig) (fs : files)
    (inputs more : list string) :
  snd (calibration_loop config fs inputs) = true ->
  calibration_loop config fs (inputs ++ more)
  = calibration_loop config fs inputs.
Proof.
  revert config fs. induction inputs as [|raw rest IH]; intros config fs.
  - discriminate.
  - cbn [app].
    destruct (String.eqb_spec (lower raw) "exit") as [He|Hne].
    + now rewrite !calibration_loop_exit by assumption.
    + rewrite !(calibration_loop_step config fs raw) by assumption.
      cbn [snd]. intros Hex. now rewrite IH.
Qed.

Lemma calibration_loop_reports (config : CameraConfig) (fs : files)
    (inputs : list string) :
  length (List.filter is_scale_report
            (snd (fst (calibration_loop config fs inputs))))
  = length (before_exit inputs).
Proof.
  revert config fs. induction inputs as [|raw rest IH]; intros config fs.
  - reflexivity.
  - cbn [before_exit].
    destruct (String.eqb_spec (lower raw) "exit") as [He|Hne].
    + now rewrite calibration_loop_exit by assumption.
    + rewrite calibration_loop_step by assumption. cbn [fst snd].
      rewrite List.filter_app, length_app.
      cbn [List.filter is_scale_report length].
      rewrite IH.
      replace (List.filter is_scale_report
                 (snd (calibration_command config fs (lower raw))))
        with (@nil output); [reflexivity|].
      unfold calibration_command.
      repeat (destruct (String.eqb _ _); [reflexivity|]). reflexivity.
Qed.

(** X16.  The prompt is left exactly when a typed line is exit in any
    letter case, and what is typed after that line is never read: the
    session over a longer input that continues one ended by exit is the
    same session.  Every command entered before the exit, recognised or
    not, is answered by one report of the current scales; the exit
    itself prints none. *)
Theorem calibration_exit (config : CameraConfig) (fs : files)
    (inputs : list string) :
  (snd (calibration_mode config fs inputs) = true
   <-> exists raw, In raw inputs /\ lower raw = "exit")
  /\ (snd (calibration_mode config fs inputs) = true ->
      forall more,
        calibration_mode config fs (inputs ++ more)
        = calibration_mode config fs inputs)
  /\ length (List.filter is_scale_report
               (snd (fst (calibration_mode config fs inputs))))
     = length (before_exit inputs).
Proof.
  rewrite !calibration_mode_unfold. cbn [fst snd].
  split; [apply calibration_loop_exited|]. split.
  - intros Hex more. rewrite calibration_mode_unfold.
    now rewrite (calibration_loop_app config fs inputs more Hex).
  - cbn [List.filter is_scale_report]. apply calibration_loop_reports.
Qed.

(** *** The scale factors stay above zero *)

Lemma SFleb_Vof (a b : float) :
  wf a = true -> wf b = true -> SFleb a b = true -> Vof a <= Vof b.
Proof.
  intros Ha Hb Hle. destruct (SFleb_not_nan _ _ Hle) as [Hna Hnb].
  unfold SFleb in Hle. rewrite SFcompare_Vof in Hle by assumption.
  destruct (Z.compare_spec (Vof a) (Vof b)); try discriminate; lia.
Qed.

Lemma positive_scale_iff (s : float) :
  positive_scale s = true
  <-> wf s = true /\ is_nan s = false /\ 0 < Vof s.
Proof.
  pose proof BIG_pos. split.
  - destruct s as [[]|[]| |[] m e]; try discriminate; cbn [positive_scale].
    + intros _. cbn [Vof]. now repeat split.
    + intros Hwf.
      destruct (is_positive_facts (S754_finite false m e) Hwf)
        as (_ & _ & _ & _ & Hp & _).
      now repeat split.
  - intros (Hwf & Hn & Hv).
    destruct s as [[]|[]| |[] m e]; try discriminate; cbn [Vof Zof] in Hv;
      try lia; try assumption; try reflexivity.
    pose proof Hwf as (He & _)%wf_finite_facts.
    pose proof (Zof_neg m e ltac:(lia)). cbn [Zof] in *. lia.
Qed.

Lemma positive_scale_cases (s : float) :
  positive_scale s = true -> s = S754_infinity false \/ is_positive s = true.
Proof. destruct s as [[]|[]| |[] m e]; try discriminate; auto. Qed.

Lemma fmul_one_l (s : float) :
  is_positive s = true -> fmul (lit 1) s = s.
Proof.
  intros Hs.
  destruct (is_positive_facts s Hs) as (Hwf & Hf & Hn & Hnz & _).
  rewrite fmul_exact; try assumption; try reflexivity.
  replace (Zof (lit 1) * Zof s * 2 ^ 52) with (Zof s * 2 ^ 1126).
  - now apply RNDq_id.
  - change (Zof (lit 1)) with (2 ^ 1074).
    replace (2 ^ 1126) with (2 ^ 1074 * 2 ^ 52)
      by (rewrite pow2_add; [reflexivity|lia|lia]).
    ring.
Qed.

(** The two factors of the prompt. *)
Lemma factor_facts (f : float) :
  f = dec 11 10 \/ f = dec 9 10 ->
  is_positive f = true
  /\ fmul (S754_finite false 1 (-1074)) f = S754_finite false 1 (-1074).
Proof. intros [-> | ->]; split; vm_compute; reflexivity. Qed.

Lemma fmul_factor_positive (s f : float) :
  f = dec 11 10 \/ f = dec 9 10 ->
  positive_scale s = true -> positive_scale (fmul s f) = true.
Proof.
  intros Hf Hs. destruct (factor_facts f Hf) as [Hpf Hmin].
  destruct (positive_scale_cases s Hs) as [->|Hps].
  - destruct Hf as [-> | ->]; reflexivity.
  - destruct (is_positive_facts s Hps) as (Hwf & _ & _ & _ & Hpos & Hv & Hn).
    destruct (fmul_pos_wf f s Hpf Hwf Hn) as [Hw' Hn'].
    apply positive_scale_iff. split; [assumption|]. split; [assumption|].
    assert (Hle : SFleb (S754_finite false 1 (-1074)) s = true).
    { unfold SFleb. rewrite SFcompare_Vof; try assumption; try reflexivity.
      rewrite Hv. change (Vof (S754_finite false 1 (-1074))) with 1.
      destruct (Z.compare_spec 1 (Zof s)); try reflexivity; lia. }
    pose proof (fmul_pos_mono f (S754_finite false 1 (-1074)) s Hpf
                  eq_refl Hwf Hle) as Hm.
    rewrite Hmin in Hm. apply SFleb_Vof in Hm; [|reflexivity|assumption].
    change (Vof (S754_finite false 1 (-1074))) with 1 in Hm. lia.
Qed.

Lemma pan_factor_cases (cmd : string) (f : float) :
  pan_factor cmd = Some f -> f = dec 11 10 \/ f = dec 9 10.
Proof.
  unfold pan_factor. repeat (destruct (String.eqb _ _)); intros [= <-]; auto.
Qed.

Lemma tilt_factor_cases (cmd : string) (f : float) :
  tilt_factor cmd = Some f -> f = dec 11 10 \/ f = dec 9 10.
Proof.
  unfold tilt_factor. repeat (destruct (String.eqb _ _)); intros [= <-]; auto.
Qed.

Lemma scaled_positive (factor : string -> option float)
    (cmds : list string) (s : float) :
  (forall cmd f, factor cmd = Some f -> f = dec 11 10 \/ f = dec 9 10) ->
  positive_scale s = true ->
  positive_scale (scaled s (omap factor cmds)) = true.
Proof.
  intros Hfac. revert s. induction cmds as [|cmd cmds IH]; intros s Hs.
  - exact Hs.
  - cbn [omap list_omap]. destruct (factor cmd) as [f|] eqn:Hf.
    + rewrite scaled_cons. apply IH.
      apply fmul_factor_positive; [now apply (Hfac cmd)|assumption].
    + now apply IH.
Qed.

(** X17.  No sequence of commands turns a scale factor that is above
    zero into zero, a negative number or a NaN: a pan scale that is
    positive (finite or infinite) when calibration mode is entered is
    positive when it is left, and so is the tilt scale. *)
Theorem calibration_keeps_scales_positive (config : CameraConfig)
    (fs : files) (inputs : list string) :
  let config' := fst (fst (fst (calibration_mode config fs inputs))) in
  (positive_scale (pan_scale config) = true ->
   positive_scale (pan_scale config') = true)
  /\ (positive_scale (tilt_scale config) = true ->
      positive_scale (tilt_scale config') = true).
Proof.
  rewrite calibration_mode_unfold. cbn [fst].
  destruct (calibration_loop_config config fs inputs) as (Hp & Ht & _).
  cbn zeta in *. rewrite Hp, Ht. split; intros Hs.
  - apply scaled_positive; [exact pan_factor_cases|assumption].
  - apply scaled_positive; [exact tilt_factor_cases|assumption].
Qed.

Lemma fmul_factor_order (s : float) :
  positive_scale s = true ->
  SFleb s (fmul s (dec 11 10)) = true /\ SFleb (fmul s (dec 9 10)) s = true.
Proof.
  intros Hs. destruct (positive_scale_cases s Hs) as [->|Hps].
  - now split.
  - rewrite !(fmul_comm s).
    rewrite <- (fmul_one_l s Hps) at 1 4.
    split; apply fmul_pos_mono; try assumption; reflexivity.
Qed.

(** X18.  On a scale factor above zero, pan+ never lowers the pan scale
    and pan- never raises it, and likewise tilt+ and tilt- for the tilt
    scale.  The order is not strict: the rounded product leaves the
    smallest positive value and infinity as they are. *)
Theorem scale_commands_ordered (config : CameraConfig) (fs : files) :
  (positive_scale (pan_scale config) = true ->
   le (Float (pan_scale config))
      (Float (pan_scale (fst (fst (calibration_command config fs "pan+")))))
   = true
   /\ le (Float (pan_scale (fst (fst (calibration_command config fs "pan-")))))
         (Float (pan_scale config))
      = true)
  /\ (positive_scale (tilt_scale config) = true ->
      le (Float (tilt_scale config))
         (Float (tilt_scale
                   (fst (fst (calibration_command config fs "tilt+")))))
      = true
      /\ le (Float (tilt_scale
                      (fst (fst (calibration_command config fs "tilt-")))))
            (Float (tilt_scale config))
         = true).
Proof.
  split; intros Hs; rewrite !le_Float; cbn [calibration_command];
    now apply fmul_factor_order.
Qed.

Lemma scale_commands_ordered_witness :
  le (Float (lit 1)) (Float (fmul (lit 1) (dec 11 10))) = true
  /\ le (Float (fmul (lit 1) (dec 9 10))) (Float (lit 1)) = true.
Proof.
  exact (proj1 (scale_commands_ordered default_config ∅) eq_refl).
Defined.

Lemma calibration_keeps_scales_positive_witness :
  positive_scale
    (pan_scale
       (fst (fst (fst (calibration_mode default_config ∅
                         ["pan-"; "pan-"; "tilt+"; "pan+"])))))
  = true.
Proof.
  exact (proj1 (calibration_keeps_scales_positive default_config ∅
                  ["pan-"; "pan-"; "tilt+"; "pan+"]) eq_refl).
Defined.

Lemma calibration_exit_witness :
  calibration_mode default_config ∅ (["pan+"; "EXIT"] ++ ["pan-"])
  = calibration_mode default_config ∅ ["pan+"; "EXIT"].
Proof.
  exact (proj1 (proj2 (calibration_exit default_config ∅ ["pan+"; "EXIT"]))
           eq_refl ["pan-"]).
Defined.

(** ** A whole session *)

Lemma load_prints_only (fs : files) (filename : string)
    (attrs : gmap string jvalue) :
  sent (snd (load_calibration fs filename attrs)) = [].
Proof. unfold load_calibration. now destruct (fs !! filename). Qed.

Lemma calibration_loop_prints_only (config : CameraConfig) (fs : files)
    (inputs : list string) :
  sent (snd (fst (calibration_loop config fs inputs))) = [].
Proof.
  revert config fs. induction inputs as [|raw rest IH]; intros config fs.
  - reflexivity.
  - destruct (String.eqb_spec (lower raw) "exit") as [He|Hne].
    + now rewrite calibration_loop_exit by assumption.
    + rewrite calibration_loop_step by assumption. cbn [fst snd].
      rewrite sent_app, calibration_command_prints. cbn [app sent].
      apply IH.
Qed.

(** What [main] does once the stored record has been read. *)
Lemma main_unfold (argv : list string) (fs : files) (inputs : list string)
    (script : list datagram) (r : files * list output * session) :
  main argv fs inputs script = Some r ->
  exists config,
    let loaded := load_calibration fs default_filename (vars default_config) in
    fst loaded = vars config
    /\ r = if calibrate_requested argv then
             (snd (fst (fst (calibration_mode config fs inputs))),
              map Sent initialize_camera ++ snd loaded
                ++ snd (fst (calibration_mode config fs inputs)),
              Calibrated (snd (calibration_mode config fs inputs)))
           else
             (fs,
              map Sent initialize_camera ++ snd loaded
                ++ fst (run config script),
              Tracked (snd (run config script))).
Proof.
  unfold main.
  destruct (load_calibration fs default_filename (vars default_config))
    as [attrs notice].
  destruct (config_of attrs) as [config|]; [|discriminate].
  destruct (bool_decide_reflect (vars config = attrs)) as [Heq|];
    [|discriminate].
  intros Hr. exists config. cbn [fst snd]. split; [now symmetry|].
  destruct (calibrate_requested argv).
  - destruct (calibration_mode config fs inputs) as [[[c f] o] e].
    now injection Hr as <-.
  - destruct (run config script) as [o st]. now injection Hr as <-.
Qed.

Lemma main_typed (argv : list string) (fs : files) (inputs : list string)
    (script : list datagram) (config : CameraConfig) :
  fst (load_calibration fs default_filename (vars default_config))
  = vars config ->
  main argv fs inputs script
  = Some (if calibrate_requested argv then
            (snd (fst (fst (calibration_mode config fs inputs))),
             map Sent initialize_camera
               ++ snd (load_calibration fs default_filename
                         (vars default_config))
               ++ snd (fst (calibration_mode config fs inputs)),
             Calibrated (snd (calibration_mode config fs inputs)))
          else
            (fs,
             map Sent initialize_camera
               ++ snd (load_calibration fs default_filename
                         (vars default_config))
               ++ fst (run config script),
             Tracked (snd (run config script)))).
Proof.
  unfold main.
  destruct (load_calibration fs default_filename (vars default_config))
    as [attrs notice].
  cbn [fst snd]. intros ->. rewrite config_of_vars.
  rewrite bool_decide_eq_true_2 by reflexivity.
  destruct (calibrate_requested argv).
  - now destruct (calibration_mode config fs inputs) as [[[c f] o] e].
  - now destruct (run config script) as [o st].
Qed.

(** X20.  The two modes of [main] exclude each other.  The mode is
    calibration exactly when the first command-line argument is
    --calibrate.  In calibration mode the camera receives the three
    initialisation messages and nothing else: it is never moved and
    never sent the disconnect notification, and no datagram is read.
    In tracking mode the initialisation messages come first, no
    file is written and the prompt is not read. *)
Theorem main_modes (argv : list string) (fs : files) (inputs : list string)
    (script : list datagram) (fs' : files) (out : list output) (s : session) :
  main argv fs inputs script = Some (fs', out, s) ->
  (calibrate_requested argv = true
   <-> exists prog rest, argv = prog :: "--calibrate" :: rest)
  /\ (calibrate_requested argv = true ->
      sent out = initialize_camera
      /\ (exists exited, s = Calibrated exited)
      /\ forall script',
           main argv fs inputs script' = main argv fs inputs script)
  /\ (calibrate_requested argv = false ->
      fs' = fs
      /\ (exists st, s = Tracked st)
      /\ (exists rest, sent out = initialize_camera ++ rest)
      /\ forall inputs',
           main argv fs inputs' script = main argv fs inputs script).
Proof.
  intros Hmain. split.
  - unfold calibrate_requested. destruct argv as [|prog [|arg rest]].
    + split; [discriminate|]. intros (p & r & [=]).
    + split; [discriminate|]. intros (p & r & [=]).
    + destruct (String.eqb_spec arg "--calibrate") as [->|Hne].
      * split; [|reflexivity]. intros _. now exists prog, rest.
      * split; [discriminate|]. intros (p & r & [= _ Ha _]). contradiction.
  - destruct (main_unfold _ _ _ _ _ Hmain) as (config & Hload & Hr).
    cbn zeta in *. split; intros Hmode; rewrite Hmode in Hr.
    + injection Hr as -> -> ->.
      cbn [sent]. rewrite sent_app, load_prints_only.
      rewrite calibration_mode_unfold. cbn [fst snd sent app].
      rewrite calibration_loop_prints_only.
      split; [reflexivity|]. split; [now eexists|].
      intros script'. rewrite !(main_typed _ _ _ _ config Hload).
      now rewrite Hmode.
    + injection Hr as -> -> ->.
      split; [reflexivity|]. split; [now eexists|]. split.
      * cbn [sent]. now eexists.
      * intros inputs'. rewrite !(main_typed _ _ _ _ config Hload).
        now rewrite Hmode.
Qed.

Lemma main_modes_witness :
  main ["camera_controller.py"; "--calibrate"] ∅ ["pan+"; "exit"]
       [Frame [mkBall (lit 3000) (lit 0) (dec 9 10)]]
  = Some (∅,
          [Sent connected; Sent select_device; Sent reset_gimbal;
           Printed (CalibrationFileNotFound default_filename);
           Printed CalibrationBanner;
           Printed (CurrentScales (dec 11 10) (lit 1))],
          Calibrated true)
  /\ sent [Sent connected; Sent select_device; Sent reset_gimbal;
           Printed (CalibrationFileNotFound default_filename);
           Printed CalibrationBanner;
           Printed (CurrentScales (dec 11 10) (lit 1))]
     = initialize_camera.
Proof.
  assert (H : main ["camera_controller.py"; "--calibrate"] ∅ ["pan+"; "exit"]
                [Frame [mkBall (lit 3000) (lit 0) (dec 9 10)]]
              = Some (∅,
                      [Sent connected; Sent select_device; Sent reset_gimbal;
                       Printed (CalibrationFileNotFound default_filename);
                       Printed CalibrationBanner;
                       Printed (CurrentScales (dec 11 10) (lit 1))],
                      Calibrated true))
    by (vm_compute; reflexivity).
  split; [exact H|].
  exact (proj1 (proj1 (proj2 (main_modes _ _ _ _ _ _ _ H)) eq_refl)).
Defined.

Lemma calibration_loop_continue (config : CameraConfig) (fs : files)
    (commands more : list string) :
  (forall raw, In raw commands -> lower raw <> "exit") ->
  let first := calibration_loop config fs commands in
  let second :=
    calibration_loop (fst (fst (fst first))) (snd (fst (fst first))) more in
  calibration_loop config fs (commands ++ more)
  = (fst (fst (fst second)), snd (fst (fst second)),
     snd (fst first) ++ snd (fst second), snd second).
Proof.
  revert config fs. induction commands as [|raw rest IH]; intros config fs Hne.
  - cbn. now destruct (calibration_loop config fs more) as [[[c f] o] e].
  - cbn [app].
    assert (Hraw : lower raw <> "exit") by (apply Hne; now left).
    rewrite !(calibration_loop_step config fs raw) by assumption.
    cbn [fst snd]. rewrite IH by (intros r Hr; apply Hne; now right).
    cbn [fst snd]. now rewrite <- app_assoc.
Qed.

Lemma calibration_loop_save_exit (config : CameraConfig) (fs : files) :
  calibration_loop config fs ["save"; "exit"]
  = (config, save_calibration (vars config) default_filename fs,
     [Printed CalibrationSaved;
      Printed (CurrentScales (pan_scale config) (tilt_scale config))],
     true).
Proof. reflexivity. Qed.

(** X21.  A calibration survives a restart.  When a calibration session
    applies some commands and ends with save and exit, the next start of
    the program in tracking mode finds the file, prints no notice, and
    tracks with exactly the configuration the session left: the scale
    factors tuned at the prompt are the ones the tracking loop uses. *)
Theorem calibration_survives_restart (argv1 argv2 : list string) (fs : files)
    (commands inputs2 : list string) (script1 script2 : list datagram)
    (fs1 : files) (out1 : list output) (s1 : session) :
  calibrate_requested argv1 = true ->
  calibrate_requested argv2 = false ->
  (forall raw, In raw commands -> lower raw <> "exit") ->
  main argv1 fs (commands ++ ["save"; "exit"]) script1 = Some (fs1, out1, s1) ->
  exists config0,
    fst (load_calibration fs default_filename (vars default_config))
    = vars config0
    /\ let config1 := fst (fst (fst (calibration_mode config0 fs commands))) in
       fs1 !! default_filename = Some (vars config1)
       /\ main argv2 fs1 inputs2 script2
          = Some (fs1,
                  map Sent initialize_camera ++ fst (run config1 script2),
                  Tracked (snd (run config1 script2))).
Proof.
  intros Hm1 Hm2 Hne Hmain.
  destruct (main_unfold _ _ _ _ _ Hmain) as (config0 & Hload & Hr).
  cbn zeta in Hr. rewrite Hm1 in Hr. injection Hr as -> _ _.
  exists config0. split; [assumption|]. cbn zeta.
  rewrite !calibration_mode_unfold. cbn [fst snd].
  rewrite (calibration_loop_continue config0 fs commands _ Hne).
  cbn zeta. rewrite calibration_loop_save_exit. cbn [fst snd].
  set (config1 := fst (fst (fst (calibration_loop config0 fs commands)))).
  set (fs0 := snd (fst (fst (calibration_loop config0 fs commands)))).
  assert (Hfile : save_calibration (vars config1) default_filename fs0
                  !! default_filename = Some (vars config1))
    by apply lookup_insert_eq.
  split; [assumption|].
  assert (Hload1 :
    load_calibration (save_calibration (vars config1) default_filename fs0)
      default_filename (vars default_config) = (vars config1, [])).
  { rewrite (load_calibration_found _ _ _ _ Hfile). now rewrite vars_union. }
  rewrite (main_typed _ _ _ _ config1) by now rewrite Hload1.
  now rewrite Hm2, Hload1.
Qed.

Lemma calibration_survives_restart_witness :
  exists config0,
    fst (load_calibration ∅ default_filename (vars default_config))
    = vars config0
    /\ let config1 :=
         fst (fst (fst (calibration_mode config0 ∅ ["pan+"; "tilt-"]))) in
       ({[ default_filename :=
             vars (mkConfig (lit 6000) (lit 4000) (dec 11 10) (dec 9 10)
                     0 100 (lit 1000) (lit 5000)) ]} : files)
       !! default_filename = Some (vars config1)
       /\ main ["camera_controller.py"]
            {[ default_filename :=
                 vars (mkConfig (lit 6000) (lit 4000) (dec 11 10) (dec 9 10)
                         0 100 (lit 1000) (lit 5000)) ]}
            [] [Interrupt]
          = Some ({[ default_filename :=
                       vars (mkConfig (lit 6000) (lit 4000) (dec 11 10)
                               (dec 9 10) 0 100 (lit 1000) (lit 5000)) ]},
                  map Sent initialize_camera ++ fst (run config1 [Interrupt]),
                  Tracked (snd (run config1 [Interrupt]))).
Proof.
  apply (calibration_survives_restart
           ["camera_controller.py"; "--calibrate"] ["camera_controller.py"]
           ∅ ["pan+"; "tilt-"] [] [] [Interrupt] _
           [Sent connected; Sent select_device; Sent reset_gimbal;
            Printed (CalibrationFileNotFound default_filename);
            Printed CalibrationBanner;
            Printed (CurrentScales (dec 11 10) (lit 1));
            Printed (CurrentScales (dec 11 10) (dec 9 10));
            Printed CalibrationSaved;
            Printed (CurrentScales (dec 11 10) (dec 9 10))]
           (Calibrated true)).
  - reflexivity.
  - reflexivity.
  - intros raw [<-|[<-|[]]]; discriminate.
  - vm_compute. reflexivity.
Defined.

(** ** A stored record without checks *)

(** A zero half extent makes the angle transform raise. *)
Lemma calculate_camera_angles_zero_width (config : CameraConfig)
    (x y : float) :
  is_zero (field_width config) = true ->
  calculate_camera_angles config x y = Raise ZeroDivisionError.
Proof.
  intros Hz. unfold calculate_camera_angles. rewrite fdiv_two. cbn [bind].
  unfold fdiv at 1.
  replace (is_zero (half_extent (field_width config))) with true;
    [reflexivity|].
  now destruct (field_width config) as [[]|[]| |[] m e].
Qed.

(** The width of a record that reads as a configuration. *)
Lemma config_of_field_width (attrs : gmap string jvalue)
    (config : CameraConfig) :
  config_of attrs = Some config ->
  attrs !! "field_width" ≫= as_float = Some (field_width config).
Proof.
  unfold config_of. intros H.
  destruct (attrs !! "field_width" ≫= as_float) as [fw|]; [|discriminate].
  cbn [mbind option_bind] in H.
  destruct (attrs !! "field_height" ≫= as_float) as [fh|]; [|discriminate].
  cbn [mbind option_bind] in H.
  destruct (attrs !! "pan_scale" ≫= as_float) as [ps|]; [|discriminate].
  cbn [mbind option_bind] in H.
  destruct (attrs !! "tilt_scale" ≫= as_float) as [ts|]; [|discriminate].
  cbn [mbind option_bind] in H.
  destruct (attrs !! "min_zoom" ≫= as_int) as [zmin|]; [|discriminate].
  cbn [mbind option_bind] in H.
  destruct (attrs !! "max_zoom" ≫= as_int) as [zmax|]; [|discriminate].
  cbn [mbind option_bind] in H.
  destruct (attrs !! "min_distance" ≫= as_float) as [dmin|]; [|discriminate].
  cbn [mbind option_bind] in H.
  destruct (attrs !! "max_distance" ≫= as_float) as [dmax|]; [|discriminate].
  cbn [mbind option_bind] in H.
  now injection H as <-.
Qed.

(** A reception that delivers no ball worth tracking hands nothing to
    the sink. *)
Lemma tick_idle (config : CameraConfig) (d : datagram) :
  passes d = false -> tick config (snd (receive_ssl_frame d)) = Ok [].
Proof.
  destruct d as [[|b bs]| |]; try reflexivity.
  cbn [passes receive_ssl_frame snd tick]. now intros ->.
Qed.

(** Such receptions only print, and the sink is not called. *)
Lemma tracking_loop_on_idle (s : sink) (n : nat) (config : CameraConfig)
    (before rest : list datagram) :
  (forall d, In d before -> d <> Interrupt /\ passes d = false) ->
  tracking_loop_on s n config (before ++ rest)
  = (flat_map (fun d => fst (receive_ssl_frame d)) before
       ++ fst (tracking_loop_on s n config rest),
     snd (tracking_loop_on s n config rest)).
Proof.
  induction before as [|d before IH]; intros Hidle.
  - cbn [app flat_map]. now destruct (tracking_loop_on s n config rest).
  - destruct (Hidle d (or_introl eq_refl)) as [Hd Hp].
    cbn [app flat_map].
    rewrite (tracking_loop_on_step s n config d (before ++ rest) Hd).
    rewrite (tick_idle config d Hp).
    cbn [send_messages fst snd map].
    rewrite IH by (intros d' Hin; apply Hidle; now right).
    cbn [fst snd]. now rewrite app_nil_r, app_assoc.
Qed.

Lemma sent_receptions (script : list datagram) :
  sent (Printed StartingBallTracking
          :: flat_map (fun d => fst (receive_ssl_frame d)) script) = [].
Proof.
  change (sent (flat_map (fun d => fst (receive_ssl_frame d)) script) = []).
  induction script as [|d script IH]; [reflexivity|].
  cbn [flat_map]. now rewrite sent_app, sent_receive.
Qed.

(** X23.  A stored record is taken over without any check.  When the
    calibration file gives [field_width] the value zero, as the integer
    0 or as a float zero of either sign, and the loaded record reads as
    a configuration, the tracking loop on it ends with
    [ZeroDivisionError] at the first frame whose best ball passes the
    gate, whatever the sink does: after any receptions without such a
    frame and without an interrupt, which only print, nothing has been
    sent, not even the disconnect notification, and the rest of the
    script is never received. *)
Theorem stored_zero_width_stops_tracking (fs : files)
    (data : gmap string jvalue) (v : jvalue) (sign : bool)
    (config : CameraConfig) (s : sink) (before after : list datagram)
    (first : ball) (others : list ball) :
  fs !! default_filename = Some data ->
  data !! "field_width" = Some v ->
  as_float v = Some (S754_zero sign) ->
  config_of (fst (load_calibration fs default_filename (vars default_config)))
  = Some config ->
  (forall d, In d before -> d <> Interrupt /\ passes d = false) ->
  passes (Frame (first :: others)) = true ->
  run_on s config (before ++ Frame (first :: others) :: after)
  = (Printed StartingBallTracking
       :: flat_map (fun d => fst (receive_ssl_frame d)) before,
     TransformError ZeroDivisionError)
  /\ sent (fst (run_on s config (before ++ Frame (first :: others) :: after)))
     = [].
Proof.
  intros Hfile Hdata Hzero Hload Hidle Hgate.
  rewrite (load_calibration_found _ _ _ _ Hfile) in Hload.
  cbn [fst] in Hload.
  assert (Hw : field_width config = S754_zero sign).
  { apply config_of_field_width in Hload.
    rewrite (lookup_union_Some_l _ _ _ _ Hdata) in Hload.
    cbn [mbind option_bind] in Hload. congruence. }
  assert (Hrun :
    run_on s config (before ++ Frame (first :: others) :: after)
    = (Printed StartingBallTracking
         :: flat_map (fun d => fst (receive_ssl_frame d)) before,
       TransformError ZeroDivisionError)).
  { rewrite run_on_unfold, (tracking_loop_on_idle _ _ _ _ _ Hidle).
    rewrite (tracking_loop_on_step s 0 config (Frame (first :: others)))
      by discriminate.
    cbn [passes] in Hgate.
    cbn [receive_ssl_frame fst snd tick]. rewrite Hgate.
    rewrite calculate_camera_angles_zero_width by now rewrite Hw.
    cbn [bind fst snd]. now rewrite app_nil_r. }
  split; [exact Hrun|].
  rewrite Hrun. cbn [fst]. apply sent_receptions.
Qed.

Lemma stored_zero_width_stops_tracking_witness :
  run_on (failing_at 0 Refused)
    (mkConfig (lit 0) (lit 4000) (lit 1) (lit 1) 0 100 (lit 1000) (lit 5000))
    ([Failure; Frame []; Frame [mkBall (lit 100) (lit 0) (dec 4 10)]]
       ++ Frame [mkBall (lit 3000) (lit 0) (dec 9 10)] :: [Interrupt])
  = ([Printed StartingBallTracking; Printed ErrorReceivingFrame],
     TransformError ZeroDivisionError).
Proof.
  apply (stored_zero_width_stops_tracking
           {[ default_filename := {[ "field_width" := JInt 0 ]} ]}
           {[ "field_width" := JInt 0 ]} (JInt 0) false
           (mkConfig (lit 0) (lit 4000) (lit 1) (lit 1) 0 100
              (lit 1000) (lit 5000))
           (failing_at 0 Refused)
           [Failure; Frame []; Frame [mkBall (lit 100) (lit 0) (dec 4 10)]]
           [Interrupt] (mkBall (lit 3000) (lit 0) (dec 9 10)) []).
  - reflexivity.
  - reflexivity.
  - reflexivity.
  - vm_compute. reflexivity.
  - intros d [<-|[<-|[<-|[]]]]; split; try discriminate; reflexivity.
  - vm_compute. reflexivity.
Defined.

(** ** Calibration and the angles *)

(** A greater scale factor gives a greater angle on the positive side. *)
Lemma fmul_mono_scale (r s s' : float) :
  wf r = true -> nonneg r = true ->
  is_positive s = true -> is_positive s' = true -> SFleb s s' = true ->
  SFleb (fmul r s) (fmul r s') = true.
Proof.
  intros Hr Hn Hs Hs' Hle.
  destruct (is_positive_facts s Hs) as (Hws & _).
  destruct (is_positive_facts s' Hs') as (Hws' & _).
  destruct r as [[]|[]| |[] m e]; try discriminate.
  - destruct s as [?|?| |[] ms es], s' as [?|?| |[] ms' es'];
      try discriminate; reflexivity.
  - destruct s as [?|?| |[] ms es], s' as [?|?| |[] ms' es'];
      try discriminate; reflexivity.
  - rewrite (fmul_comm _ s), (fmul_comm _ s').
    now apply fmul_pos_mono.
Qed.

Lemma raw_angle_scale_mono (x extent limit s s' : float) :
  is_positive (half_extent extent) = true -> is_positive limit = true ->
  is_positive s = true -> is_positive s' = true -> SFleb s s' = true ->
  wf x = true -> nonneg x = true ->
  SFleb (raw_angle x extent limit s) (raw_angle x extent limit s') = true.
Proof.
  intros Hh Hl Hs Hs' Hle Hx Hn. unfold raw_angle.
  destruct (fdiv_pos_shape _ x Hh Hx Hn) as [Hw1 Hn1].
  destruct (fmul_pos_shape _ _ Hl Hw1 Hn1) as [Hw2 Hn2].
  now apply fmul_mono_scale.
Qed.

Lemma clamped_angle_scale_mono (x extent limit s s' : float) (hi p p' : Z) :
  0 < hi ->
  is_positive (half_extent extent) = true -> is_positive limit = true ->
  is_positive s = true -> is_positive s' = true -> SFleb s s' = true ->
  wf x = true ->
  int (clamp (- hi) hi (Float (raw_angle x extent limit s))) = Ok p ->
  int (clamp (- hi) hi (Float (raw_angle x extent limit s'))) = Ok p' ->
  (nonneg x = true -> p <= p') /\ (nonneg (SFopp x) = true -> p' <= p).
Proof.
  intros Hhi Hh Hl Hs Hs' Hle Hx Hp Hp'.
  assert (Hmono : forall x' q q',
    wf x' = true -> nonneg x' = true ->
    int (clamp (- hi) hi (Float (raw_angle x' extent limit s))) = Ok q ->
    int (clamp (- hi) hi (Float (raw_angle x' extent limit s'))) = Ok q' ->
    q <= q').
  { intros x' q q' Hx' Hn' Hq Hq'.
    assert (Hnan : is_nan x' = false) by now destruct x' as [[]|[]| |[] m e].
    eapply (int_clamp_mono (- hi) hi _ _ q' q ltac:(lia));
      [| | |exact Hq|exact Hq'].
    - now apply raw_angle_wf.
    - now apply raw_angle_wf.
    - now apply raw_angle_scale_mono. }
  split; intros Hn; [now apply (Hmono x)|].
  assert (Hnan : is_nan (SFopp x) = false)
    by now destruct x as [[]|[]| |[] m e].
  assert (Hwo : wf (SFopp x) = true) by now rewrite wf_opp.
  destruct (raw_angle_wf (SFopp x) extent limit s Hh Hl Hs Hwo Hnan)
    as [_ Hn1].
  destruct (raw_angle_wf (SFopp x) extent limit s' Hh Hl Hs' Hwo Hnan)
    as [_ Hn2].
  rewrite raw_angle_opp, is_nan_opp in Hn1, Hn2.
  pose proof (int_clamp_opp hi _ p Hhi Hn1 Hp) as Hq.
  pose proof (int_clamp_opp hi _ p' Hhi Hn2 Hp') as Hq'.
  rewrite <- raw_angle_opp in Hq, Hq'.
  pose proof (Hmono (SFopp x) (- p) (- p') Hwo Hn Hq Hq'). lia.
Qed.

(** X19.  Raising the pan scale never turns the camera inward.  For a
    valid configuration, when pan+ leaves a finite scale, the pan sent
    for a ball at the same position is at least as large as before on
    the right half of the field (x > 0) and at most as large on the
    left half (x < 0); the tilt angle is the same. *)
Theorem pan_plus_widens (config : CameraConfig) (fs : files) (x y : float)
    (pan tilt pan' tilt' : num) :
  let config' := fst (fst (calibration_command config fs "pan+")) in
  valid_config config = true -> wf x = true ->
  is_positive (pan_scale config') = true ->
  calculate_camera_angles config x y = Ok (pan, tilt) ->
  calculate_camera_angles config' x y = Ok (pan', tilt') ->
  tilt' = tilt
  /\ exists p p',
       int pan = Ok p /\ int pan' = Ok p'
       /\ (gt (Float x) (Float (lit 0)) = true -> p <= p')
       /\ (lt (Float x) (Float (lit 0)) = true -> p' <= p).
Proof.
  intros config' Hv Hx Hfin Hang Hang'.
  pose proof (calculate_camera_angles_returns _ _ _ _ Hang) as Hnd.
  assert (Hnd' : nondegenerate_field config' = true) by exact Hnd.
  destruct (nondegenerate_positive config Hv Hnd) as [Hhw _].
  destruct (valid_config_fields config Hv) as (_ & _ & Hps & _).
  rewrite (calculate_camera_angles_defined config _ _ Hnd) in Hang.
  rewrite (calculate_camera_angles_defined config' _ _ Hnd') in Hang'.
  injection Hang as <- <-. injection Hang' as <- <-.
  split; [reflexivity|].
  destruct (int_clamp (-129) 129
    (Float (raw_angle x (field_width config) (lit 129) (pan_scale config))))
    as (p & Hp & _).
  destruct (int_clamp (-129) 129
    (Float (raw_angle x (field_width config') (lit 129) (pan_scale config'))))
    as (p' & Hp' & _).
  exists p, p'. split; [assumption|]. split; [assumption|].
  assert (Hle : SFleb (pan_scale config) (pan_scale config') = true).
  { apply fmul_factor_order.
    now destruct (pan_scale config) as [|[]| |[] m e]. }
  destruct (clamped_angle_scale_mono x (field_width config) (lit 129)
              (pan_scale config) (pan_scale config') 129 p p')
    as [Hpos Hneg]; try assumption; try reflexivity.
  split; intros Hsign.
  - apply Hpos. unfold gt in Hsign. cbn [num_compare] in Hsign.
    now destruct x as [[]|[]| |[] m e].
  - apply Hneg. unfold lt in Hsign. cbn [num_compare] in Hsign.
    now destruct x as [[]|[]| |[] m e].
Qed.

Lemma pan_plus_widens_witness :
  Float (dec (-295) 100) = Float (dec (-295) 100)
  /\ exists p p',
       int (Float (dec 43 10)) = Ok p
       /\ int (Float (fmul (dec 43 10) (dec 11 10))) = Ok p'
       /\ (gt (Float (lit 100)) (Float (lit 0)) = true -> p <= p')
       /\ (lt (Float (lit 100)) (Float (lit 0)) = true -> p' <= p).
Proof.
  apply (pan_plus_widens default_config ∅ (lit 100) (lit (-100)));
    reflexivity.
Defined.

(** ** The distance grows with the coordinates *)

Lemma div2_mono (a b : Z) : a <= b -> Z.div2 a <= Z.div2 b.
Proof. intros H. rewrite !Z.div2_div. now apply Z.div_le_mono. Qed.

Lemma div2_bounds (a : Z) : 2 * Z.div2 a <= a <= 2 * Z.div2 a + 1.
Proof.
  rewrite Z.div2_div. pose proof (Z.div_mod a 2 ltac:(lia)).
  pose proof (Z.mod_pos_bound a 2 ltac:(lia)). lia.
Qed.

(** The exponent at which the root of a well-formed float is taken. *)
Lemma sqrt_exponent (m : positive) (e : Z) :
  wf (S754_finite false m e) = true ->
  Z.min (fexp prec emax (Z.div2 (Zpos (digits2_pos m) + e + 1))) (Z.div2 e)
  = Z.div2 (Zpos (digits2_pos m) + e + 1) - 53.
Proof.
  intros (He & Hm & Hn)%wf_finite_facts.
  destruct (digits2_pos_bounds m) as [Hlo Hhi].
  set (d := Zpos (digits2_pos m)) in *.
  assert (Hd1 : 1 <= d) by (unfold d; lia).
  assert (Hd53 : d <= 53).
  { destruct (Z.le_gt_cases d 53) as [|Hgt]; [assumption|exfalso].
    assert (2 ^ 53 <= 2 ^ (d - 1)) by (apply Z.pow_le_mono_r; lia). lia. }
  assert (Hdn : e = -1074 \/ d = 53).
  { destruct Hn as [Hn|Hn]; [now left|right].
    destruct (Z.le_gt_cases 53 d) as [|Hlt]; [lia|exfalso].
    assert (2 ^ d <= 2 ^ 52) by (apply Z.pow_le_mono_r; lia). lia. }
  rewrite fexp_eq.
  pose proof (div2_bounds (d + e + 1)). pose proof (div2_bounds e). lia.
Qed.

(** The rounded square root of a positive float is the rounding of a
    rational: with [m * 2 ^ (e - 2 e') = q * q + r] the root lies at
    [q], below [q + 1/2] or above it, and [q] has 53 digits. *)
Lemma fsqrt_closed (m : positive) (e : Z) :
  wf (S754_finite false m e) = true ->
  exists q r,
    let e' := Z.div2 (Zpos (digits2_pos m) + e + 1) - 53 in
    let c := if r =? 0 then 0 else if r <=? q then 1 else 3 in
    0 <= e - 2 * e'
    /\ Zpos m * 2 ^ (e - 2 * e') = q * q + r
    /\ 0 <= r <= 2 * q
    /\ 2 ^ 52 <= q < 2 ^ 53
    /\ fsqrt (S754_finite false m e)
       = RND false ((4 * q + c) * 2 ^ (e' - E0)) 4.
Proof.
  intros Hwf. pose proof Hwf as (He & Hm & Hn)%wf_finite_facts.
  unfold fsqrt. cbn [SFsqrt]. unfold SFsqrt_core_binary.
  change (Zdigits2 (Z.pos m)) with (Zpos (digits2_pos m)).
  rewrite (sqrt_exponent m e Hwf).
  set (d := Zpos (digits2_pos m)).
  set (e' := Z.div2 (d + e + 1) - 53).
  set (sft := e - 2 * e').
  assert (Hd1 : 1 <= d) by (unfold d; lia).
  assert (Hs : 0 <= sft).
  { pose proof (sqrt_exponent m e Hwf) as Hexp. fold d in Hexp.
    unfold sft, e'. pose proof (div2_bounds e). lia. }
  set (M := match sft with
            | 0 => Z.pos m
            | Z.pos _ => Z.shiftl (Z.pos m) sft
            | Z.neg _ => 0
            end).
  assert (HM : M = Zpos m * 2 ^ sft).
  { unfold M. destruct sft as [|p|p] eqn:Hd; try lia.
    now rewrite Z.shiftl_mul_pow2 by lia. }
  pose proof (pow2_pos sft Hs) as Hp.
  assert (HMpos : 0 < M) by (rewrite HM; lia).
  pose proof (Z.sqrtrem_spec M ltac:(lia)) as Hspec.
  destruct (Z.sqrtrem M) as [q r]. destruct Hspec as [Hqr Hr].
  assert (Hq : 0 <= q) by lia.
  assert (Hdig : Zdigits2 q = 53).
  { rewrite (sqrt_digits M q r (d + sft)); try assumption; try lia.
    - unfold sft.
      replace (d + (e - 2 * e') + 1) with (d + e + 1 - 2 * e') by lia.
      rewrite Zdiv2_sub_double. unfold e'. lia.
    - rewrite HM. destruct (digits2_pos_bounds m) as [Hlo Hhi].
      fold d in Hlo, Hhi.
      replace (d + sft - 1) with (d - 1 + sft) by lia.
      rewrite !Z.pow_add_r by lia. split; nia. }
  assert (Hqpos : 0 < q).
  { destruct (Z.eq_dec q 0) as [->|]; [|lia]. discriminate Hdig. }
  pose proof (Zdigits2_bounds q Hqpos) as Hqb. rewrite Hdig in Hqb.
  change (53 - 1) with 52 in Hqb.
  exists q, r. cbn zeta. fold d e' sft.
  split; [assumption|]. split; [lia|]. split; [assumption|].
  split; [assumption|].
  set (c := if r =? 0 then 0 else if r <=? q then 1 else 3).
  assert (Hc : (4 * q + c) / 4 = q
               /\ loc_of (4 * q + c) 4
                  = (if r =? 0 then loc_Exact
                     else loc_Inexact (if r <=? q then Lt else Gt))).
  { assert (H : forall j, 0 <= j < 4 ->
              (4 * q + j) / 4 = q /\ (4 * q + j) mod 4 = j).
    { intros j Hj. split.
      - symmetry. apply (Z.div_unique _ 4 q j); lia.
      - symmetry. apply (Z.mod_unique _ 4 q j); lia. }
    unfold c, loc_of.
    destruct (r =? 0); [|destruct (r <=? q)].
    - destruct (H 0 ltac:(lia)) as [-> ->]. now split.
    - destruct (H 1 ltac:(lia)) as [-> ->]. now split.
    - destruct (H 3 ltac:(lia)) as [-> ->]. now split. }
  destruct Hc as [Hdiv Hloc].
  assert (Hc0 : 0 <= c)
    by (unfold c; destruct (r =? 0); [|destruct (r <=? q)]; lia).
  rewrite <- Hloc, <- Hdiv at 1.
  apply binary_round_aux_shift; try lia.
  - unfold e', E0. pose proof (div2_bounds (d + e + 1)). lia.
  - rewrite Hdiv, Hdig, fexp_eq. lia.
Qed.

(** The magnitude of a finite float: the digits of the mantissa plus
    the exponent grow with the value. *)
Lemma magnitude_mono (m1 m2 : positive) (e1 e2 : Z) :
  -1074 <= e1 -> -1074 <= e2 ->
  Zof (S754_finite false m1 e1) <= Zof (S754_finite false m2 e2) ->
  Zpos (digits2_pos m1) + e1 <= Zpos (digits2_pos m2) + e2.
Proof.
  intros He1 He2. cbn [Zof cond_Zopp]. intros Hle.
  destruct (digits2_pos_bounds m1) as [Hlo1 _].
  destruct (digits2_pos_bounds m2) as [_ Hhi2].
  set (d1 := Zpos (digits2_pos m1)) in *.
  set (d2 := Zpos (digits2_pos m2)) in *.
  assert (Hd1 : 1 <= d1) by (unfold d1; lia).
  assert (Hd2 : 1 <= d2) by (unfold d2; lia).
  pose proof (pow2_pos (e1 + 1074) ltac:(lia)) as Hp1.
  pose proof (pow2_pos (e2 + 1074) ltac:(lia)) as Hp2.
  assert (Hlt : 2 ^ (d1 - 1 + (e1 + 1074)) < 2 ^ (d2 + (e2 + 1074))).
  { rewrite (Z.pow_add_r 2 (d1 - 1)), (Z.pow_add_r 2 d2) by lia.
    apply Z.le_lt_trans with (Z.pos m1 * 2 ^ (e1 + 1074)).
    - apply Z.mul_le_mono_nonneg_r; lia.
    - apply Z.le_lt_trans with (Z.pos m2 * 2 ^ (e2 + 1074)); [assumption|].
      apply Z.mul_lt_mono_pos_r; lia. }
  apply Z.pow_lt_mono_r_iff in Hlt; lia.
Qed.

Lemma sqrt_code_mono (q r r' : Z) :
  0 <= r <= r' ->
  (if r =? 0 then 0 else if r <=? q then 1 else 3)
  <= (if r' =? 0 then 0 else if r' <=? q then 1 else 3).
Proof.
  intros H.
  destruct (Z.eqb_spec r 0), (Z.eqb_spec r' 0),
           (Z.leb_spec r q), (Z.leb_spec r' q); lia.
Qed.

Lemma sqrt_code_bounds (q r : Z) :
  0 <= (if r =? 0 then 0 else if r <=? q then 1 else 3) <= 3.
Proof. destruct (r =? 0); [|destruct (r <=? q)]; lia. Qed.

(** The rounded square root is monotone on the positive finite floats. *)
Lemma fsqrt_mono_finite (m1 m2 : positive) (e1 e2 : Z) :
  wf (S754_finite false m1 e1) = true ->
  wf (S754_finite false m2 e2) = true ->
  Zof (S754_finite false m1 e1) <= Zof (S754_finite false m2 e2) ->
  SFleb (fsqrt (S754_finite false m1 e1)) (fsqrt (S754_finite false m2 e2))
  = true.
Proof.
  intros Hw1 Hw2 Hle.
  pose proof Hw1 as (He1 & _)%wf_finite_facts.
  pose proof Hw2 as (He2 & _)%wf_finite_facts.
  pose proof (magnitude_mono m1 m2 e1 e2 ltac:(lia) ltac:(lia) Hle) as Hmag.
  destruct (fsqrt_closed m1 e1 Hw1) as (q1 & r1 & Hs1 & HM1 & Hr1 & Hq1 & ->).
  destruct (fsqrt_closed m2 e2 Hw2) as (q2 & r2 & Hs2 & HM2 & Hr2 & Hq2 & ->).
  cbn [Zof cond_Zopp] in Hle.
  set (d1 := Zpos (digits2_pos m1)) in *.
  set (d2 := Zpos (digits2_pos m2)) in *.
  assert (Hd1 : 1 <= d1) by (unfold d1; lia).
  assert (Hd2 : 1 <= d2) by (unfold d2; lia).
  set (k1 := Z.div2 (d1 + e1 + 1)) in *.
  set (k2 := Z.div2 (d2 + e2 + 1)) in *.
  assert (Hk : k1 <= k2) by (apply div2_mono; lia).
  assert (Hk1 : -536 <= k1)
    by (unfold k1; pose proof (div2_bounds (d1 + e1 + 1)); lia).
  pose proof (sqrt_code_bounds q1 r1) as Hc1.
  pose proof (sqrt_code_bounds q2 r2) as Hc2.
  set (c1 := if r1 =? 0 then 0 else if r1 <=? q1 then 1 else 3) in *.
  set (c2 := if r2 =? 0 then 0 else if r2 <=? q2 then 1 else 3) in *.
  pose proof (pow2_pos (k1 - 53 - E0) ltac:(unfold E0; lia)) as Hp1.
  pose proof (pow2_pos (k2 - 53 - E0) ltac:(unfold E0; lia)) as Hp2.
  assert (Hmain : (4 * q1 + c1) * 2 ^ (k1 - 53 - E0)
                  <= (4 * q2 + c2) * 2 ^ (k2 - 53 - E0)).
  { destruct (Z.eq_dec k1 k2) as [Heq|Hne].
    - (* the same exponent: compare the integer roots *)
      rewrite <- Heq in *.
      set (T := 2 * (k1 - 53) + 1274).
      assert (HT : 0 <= T) by (unfold T; lia).
      pose proof (pow2_pos T HT) as HpT.
      assert (HZ1 : (q1 * q1 + r1) * 2 ^ T
                    = Z.pos m1 * 2 ^ (e1 + 1074) * 2 ^ 200).
      { rewrite <- HM1, <- !Z.mul_assoc, !pow2_add by lia.
        f_equal. f_equal. unfold T. lia. }
      assert (HZ2 : (q2 * q2 + r2) * 2 ^ T
                    = Z.pos m2 * 2 ^ (e2 + 1074) * 2 ^ 200).
      { rewrite <- HM2, <- !Z.mul_assoc, !pow2_add by lia.
        f_equal. f_equal. unfold T. lia. }
      assert (HM : q1 * q1 + r1 <= q2 * q2 + r2).
      { apply (Z.mul_le_mono_pos_r _ _ (2 ^ T)); [assumption|].
        rewrite HZ1, HZ2. apply Z.mul_le_mono_nonneg_r; [|assumption].
        apply Z.pow_nonneg. lia. }
      assert (Hq : q1 <= q2).
      { destruct (Z.le_gt_cases q1 q2) as [|Hgt]; [assumption|exfalso].
        assert ((q2 + 1) * (q2 + 1) <= q1 * q1)
          by (apply Z.mul_le_mono_nonneg; lia).
        lia. }
      assert (Hn : 4 * q1 + c1 <= 4 * q2 + c2).
      { destruct (Z.eq_dec q1 q2) as [Hqq|]; [|lia].
        subst q2.
        pose proof (sqrt_code_mono q1 r1 r2 ltac:(lia)) as Hcm.
        fold c1 c2 in Hcm. lia. }
      apply Z.mul_le_mono_nonneg_r; lia.
    - (* a smaller exponent: the whole binade lies below *)
      assert (Hstep : 2 * 2 ^ (k1 - 53 - E0) <= 2 ^ (k2 - 53 - E0)).
      { replace (2 * 2 ^ (k1 - 53 - E0)) with (2 ^ (k1 - 53 - E0 + 1))
          by (rewrite Z.pow_add_r by (unfold E0; lia); lia).
        apply Z.pow_le_mono_r; lia. }
      assert (H53 : 2 ^ 53 = 2 * 2 ^ 52) by reflexivity.
      set (P1 := 2 ^ (k1 - 53 - E0)) in *.
      set (P2 := 2 ^ (k2 - 53 - E0)) in *.
      assert (Ha : (4 * q1 + c1) * P1 <= 4 * 2 ^ 53 * P1)
        by (apply Z.mul_le_mono_nonneg_r; lia).
      assert (Hb : 4 * 2 ^ 52 * P2 <= (4 * q2 + c2) * P2)
        by (apply Z.mul_le_mono_nonneg_r; lia).
      assert (Hc : 4 * 2 ^ 53 * P1 <= 4 * 2 ^ 52 * P2).
      { rewrite H53.
        replace (4 * (2 * 2 ^ 52) * P1) with (4 * 2 ^ 52 * (2 * P1)) by ring.
        apply Z.mul_le_mono_nonneg_l; lia. }
      lia. }
  apply RND_mono; try lia; apply Z.mul_nonneg_nonneg; lia.
Qed.

Lemma fsqrt_nonneg (a : float) :
  wf a = true -> nonneg a = true -> nonneg (fsqrt a) = true.
Proof.
  intros Hw Hn. destruct a as [[]|[]| |[] m e]; try discriminate;
    try reflexivity.
  destruct (fsqrt_closed m e Hw) as (q & r & _ & _ & _ & _ & ->).
  apply RND_nonneg.
Qed.

Lemma nonneg_not_nan (a : float) : nonneg a = true -> is_nan a = false.
Proof. now destruct a as [[]|[]| |[] m e]. Qed.

Lemma SFleb_zero_nonneg (a : float) :
  nonneg a = true -> SFleb (S754_zero false) a = true.
Proof. now destruct a as [[]|[]| |[] m e]. Qed.

Lemma fsqrt_mono (a b : float) :
  wf a = true -> wf b = true -> nonneg a = true -> nonneg b = true ->
  SFleb a b = true -> SFleb (fsqrt a) (fsqrt b) = true.
Proof.
  intros Ha Hb Hna Hnb Hle.
  pose proof (fsqrt_nonneg a Ha Hna) as Hsa.
  pose proof (fsqrt_nonneg b Hb Hnb) as Hsb.
  destruct a as [[]|[]| |[] ma ea]; try discriminate.
  - now apply SFleb_zero_nonneg.
  - destruct b as [[]|[]| |[] mb eb]; try discriminate. reflexivity.
  - destruct b as [[]|[]| |[] mb eb]; try discriminate.
    + apply SFleb_inf_r. now apply nonneg_not_nan.
    + apply fsqrt_mono_finite; try assumption.
      now apply SFleb_Zof.
Qed.

(** Addition as the subtraction of the negation. *)
Lemma cond_Zopp_negb (s : bool) (z : Z) :
  cond_Zopp (negb s) z = - cond_Zopp s z.
Proof. destruct s; cbn; lia. Qed.

Lemma fadd_as_fsub (x y : float) : fadd x y = fsub x (SFopp y).
Proof.
  destruct x as [[]|[]| |[] mx ex], y as [[]|[]| |[] my ey];
    try reflexivity;
    unfold fadd, fsub, SFadd, SFsub, SFopp; cbn [cond_Zopp negb];
    now rewrite ?Z.add_opp_r, ?Z.sub_opp_r.
Qed.

Lemma Zof_opp (y : float) : Zof (SFopp y) = - Zof y.
Proof.
  destruct y as [s|s| |s m e]; cbn [Zof SFopp]; try reflexivity.
  apply cond_Zopp_negb.
Qed.

Lemma fadd_exact (x y : float) :
  wf x = true -> wf y = true ->
  finite_or_zero x = true -> finite_or_zero y = true ->
  x <> S754_zero true ->
  fadd x y = RNDq ((Zof x + Zof y) * 2 ^ 1126) 1.
Proof.
  intros Hx Hy Hfx Hfy Hnz.
  rewrite fadd_as_fsub, fsub_exact; try assumption.
  - rewrite Zof_opp. f_equal. lia.
  - now rewrite wf_opp.
  - now destruct y.
Qed.

Lemma fadd_nonneg_shape (a b : float) :
  wf a = true -> wf b = true -> nonneg a = true -> nonneg b = true ->
  wf (fadd a b) = true /\ nonneg (fadd a b) = true.
Proof.
  intros Ha Hb Hna Hnb.
  destruct (nonneg_cases a Hna) as [->|(Hfa & Ha0 & Hza)].
  - now destruct b as [[]|[]| |[] m e].
  - destruct (nonneg_cases b Hnb) as [->|(Hfb & Hb0 & Hzb)].
    + now destruct a as [[]|[]| |[] m e].
    + rewrite fadd_exact by assumption.
      assert (0 < 2 ^ 1126) by (apply pow2_pos; lia).
      split; [apply RNDq_wf; lia|apply RNDq_nonneg; nia].
Qed.

Lemma fadd_mono (a b a' b' : float) :
  wf a = true -> wf b = true -> wf a' = true -> wf b' = true ->
  nonneg a = true -> nonneg b = true -> nonneg a' = true -> nonneg b' = true ->
  SFleb a a' = true -> SFleb b b' = true ->
  SFleb (fadd a b) (fadd a' b') = true.
Proof.
  intros Ha Hb Ha' Hb' Hna Hnb Hna' Hnb' Hla Hlb.
  destruct (fadd_nonneg_shape a b Ha Hb Hna Hnb) as [_ Hn].
  apply nonneg_not_nan in Hn.
  destruct (nonneg_cases a' Hna') as [->|(Hfa' & Ha0' & Hza')].
  { replace (fadd (S754_infinity false) b') with (S754_infinity false)
      by now destruct b' as [[]|[]| |[] m e].
    now apply SFleb_inf_r. }
  destruct (nonneg_cases b' Hnb') as [->|(Hfb' & Hb0' & Hzb')].
  { replace (fadd a' (S754_infinity false)) with (S754_infinity false)
      by now destruct a' as [[]|[]| |[] m e].
    now apply SFleb_inf_r. }
  destruct (nonneg_cases a Hna) as [->|(Hfa & Ha0 & Hza)];
    [now rewrite SFleb_pinf_finite in Hla|].
  destruct (nonneg_cases b Hnb) as [->|(Hfb & Hb0 & Hzb)];
    [now rewrite SFleb_pinf_finite in Hlb|].
  rewrite !fadd_exact by assumption.
  pose proof (SFleb_Zof a a' Ha Ha' Hfa Hfa' Hla).
  pose proof (SFleb_Zof b b' Hb Hb' Hfb Hfb' Hlb).
  assert (0 < 2 ^ 1126) by (apply pow2_pos; lia).
  apply RNDq_mono; nia.
Qed.

(** Squares. *)
Lemma fmul_abs (x : float) : fmul x x = fmul (SFabs x) (SFabs x).
Proof.
  destruct x as [[]|[]| |[] m e]; try reflexivity.
Qed.

Lemma wf_abs (x : float) : wf (SFabs x) = wf x.
Proof. now destruct x. Qed.

Lemma square_shape (a : float) :
  wf a = true -> nonneg a = true ->
  wf (fmul a a) = true /\ nonneg (fmul a a) = true.
Proof.
  intros Ha Hna.
  destruct (nonneg_cases a Hna) as [->|(Hfa & _)]; [now split|].
  now apply fmul_shape.
Qed.

Lemma square_mono (a b : float) :
  wf a = true -> wf b = true -> nonneg a = true -> nonneg b = true ->
  SFleb a b = true -> SFleb (fmul a a) (fmul b b) = true.
Proof.
  intros Ha Hb Hna Hnb Hle.
  destruct (square_shape a Ha Hna) as [_ Hn]. apply nonneg_not_nan in Hn.
  destruct (nonneg_cases b Hnb) as [->|(Hfb & Hb0 & _)];
    [now apply SFleb_inf_r|].
  destruct (nonneg_cases a Hna) as [->|(Hfa & Ha0 & _)];
    [now rewrite SFleb_pinf_finite in Hle|].
  rewrite !fmul_exact by assumption.
  pose proof (SFleb_Zof a b Ha Hb Hfa Hfb Hle).
  assert (0 < 2 ^ 52) by (apply pow2_pos; lia).
  apply RNDq_mono; nia.
Qed.

(** The distance computed by [calculate_zoom] does not decrease when
    both coordinates move away from zero. *)
Lemma distance_mono (x1 y1 x2 y2 : float) :
  wf x1 = true -> wf y1 = true -> wf x2 = true -> wf y2 = true ->
  SFleb (SFabs x1) (SFabs x2) = true ->
  SFleb (SFabs y1) (SFabs y2) = true ->
  SFleb (fsqrt (fadd (fmul x1 x1) (fmul y1 y1)))
        (fsqrt (fadd (fmul x2 x2) (fmul y2 y2))) = true.
Proof.
  intros Hx1 Hy1 Hx2 Hy2 Hlx Hly.
  rewrite (fmul_abs x1), (fmul_abs y1), (fmul_abs x2), (fmul_abs y2).
  assert (Hn : forall a b, SFleb (SFabs a) (SFabs b) = true ->
                 nonneg (SFabs a) = true /\ nonneg (SFabs b) = true).
  { intros a b H. destruct (SFleb_not_nan _ _ H) as [Hna Hnb].
    split; [now destruct a|now destruct b]. }
  destruct (Hn _ _ Hlx) as [Hnx1 Hnx2]. destruct (Hn _ _ Hly) as [Hny1 Hny2].
  rewrite <- wf_abs in Hx1, Hy1, Hx2, Hy2.
  destruct (square_shape _ Hx1 Hnx1) as [Hwa Hna].
  destruct (square_shape _ Hy1 Hny1) as [Hwb Hnb].
  destruct (square_shape _ Hx2 Hnx2) as [Hwa' Hna'].
  destruct (square_shape _ Hy2 Hny2) as [Hwb' Hnb'].
  apply fsqrt_mono.
  - now apply fadd_nonneg_shape.
  - now apply fadd_nonneg_shape.
  - now apply fadd_nonneg_shape.
  - now apply fadd_nonneg_shape.
  - apply fadd_mono; try assumption; now apply square_mono.
Qed.

(** X25.  The zoom never grows when the ball moves outward: for a valid
    configuration and two positions with |x1| <= |x2| and |y1| <= |y2|,
    the zoom returned for the second position is at most the zoom
    returned for the first. *)
Theorem zoom_shrinks_outward (config : CameraConfig) (x1 y1 x2 y2 : float)
    (z1 z2 : Z) :
  valid_config config = true ->
  wf x1 = true -> wf y1 = true -> wf x2 = true -> wf y2 = true ->
  le (Float (SFabs x1)) (Float (SFabs x2)) = true ->
  le (Float (SFabs y1)) (Float (SFabs y2)) = true ->
  calculate_zoom config x1 y1 = Ok z1 ->
  calculate_zoom config x2 y2 = Ok z2 ->
  z2 <= z1.
Proof.
  intros Hv Hx1 Hy1 Hx2 Hy2 Hlx Hly.
  destruct (valid_config_fields config Hv) as (_ & _ & _ & _ & _ & Hvz).
  unfold calculate_zoom. rewrite !distance_of_returns. cbn [bind].
  apply zoom_of_distance_mono; try assumption; try apply fsqrt_wf.
  rewrite le_Float. now apply distance_mono.
Qed.

Lemma zoom_shrinks_outward_witness :
  calculate_zoom default_config (lit (-1500)) (lit 600) = Ok 84
  /\ calculate_zoom default_config (lit 2000) (lit (-900)) = Ok 70
  /\ 70 <= 84.
Proof.
  split; [reflexivity|]. split; [reflexivity|].
  exact (zoom_shrinks_outward default_config (lit (-1500)) (lit 600)
           (lit 2000) (lit (-900)) 84 70
           eq_refl eq_refl eq_refl eq_refl eq_refl eq_refl eq_refl
           eq_refl eq_refl).
Defined.

(** ** The default configuration on the millimetre grid *)

Lemma In_millimetres (lo hi z : Z) :
  lo <= z <= hi -> In z (millimetres lo hi).
Proof.
  intros Hz. unfold millimetres. apply in_map_iff.
  exists (Z.to_nat (z - lo)). split; [lia|]. apply in_seq. lia.
Qed.

Lemma default_pan_exact :
  forallb (angle_is_exact (lit 6000) (lit 129) (lit 1) 129 129 3000)
    (millimetres (-3000) 3000) = true.
Proof. vm_compute. reflexivity. Qed.

Lemma default_tilt_exact :
  forallb (angle_is_exact (lit 4000) (lit 59) (lit 1) 59 59 2000)
    (millimetres (-2000) 2000) = true.
Proof. vm_compute. reflexivity. Qed.

Lemma angle_is_exact_spec (extent limit scale : float)
    (bound limit_z half pos : Z) :
  angle_is_exact extent limit scale bound limit_z half pos = true ->
  int (clamp (- bound) bound (Float (raw_angle (lit pos) extent limit scale)))
  = Ok (Z.quot (limit_z * pos) half).
Proof.
  unfold angle_is_exact. destruct (int _) as [z|]; [|discriminate].
  now intros ->%Z.eqb_eq.
Qed.

(** X24.  With the default configuration, rounding never shifts a
    command: for every position on the whole-millimetre grid of the
    field (x from -3000 to 3000, y from -2000 to 2000) the pan sent is
    129 * x / 3000 and the tilt sent is 59 * y / 2000, each computed
    exactly and truncated toward zero. *)
Theorem default_grid_exact (x y : Z) :
  -3000 <= x <= 3000 -> -2000 <= y <= 2000 ->
  exists pan tilt,
    calculate_camera_angles default_config (lit x) (lit y) = Ok (pan, tilt)
    /\ int pan = Ok (Z.quot (129 * x) 3000)
    /\ int tilt = Ok (Z.quot (59 * y) 2000).
Proof.
  intros Hx Hy.
  rewrite (calculate_camera_angles_defined default_config _ _ eq_refl).
  eexists _, _. split; [reflexivity|]. split.
  - apply (angle_is_exact_spec (lit 6000) (lit 129) (lit 1) 129 129 3000).
    pose proof default_pan_exact as H. rewrite forallb_forall in H.
    apply H, In_millimetres. lia.
  - apply (angle_is_exact_spec (lit 4000) (lit 59) (lit 1) 59 59 2000).
    pose proof default_tilt_exact as H. rewrite forallb_forall in H.
    apply H, In_millimetres. lia.
Qed.

Lemma default_grid_exact_witness :
  exists pan tilt,
    calculate_camera_angles default_config (lit 1000) (lit (-777))
    = Ok (pan, tilt)
    /\ int pan = Ok 43 /\ int tilt = Ok (-22).
Proof.
  apply (default_grid_exact 1000 (-777)); lia.
Defined.
